(** * lsmRack utilities and shadow management

    A shallow embedding of the utility module of the rack viewer
    ([sanitizeInput], [debounce], [getWorldHalfExtents], [columnLetterToIndex]
    and [validateRackConfig]) and of the functions of its shadow module that
    work on the scene, the lights and the renderer.

    A JavaScript Number is an IEEE 754 binary64 value, which is what Rocq's
    primitive [float] is: [/], [*], [+] and [Math.abs] are the primitive
    operations.  [Math.cos] and [Math.sin] belong to the host; ECMA-262 fixes
    only their boundary cases, so they enter through [MathObject].  Where a
    statement is about closeness, a finite number is read as the real number
    it stands for ([value]), and the rounding of each operation is taken
    from its specification in [SpecFloat]. *)

From Stdlib Require Import ZArith Bool List Lia.
From Stdlib Require Import Ascii String.
From Stdlib Require Import Floats.
From Stdlib Require Uint63.
From Stdlib Require Import Reals Lra.
Import ListNotations.

(** ** Numbers *)

(** The operations the function body uses on its numbers. *)
Record Number (num : Type) : Type := {
  num_two : num;
  num_div : num -> num -> num;
  num_mul : num -> num -> num;
  num_add : num -> num -> num;
  num_abs : num -> num;
  num_cos : num -> num;
  num_sin : num -> num
}.

Arguments num_two {num}.
Arguments num_div {num}.
Arguments num_mul {num}.
Arguments num_add {num}.
Arguments num_abs {num}.
Arguments num_cos {num}.
Arguments num_sin {num}.

(** ** The scene objects the function reads *)

(** [rack.userData.config], with the fields [validateRackConfig] lists. *)
Record RackConfig (num : Type) : Type := {
  rackId : string;
  width : num;
  depth : num;
  height : num;
  levels : num;
  cells : num
}.

Arguments rackId {num}.
Arguments width {num}.
Arguments depth {num}.
Arguments height {num}.
Arguments levels {num}.
Arguments cells {num}.

Record UserData (num : Type) : Type := {
  config : RackConfig num;
  isCell : bool;
  isCellContent : bool
}.

Arguments config {num}.
Arguments isCell {num}.
Arguments isCellContent {num}.

(** [rack.rotation]: Euler angles in radians. *)
Module Euler.
Record t (num : Type) : Type := { x : num; y : num; z : num }.
Arguments x {num}.
Arguments y {num}.
Arguments z {num}.
End Euler.

(** The part of a [THREE.Object3D] the utilities touch. *)
Record Object3D (num : Type) : Type := {
  name : string;
  isMesh : bool;
  castShadow : bool;
  receiveShadow : bool;
  rotation : Euler.t num;
  userData : UserData num
}.

Arguments name {num}.
Arguments isMesh {num}.
Arguments castShadow {num}.
Arguments receiveShadow {num}.
Arguments rotation {num}.
Arguments userData {num}.

(** The returned object literal [{ halfX, halfZ }]. *)
Record HalfExtents (num : Type) : Type := { halfX : num; halfZ : num }.

Arguments Build_HalfExtents {num}.
Arguments halfX {num}.
Arguments halfZ {num}.

(** ** getWorldHalfExtents *)

Section GetWorldHalfExtents.
Context {num : Type} (N : Number num).

Local Notation "a / b" := (num_div N a b).
Local Notation "a * b" := (num_mul N a b).
Local Notation "a + b" := (num_add N a b).

Definition getWorldHalfExtents (rack : Object3D num) : HalfExtents num :=
  let w := width (config (userData rack)) in
  let d := depth (config (userData rack)) in
  let θ := Euler.y (rotation rack) in
  let hx := w / num_two N in
  let hz := d / num_two N in
  let halfX := num_abs N (num_cos N θ * hx) + num_abs N (num_sin N θ * hz) in
  let halfZ := num_abs N (num_sin N θ * hx) + num_abs N (num_cos N θ * hz) in
  {| halfX := halfX; halfZ := halfZ |}.

End GetWorldHalfExtents.

(** The three numbers the function reads from a rack. *)
Definition rack_width {num} (rack : Object3D num) : num :=
  width (config (userData rack)).
Definition rack_depth {num} (rack : Object3D num) : num :=
  depth (config (userData rack)).
Definition rack_angle {num} (rack : Object3D num) : num :=
  Euler.y (rotation rack).

(** A rack group with the given footprint and rotation about the vertical
    axis; [other] fills the numeric fields the function does not read. *)
Definition rack_of {num} (other w d θ : num) : Object3D num := {|
  name := "rack";
  isMesh := false;
  castShadow := false;
  receiveShadow := false;
  rotation := {| Euler.x := other; Euler.y := θ; Euler.z := other |};
  userData := {|
    config := {| rackId := "A"; width := w; depth := d;
                 height := other; levels := other; cells := other |};
    isCell := false;
    isCellContent := false |}
|}.

(** Two rack objects that agree on width, depth and rotation about the
    vertical axis and on nothing else. *)
Definition pallet_rack : Object3D float := {|
  name := "rack-A01";
  isMesh := false;
  castShadow := true;
  receiveShadow := true;
  rotation := {| Euler.x := 0%float; Euler.y := 0.5%float; Euler.z := 0%float |};
  userData := {|
    config := {| rackId := "A01"; width := 4%float; depth := 2%float;
                 height := 3%float; levels := 4%float; cells := 6%float |};
    isCell := false;
    isCellContent := false |}
|}.

Definition tilted_rack : Object3D float := {|
  name := "pillarStructure";
  isMesh := true;
  castShadow := false;
  receiveShadow := false;
  rotation := {| Euler.x := 1%float; Euler.y := 0.5%float; Euler.z := (-2)%float |};
  userData := {|
    config := {| rackId := "Z99"; width := 4%float; depth := 2%float;
                 height := 10%float; levels := 1%float; cells := nan |};
    isCell := true;
    isCellContent := true |}
|}.

(** ** The host's Math object *)

(** ECMA-262 leaves the accuracy of [Math.cos] and [Math.sin] to the
    implementation and prescribes these results only: a non-finite argument
    gives NaN, [cos] of either zero is 1, [sin] of a zero is that zero. *)
Record MathObject : Type := {
  Math_cos : float -> float;
  Math_sin : float -> float;
  cos_not_finite : forall n, is_finite n = false -> Math_cos n = nan;
  cos_zero : forall n, is_zero n = true -> Math_cos n = one;
  sin_not_finite : forall n, is_finite n = false -> Math_sin n = nan;
  sin_zero : forall n, is_zero n = true -> Math_sin n = n
}.

(** [Math.PI] is the same on every host: the binary64 number nearest to π. *)
Definition Math_PI : float := 0x1.921fb54442d18p+1.

(** Numbers as the engine has them: binary64 with the host's [Math]. *)
Definition binary64 (M : MathObject) : Number float := {|
  num_two := two;
  num_div := PrimFloat.div;
  num_mul := PrimFloat.mul;
  num_add := PrimFloat.add;
  num_abs := PrimFloat.abs;
  num_cos := Math_cos M;
  num_sin := Math_sin M
|}.

(** [x === y || (x !== x && y !== y)]: equal as numbers, the two zeros
    identified and NaN equal to itself (ECMA-262 SameValueZero). *)
Definition same_value_zero (x y : float) : bool :=
  (x =? y)%float || (is_nan x && is_nan y).

(** A small [Math] object: truncated Taylor polynomials around 0 with the
    prescribed boundary cases.  Any conforming engine is an instance of
    [MathObject]; this one serves to run the definitions. *)
Module Taylor.
Local Open Scope float_scope.

Definition cos (n : float) : float :=
  if is_finite n then
    if is_zero n then one
    else
      let n2 := n * n in
      1 - n2 / 2 * (1 - n2 / 12 * (1 - n2 / 30 * (1 - n2 / 56)))
  else nan.

Definition sin (n : float) : float :=
  if is_finite n then
    if is_zero n then n
    else
      let n2 := n * n in
      n * (1 - n2 / 6 * (1 - n2 / 20 * (1 - n2 / 42 * (1 - n2 / 72))))
  else nan.

End Taylor.

(** [TaylorMath] is a conforming [Math]: the four prescribed cases hold by
    the case analysis in [Taylor.cos] and [Taylor.sin], a zero being finite. *)
Definition TaylorMath : MathObject.
Proof.
  assert (forall n, is_zero n = true -> is_finite n = true) as zero_finite.
  { intros n. unfold is_zero, is_finite, is_nan, is_infinity.
    rewrite !eqb_spec, abs_spec.
    change (Prim2SF zero) with (S754_zero false).
    change (Prim2SF infinity) with (S754_infinity false).
    destruct (Prim2SF n) as [[|]|[|]| |[|] m e]; try discriminate; reflexivity. }
  refine {| Math_cos := Taylor.cos; Math_sin := Taylor.sin |};
    unfold Taylor.cos, Taylor.sin; intros n H;
    try rewrite (zero_finite n H); now rewrite H.
Defined.

(** ** A host with accurate [Math.cos] and [Math.sin] *)

(** [Math.cos] and [Math.sin] computed the long way: the argument is reduced
    by multiples of [π/2] in integer arithmetic, with enough bits of [π] for
    every binary64 argument, the Taylor series of the rest is summed in
    fixed point with 256 fractional bits, and the sum is rounded to
    binary64.  Arguments below [2^-27] in magnitude give the argument itself
    for the sine and 1 for the cosine, to which their series round. *)
Module Precise.
Local Open Scope Z_scope.

Definition bits : Z := 256.
Definition pi_bits : Z := 1400.

(** [2^P * arctan (1/n)] from its alternating series; [power] runs through
    [2^P / n^(2j+1)] and [k] through the odd numbers. *)
Fixpoint arctan_inv (fuel : nat) (n2 power k acc : Z) (plus : bool) : Z :=
  match fuel with
  | O => acc
  | S fuel' =>
      arctan_inv fuel' n2 (power / n2) (k + 2)
        (if plus then acc + power / k else acc - power / k) (negb plus)
  end.

(** Machin's formula, [π = 16 arctan (1/5) - 4 arctan (1/239)], in units of
    [2^-P]. *)
Definition machin (P : Z) : Z :=
  16 * arctan_inv 700 25 (2 ^ P / 5) 1 0 true
  - 4 * arctan_inv 200 (239 * 239) (2 ^ P / 239) 1 0 true.

(** [π] in units of [2^-pi_bits]. *)
Definition pi_fix : Z := Eval vm_compute in (machin (pi_bits + 64) / 2 ^ 64).

(** [m * 2^e] reduced: the quadrant it lies in, and how far into it, an
    angle of [[0, π/2)] in units of [2^-bits]. *)
Definition reduce (m : positive) (e : Z) : Z * Z :=
  let A := Zpos m * 2 ^ (Z.max e 0) * 2 ^ (pi_bits + 1) in
  let B := pi_fix * 2 ^ (Z.max (- e) 0) in
  ((A / B) mod 4, (A mod B * pi_fix * 2 ^ bits) / (B * 2 ^ (pi_bits + 1))).

(** The alternating series [term - term t^2/(k(k+1)) + ...]. *)
Fixpoint series (fuel : nat) (t2 term k acc : Z) (plus : bool) : Z :=
  match fuel with
  | O => acc
  | S fuel' =>
      series fuel' t2 (term * t2 / 2 ^ bits / (k * (k + 1))) (k + 2)
        (if plus then acc + term else acc - term) (negb plus)
  end.

Definition sin_fix (t : Z) : Z := series 48 (t * t / 2 ^ bits) t 2 0 true.
Definition cos_fix (t : Z) : Z := series 48 (t * t / 2 ^ bits) (2 ^ bits) 1 0 true.

(** Sine and cosine of [m * 2^e], in units of [2^-bits]. *)
Definition sin_cos (m : positive) (e : Z) : Z * Z :=
  let '(q, t) := reduce m e in
  let s := sin_fix t in
  let c := cos_fix t in
  match q with
  | 0 => (s, c)
  | 1 => (c, - s)
  | 2 => (- s, - c)
  | _ => (- c, s)
  end.

(** Rounding to the nearest binary64 number, and towards zero. *)
Definition nearest (v : Z) : float :=
  SF2Prim (binary_normalize prec emax v (- bits) false).


Section WithRounding.
Variable round_cos : bool -> Z -> float.

Definition cos_with (n : float) : float :=
  if is_finite n then
    if is_zero n then one
    else if (abs n <? 0x1p-27)%float then one
    else
      match Prim2SF n with
      | S754_finite s m e => round_cos s (snd (sin_cos m e))
      | _ => one
      end
  else nan.

End WithRounding.

Definition cos : float -> float := cos_with (fun _ => nearest).

Definition sin (n : float) : float :=
  if is_finite n then
    if is_zero n then n
    else if (abs n <? 0x1p-27)%float then n
    else
      match Prim2SF n with
      | S754_finite s m e => nearest (if s then - fst (sin_cos m e) else fst (sin_cos m e))
      | _ => n
      end
  else nan.


End Precise.

(** [PreciseMath] and [LopsidedMath] are conforming [Math] objects: the
    prescribed cases are the first tests of [Precise.cos_with] and
    [Precise.sin], a zero being finite. *)
Definition PreciseMath : MathObject.
Proof.
  assert (forall n, is_zero n = true -> is_finite n = true) as zero_finite.
  { intros n. unfold is_zero, is_finite, is_nan, is_infinity.
    rewrite !eqb_spec, abs_spec.
    change (Prim2SF zero) with (S754_zero false).
    change (Prim2SF infinity) with (S754_infinity false).
    destruct (Prim2SF n) as [[|]|[|]| |[|] m e]; try discriminate; reflexivity. }
  refine {| Math_cos := Precise.cos; Math_sin := Precise.sin |};
    unfold Precise.cos, Precise.cos_with, Precise.sin; intros n H;
    try rewrite (zero_finite n H); now rewrite H.
Defined.


(** ** sanitizeInput *)

(** The values a caller can pass.  Of an object only what [typeof] sees is
    kept.  A string is the sequence of its characters; the five characters
    of the pattern are ASCII, and every other character is copied as it is. *)
Inductive JSValue : Type :=
| JSUndefined
| JSNull
| JSBoolean (b : bool)
| JSNumber (n : float)
| JSBigInt (i : Z)
| JSString (s : string)
| JSSymbol (description : string)
| JSObject (callable : bool).

Definition typeof (v : JSValue) : string :=
  match v with
  | JSUndefined => "undefined"
  | JSNull => "object"
  | JSBoolean _ => "boolean"
  | JSNumber _ => "number"
  | JSBigInt _ => "bigint"
  | JSString _ => "string"
  | JSSymbol _ => "symbol"
  | JSObject callable => if callable then "function" else "object"
  end.

(** The characters of the string value; empty for the others, which
    [sanitizeInput] has returned on before it asks. *)
Definition string_data (v : JSValue) : string :=
  match v with
  | JSString s => s
  | _ => EmptyString
  end.

Definition double_quote : ascii := "034"%char.

(** The character class of the pattern: less-than, greater-than, the single
    and the double quote, and the ampersand. *)
Definition pattern_class : list ascii :=
  ["<"; ">"; "'"; double_quote; "&"]%char.

Definition in_class (cls : list ascii) (c : ascii) : bool :=
  existsb (Ascii.eqb c) cls.

(** The object literal [entities], in source order. *)
Definition entities : list (string * string) :=
  [ ("<", "&lt;");
    (">", "&gt;");
    (String double_quote EmptyString, "&quot;");
    ("'", "&#39;");
    ("&", "&amp;") ]%string.

(** Property read [obj[key]]: [None] is [undefined]. *)
Fixpoint get_property (obj : list (string * string)) (key : string) : option string :=
  match obj with
  | [] => None
  | (k, v) :: rest => if String.eqb k key then Some v else get_property rest key
  end.

(** [a || b] for a string-or-undefined [a]: [undefined] and the empty string
    are falsy. *)
Definition or_else (a : option string) (b : string) : string :=
  match a with
  | Some EmptyString | None => b
  | Some s => s
  end.

(** The callback given to [replace]. *)
Definition replacer (char : string) : string :=
  or_else (get_property entities char) char.

(** [str.replace(/[cls]/g, fn)]: every character of the class is a match, the
    matches are replaced left to right by what [fn] returns for them, and the
    replacement text is not scanned again. *)
Fixpoint replace_class (cls : list ascii) (fn : string -> string) (str : string) : string :=
  match str with
  | EmptyString => EmptyString
  | String c rest =>
      ((if in_class cls c then fn (String c EmptyString) else String c EmptyString)
       ++ replace_class cls fn rest)%string
  end.

Definition sanitizeInput (str : JSValue) : string :=
  if negb (String.eqb (typeof str) "string") then EmptyString
  else replace_class pattern_class replacer (string_data str).

(** The escaping as it is specified, to compare [sanitizeInput] with: each
    of the five characters becomes its HTML entity, every other character
    stays. *)
Definition html_entity (c : ascii) : string :=
  if Ascii.eqb c "<" then "&lt;"
  else if Ascii.eqb c ">" then "&gt;"
  else if Ascii.eqb c double_quote then "&quot;"
  else if Ascii.eqb c "'" then "&#39;"
  else if Ascii.eqb c "&" then "&amp;"
  else String c EmptyString.

Fixpoint html_escape (s : string) : string :=
  match s with
  | EmptyString => EmptyString
  | String c rest => (html_entity c ++ html_escape rest)%string
  end.

(** [occurs c s]: the character [c] is one of the characters of [s]. *)
Fixpoint occurs (c : ascii) (s : string) : bool :=
  match s with
  | EmptyString => false
  | String c' rest => Ascii.eqb c c' || occurs c rest
  end.

(** The characters an escaped string must not contain. *)
Definition markup_chars : list ascii := ["<"; ">"; double_quote; "'"]%char.

(** ** columnLetterToIndex *)

(** [String.prototype.toUpperCase] on the ASCII range, where it maps [a-z] to
    [A-Z] and keeps every other character.  Outside ASCII the host's case
    mapping is not modelled; what is proved about a character assumes it is
    ASCII. *)
Definition toUpperCase_char (c : ascii) : ascii :=
  let n := nat_of_ascii c in
  if (97 <=? n)%nat && (n <=? 122)%nat then ascii_of_nat (n - 32) else c.

Fixpoint toUpperCase (s : string) : string :=
  match s with
  | EmptyString => EmptyString
  | String c rest => String (toUpperCase_char c) (toUpperCase rest)
  end.

(** [s.charCodeAt(index)]: the code of the character, NaN past the end. *)
Definition charCodeAt (s : string) (index : nat) : float :=
  match String.get index s with
  | Some c => PrimFloat.of_uint63 (Uint63.of_Z (Z.of_nat (nat_of_ascii c)))
  | None => nan
  end.

Definition columnLetterToIndex (letter : string) : float :=
  (charCodeAt (toUpperCase letter) 0 - 65)%float.

(** The characters [A-Z] and [a-z], and the ASCII range. *)
Definition is_letter (c : ascii) : bool :=
  let n := nat_of_ascii c in
  ((65 <=? n)%nat && (n <=? 90)%nat) || ((97 <=? n)%nat && (n <=? 122)%nat).

Definition is_ascii (c : ascii) : bool := (nat_of_ascii c <? 128)%nat.

(** ** validateRackConfig *)

(** Values with their properties.  An object carries the properties a read
    can find on it (its own and the inherited ones), first match first: a
    data property holds a value, an accessor property runs a getter, which
    returns a value or throws.  The trap of a proxy is a getter for every
    key.  A getter is given by what it does when the function reads the
    property; what else it may change is not followed. *)
Module Value.

#[warnings="-register-all"]
Inductive t : Type :=
| Undefined
| Null
| Boolean (b : bool)
| Number (n : float)
| BigInt (i : Z)
| String (s : string)
| Symbol (description : string)
| Object (callable : bool) (properties : list (string * property))
with property : Type :=
| Data (value : t)
| Accessor (getter : option t).

Definition typeof (v : t) : string :=
  match v with
  | Undefined => "undefined"
  | Null => "object"
  | Boolean _ => "boolean"
  | Number _ => "number"
  | BigInt _ => "bigint"
  | String _ => "string"
  | Symbol _ => "symbol"
  | Object callable _ => if callable then "function" else "object"
  end.

(** Truthiness: [undefined], [null], [false], [0], [-0], [NaN], [0n] and the
    empty string are falsy. *)
Definition ToBoolean (v : t) : bool :=
  match v with
  | Undefined | Null => false
  | Boolean b => b
  | Number n => negb (is_zero n || is_nan n)
  | BigInt i => negb (Z.eqb i 0)
  | String s => negb (String.eqb s EmptyString)
  | Symbol _ | Object _ _ => true
  end.

Fixpoint lookup (properties : list (string * property)) (key : string) : option property :=
  match properties with
  | [] => None
  | (k, p) :: rest => if String.eqb k key then Some p else lookup rest key
  end.

(** The read [v.key] or [v[key]]: [None] is an exception, the TypeError
    that reading from [undefined] or [null] throws or what a getter throws.
    A missing property reads as [undefined]; on a primitive the read goes to
    its prototype, taken not to define the key. *)
Definition Get (v : t) (key : string) : option t :=
  match v with
  | Undefined | Null => None
  | Object _ properties =>
      match lookup properties key with
      | Some (Data x) => Some x
      | Some (Accessor getter) => getter
      | None => Some Undefined
      end
  | _ => Some Undefined
  end.

(** [a && b]: [b] is evaluated only when [a] is truthy. *)
Definition and_then (a : option t) (b : unit -> option t) : option t :=
  match a with
  | Some v => if ToBoolean v then b tt else Some v
  | None => None
  end.

(** [typeof x === tag] for the outcome [x] of a read. *)
Definition typeof_is (x : option t) (tag : string) : option t :=
  match x with
  | Some v => Some (Boolean (String.eqb (typeof v) tag))
  | None => None
  end.

(** The properties the function reads, in the order of its checks, each
    with the type it is checked for. *)
Definition checks : list (string * string) :=
  [ ("rackId", "string"); ("width", "number"); ("depth", "number");
    ("height", "number"); ("levels", "number"); ("cells", "number") ]%string.

(** The checks one after the other, stopping at the first that fails or
    throws. *)
Fixpoint all_checks (v : t) (todo : list (string * string)) : option bool :=
  match todo with
  | [] => Some true
  | (key, tag) :: rest =>
      match Get v key with
      | Some x => if String.eqb (typeof x) tag then all_checks v rest else Some false
      | None => None
      end
  end.

End Value.

Notation "a &&& b" := (Value.and_then a (fun _ => b))
  (at level 40, left associativity).

Definition validateRackConfig (config : Value.t) : option Value.t :=
  Some config &&&
  Value.typeof_is (Value.Get config "rackId") "string" &&&
  Value.typeof_is (Value.Get config "width") "number" &&&
  Value.typeof_is (Value.Get config "depth") "number" &&&
  Value.typeof_is (Value.Get config "height") "number" &&&
  Value.typeof_is (Value.Get config "levels") "number" &&&
  Value.typeof_is (Value.Get config "cells") "number".

(** The object literal of a rack configuration with the given fields. *)
Definition config_object (c : RackConfig float) : Value.t :=
  Value.Object false
    [ ("rackId", Value.Data (Value.String (rackId c)));
      ("width", Value.Data (Value.Number (width c)));
      ("depth", Value.Data (Value.Number (depth c)));
      ("height", Value.Data (Value.Number (height c)));
      ("levels", Value.Data (Value.Number (levels c)));
      ("cells", Value.Data (Value.Number (cells c))) ]%string.

(** ** debounce *)

(** The host's timers, on a clock that counts milliseconds: [setTimeout]
    files a callback under a fresh handle, [clearTimeout] drops the timer of
    a handle if it is still pending, and the host runs a pending timer at
    some moment at or after its due time.  A host keeps the delay of a timer
    as a signed 32-bit integer: a [wait] above [2^31 - 1] is not kept (Node
    takes 1 ms for it, a browser what the conversion leaves of it), and
    here such a timer may run at any moment from the call on, which covers
    what each of them does.  The callbacks filed here are [later] closures,
    each determined by the arguments it captured; [func] is taken not to
    call back into the debounced function, and its invocations are
    recorded. *)
Module Debounce.
Section WithArgs.
Context {Args : Type}.

Record Timer : Type := { handle : N; due : N; captured : Args }.

Record State : Type := {
  clock : N;
  next_handle : N;
  pending : list Timer;
  timeout : option N;
  invoked : list Args
}.

(** The state right after [debounce(func, wait)] returned: [timeout] is
    [undefined] and nothing is pending. *)
Definition initial (now first_handle : N) : State := {|
  clock := now;
  next_handle := first_handle;
  pending := [];
  timeout := None;
  invoked := []
|}.

Definition clearTimeout (id : option N) (st : State) : State :=
  match id with
  | None => st
  | Some h => {|
      clock := clock st;
      next_handle := next_handle st;
      pending := filter (fun t => negb (N.eqb (handle t) h)) (pending st);
      timeout := timeout st;
      invoked := invoked st |}
  end.

(** The delay the host keeps for [wait]. *)
Definition max_delay : N := 2147483647.

Definition delay (wait : N) : N := if (wait <=? max_delay)%N then wait else 0%N.

Definition setTimeout (args : Args) (wait : N) (st : State) : N * State :=
  (next_handle st,
   {| clock := clock st;
      next_handle := N.succ (next_handle st);
      pending := pending st ++
                 [{| handle := next_handle st; due := (clock st + delay wait)%N;
                     captured := args |}];
      timeout := timeout st;
      invoked := invoked st |}).

Definition assign_timeout (h : N) (st : State) : State := {|
  clock := clock st;
  next_handle := next_handle st;
  pending := pending st;
  timeout := Some h;
  invoked := invoked st
|}.

(** [func(...args)]. *)
Definition call_func (args : Args) (st : State) : State := {|
  clock := clock st;
  next_handle := next_handle st;
  pending := pending st;
  timeout := timeout st;
  invoked := invoked st ++ [args]
|}.

(** The closure [later] of a call with [args]. *)
Definition later (args : Args) (st : State) : State :=
  call_func args (clearTimeout (timeout st) st).

(** [executedFunction(...args)]. *)
Definition executedFunction (wait : N) (args : Args) (st : State) : State :=
  let st := clearTimeout (timeout st) st in
  let '(h, st) := setTimeout args wait st in
  assign_timeout h st.

(** What can happen to a debounced function: it is called, time passes, or
    the host runs the pending timer of a handle. *)
Inductive event : Type :=
| Invoke (args : Args)
| Elapse (ms : N)
| Fire (h : N).

Definition find_timer (h : N) (st : State) : option Timer :=
  find (fun t => N.eqb (handle t) h) (pending st).

(** One event; [None] when the host cannot run the timer (not pending, or
    not yet due). *)
Definition step (wait : N) (st : State) (e : event) : option State :=
  match e with
  | Invoke args => Some (executedFunction wait args st)
  | Elapse ms =>
      Some {| clock := (clock st + ms)%N;
              next_handle := next_handle st;
              pending := pending st;
              timeout := timeout st;
              invoked := invoked st |}
  | Fire h =>
      match find_timer h st with
      | Some t =>
          if (due t <=? clock st)%N then
            Some (later (captured t)
                    {| clock := clock st;
                       next_handle := next_handle st;
                       pending := filter (fun t' => negb (N.eqb (handle t') h))
                                         (pending st);
                       timeout := timeout st;
                       invoked := invoked st |})
          else None
      | None => None
      end
  end.

Fixpoint run (wait : N) (st : State) (events : list event) : option State :=
  match events with
  | [] => Some st
  | e :: rest =>
      match step wait st e with
      | Some st' => run wait st' rest
      | None => None
      end
  end.

(** The arguments of the calls in a list of events, in order, and the time
    that passes in it. *)
Fixpoint invocations (events : list event) : list Args :=
  match events with
  | [] => []
  | Invoke args :: rest => args :: invocations rest
  | _ :: rest => invocations rest
  end.

Fixpoint elapsed (events : list event) : N :=
  match events with
  | [] => 0%N
  | Elapse ms :: rest => (ms + elapsed rest)%N
  | _ :: rest => elapsed rest
  end.

Definition is_elapse (e : event) : bool :=
  match e with Elapse _ => true | _ => false end.

End WithArgs.
Arguments Timer : clear implicits.
Arguments State : clear implicits.
Arguments event : clear implicits.
End Debounce.

(** ** Reading an escaped string back *)

(** The inverse of the escaping, used to show that it loses nothing: an
    entity at the front is read as its character, any other character as
    itself. *)
Fixpoint html_unescape (s : string) : string :=
  match s with
  | String "&" (String "l" (String "t" (String ";" rest))) =>
      String "<" (html_unescape rest)
  | String "&" (String "g" (String "t" (String ";" rest))) =>
      String ">" (html_unescape rest)
  | String "&" (String "q" (String "u" (String "o" (String "t" (String ";" rest))))) =>
      String double_quote (html_unescape rest)
  | String "&" (String "#" (String "3" (String "9" (String ";" rest)))) =>
      String "'" (html_unescape rest)
  | String "&" (String "a" (String "m" (String "p" (String ";" rest)))) =>
      String "&" (html_unescape rest)
  | String c rest => String c (html_unescape rest)
  | EmptyString => EmptyString
  end.

(** ** Shadows *)

(** The objects of a scene are held by reference: meshes, groups and lights
    live in one store, the scene graph and the [lights] record name them,
    and an assignment to a property of one of them is seen through every
    name it has.  A light is an object with a [shadow] (none for the light
    types that cast no shadow); [shadow.map] is the render target of its
    shadow map, or [null]. *)
Module Shadows.

Module Vector2.
Record t : Type := { x : float; y : float }.
End Vector2.

Definition Ref : Type := positive.

Record LightShadow : Type := {
  mapSize : Vector2.t;
  map : option Ref
}.

Record SceneObject : Type := {
  object3D : Object3D float;
  shadow : option LightShadow
}.

Definition Store : Type := list (Ref * SceneObject).

(** An object of the graph with its children. *)
#[warnings="-register-all"]
Inductive SceneGraph : Type :=
| Node (ref : Ref) (children : list SceneGraph).

(** The [lights] argument: [mainLight] and the optional others, each a
    reference or [undefined]. *)
Record Lights : Type := {
  mainLight : option Ref;
  spotLight : option Ref;
  fillLight : option Ref;
  rimLight : option Ref
}.

Section WithMapType.
(** The type of [THREE.BasicShadowMap] and its siblings. *)
Context {MapType : Type}.

Record ThreeLib : Type := {
  BasicShadowMap : MapType;
  PCFShadowMap : MapType;
  PCFSoftShadowMap : MapType
}.

(** [renderer.shadowMap]. *)
Record ShadowMap : Type := {
  enabled : bool;
  type : MapType;
  needsUpdate : bool
}.

(** All that the functions can change: the objects, the renderer's shadow
    map settings, and the render targets disposed so far. *)
Record World : Type := {
  objects : Store;
  shadowMap : ShadowMap;
  disposed : list Ref
}.

(** How a call ends: normally, or by the TypeError of an assignment to a
    property of [undefined], in the state reached by then. *)
Inductive Completion : Type :=
| Normal (w : World)
| Throw (w : World).

(** Assignments to [castShadow] and [receiveShadow]. *)
Definition set_castShadow (b : bool) (o : Object3D float) : Object3D float := {|
  name := name o;
  isMesh := isMesh o;
  castShadow := b;
  receiveShadow := receiveShadow o;
  rotation := rotation o;
  userData := userData o
|}.

Definition set_receiveShadow (b : bool) (o : Object3D float) : Object3D float := {|
  name := name o;
  isMesh := isMesh o;
  castShadow := castShadow o;
  receiveShadow := b;
  rotation := rotation o;
  userData := userData o
|}.

(** [obj === floorMesh]. *)
Definition same_object (ref : Ref) (other : option Ref) : bool :=
  match other with
  | Some r => Pos.eqb ref r
  | None => false
  end.

(** [applyShadowToMesh(obj, enabled, floorMesh)] for the object [obj] held
    under [ref]. *)
Definition applyShadowToMesh (ref : Ref) (obj : Object3D float) (enabled : bool)
    (floorMesh : option Ref) : Object3D float :=
  if negb (isMesh obj) then obj
  else if String.eqb (name obj) "pillarStructure" then
    set_receiveShadow false (set_castShadow enabled obj)
  else if String.eqb (name obj) "plateStructure" then
    set_receiveShadow enabled (set_castShadow false obj)
  else if String.eqb (name obj) "shelfStructure" then
    set_receiveShadow enabled (set_castShadow false obj)
  else if same_object ref floorMesh then
    set_receiveShadow enabled (set_castShadow false obj)
  else if isCell (userData obj) then
    set_receiveShadow false (set_castShadow false obj)
  else if isCellContent (userData obj) then
    set_receiveShadow false (set_castShadow enabled obj)
  else
    set_receiveShadow enabled (set_castShadow enabled obj).

(** [applyCellHoverShadow(cell)] and [resetCellHoverShadow(cell)]. *)
Definition applyCellHoverShadow (cell : Object3D float) : Object3D float :=
  set_receiveShadow false (set_castShadow false cell).

Definition resetCellHoverShadow (cell : Object3D float) : Object3D float :=
  set_receiveShadow false (set_castShadow false cell).

(** The store with the object under [ref] changed by [f]. *)
Definition modify (ref : Ref) (f : SceneObject -> SceneObject) (s : Store) : Store :=
  List.map (fun entry => if Pos.eqb (fst entry) ref
                         then (fst entry, f (snd entry)) else entry) s.

Definition on_object3D (f : Object3D float -> Object3D float) (o : SceneObject) : SceneObject :=
  {| object3D := f (object3D o); shadow := shadow o |}.

Definition with_objects (s : Store) (w : World) : World :=
  {| objects := s; shadowMap := shadowMap w; disposed := disposed w |}.

Definition with_shadowMap (m : ShadowMap) (w : World) : World :=
  {| objects := objects w; shadowMap := m; disposed := disposed w |}.

Definition set_enabled (b : bool) (w : World) : World :=
  with_shadowMap {| enabled := b; type := type (shadowMap w);
                    needsUpdate := needsUpdate (shadowMap w) |} w.

Definition set_type (t : MapType) (w : World) : World :=
  with_shadowMap {| enabled := enabled (shadowMap w); type := t;
                    needsUpdate := needsUpdate (shadowMap w) |} w.

Definition set_needsUpdate (b : bool) (w : World) : World :=
  with_shadowMap {| enabled := enabled (shadowMap w); type := type (shadowMap w);
                    needsUpdate := b |} w.

(** [light.castShadow = b]. *)
Definition light_castShadow (light : Ref) (b : bool) (w : World) : World :=
  with_objects (modify light (on_object3D (set_castShadow b)) (objects w)) w.

(** [if (light) light.castShadow = b]. *)
Definition light_castShadow_if (light : option Ref) (b : bool) (w : World) : World :=
  match light with
  | Some l => light_castShadow l b w
  | None => w
  end.

(** The objects [scene.traverse] visits: the object itself, then the
    objects of each child in turn. *)
Fixpoint visited (scene : SceneGraph) : list Ref :=
  match scene with
  | Node ref children => ref :: flat_map visited children
  end.

(** [scene.traverse((obj) => applyShadowToMesh(obj, enabled, floorMesh))]. *)
Definition traverse_applyShadow (scene : SceneGraph) (enabled : bool)
    (floorMesh : option Ref) (w : World) : World :=
  with_objects
    (fold_left
       (fun s ref =>
          modify ref (on_object3D (fun obj => applyShadowToMesh ref obj enabled floorMesh)) s)
       (visited scene) (objects w))
    w.

Definition applyShadowSettings (enabled : bool) (scene : SceneGraph) (lights : Lights)
    (floorMesh : option Ref) (w : World) : Completion :=
  let w := set_enabled enabled w in
  match mainLight lights with
  | None => Throw w
  | Some main =>
      let w := light_castShadow main enabled w in
      let w := light_castShadow_if (spotLight lights) enabled w in
      let w := light_castShadow_if (fillLight lights) enabled w in
      let w := light_castShadow_if (rimLight lights) enabled w in
      Normal (traverse_applyShadow scene enabled floorMesh w)
  end.

(** The object literal [{ mapType, mapSize }]. *)
Record QualitySettings : Type := { mapType : MapType; quality_mapSize : float }.

Definition getShadowQualitySettings (quality : string) (THREE : ThreeLib) : QualitySettings :=
  if String.eqb quality "low" then
    {| mapType := BasicShadowMap THREE; quality_mapSize := 1024 |}
  else if String.eqb quality "medium" then
    {| mapType := PCFShadowMap THREE; quality_mapSize := 2048 |}
  else if String.eqb quality "high" then
    {| mapType := PCFSoftShadowMap THREE; quality_mapSize := 4096 |}
  else
    {| mapType := PCFShadowMap THREE; quality_mapSize := 2048 |}.

Definition lookup (ref : Ref) (s : Store) : option SceneObject :=
  match find (fun entry => Pos.eqb (fst entry) ref) s with
  | Some entry => Some (snd entry)
  | None => None
  end.

(** [light.shadow.mapSize.set(size, size); light.shadow.map = null]. *)
Definition resize_shadow (size : float) (o : SceneObject) : SceneObject :=
  match shadow o with
  | Some sh =>
      {| object3D := object3D o;
         shadow := Some {| mapSize := {| Vector2.x := size; Vector2.y := size |};
                           map := None |} |}
  | None => o
  end.

Definition updateLightShadowMapSize (light : option Ref) (size : float) (w : World) : World :=
  match light with
  | None => w
  | Some l =>
      match lookup l (objects w) with
      | Some o =>
          match shadow o with
          | Some sh =>
              {| objects := modify l (resize_shadow size) (objects w);
                 shadowMap := shadowMap w;
                 disposed := match map sh with
                             | Some target => disposed w ++ [target]
                             | None => disposed w
                             end |}
          | None => w
          end
      | None => w
      end
  end.

(** The part of [updateShadowQuality] that runs at once.  [shadowToggle] is
    what [document.getElementById('shadow-toggle')] finds: nothing, or the
    element with its [checked] state.  The second component tells whether
    the callback was handed to [setTimeout]. *)
Definition updateShadowQuality (quality : string) (lights : Lights) (THREE : ThreeLib)
    (shadowToggle : option bool) (w : World) : World * bool :=
  let settings := getShadowQualitySettings quality THREE in
  let w := set_type (mapType settings) w in
  let w := updateLightShadowMapSize (mainLight lights) (quality_mapSize settings) w in
  let w := updateLightShadowMapSize (spotLight lights) (quality_mapSize settings) w in
  let w := updateLightShadowMapSize (fillLight lights) (quality_mapSize settings) w in
  let w := updateLightShadowMapSize (rimLight lights) (quality_mapSize settings) w in
  match shadowToggle with
  | Some true => (set_enabled false w, true)
  | _ => (set_needsUpdate true w, false)
  end.

(** The callback that [updateShadowQuality] hands to [setTimeout]. *)
Definition updateShadowQuality_later (scene : SceneGraph) (lights : Lights)
    (floorMesh : option Ref) (w : World) : Completion :=
  let w := set_enabled true w in
  let w := set_needsUpdate true w in
  let w := traverse_applyShadow scene true floorMesh w in
  match mainLight lights with
  | None => Throw w
  | Some main =>
      let w := light_castShadow main true w in
      let w := light_castShadow_if (spotLight lights) true w in
      let w := light_castShadow_if (fillLight lights) true w in
      Normal (light_castShadow_if (rimLight lights) true w)
  end.

Definition initRendererShadows (THREE : ThreeLib) (w : World) : World :=
  set_type (PCFShadowMap THREE) (set_enabled false w).

End WithMapType.
Arguments ThreeLib : clear implicits.
Arguments ShadowMap : clear implicits.
Arguments World : clear implicits.
Arguments Completion : clear implicits.
Arguments QualitySettings : clear implicits.
End Shadows.

(** A small scene to run the shadow functions on: a root group (1) with
    the floor (2), a rack group (3) holding a pillar (4) and a cell (5), and
    a directional light (6) whose shadow map has been rendered once. *)
Module Demo.
Import Shadows.
Local Open Scope positive_scope.

Definition part (n : string) (mesh cell : bool) : SceneObject := {|
  object3D := {| name := n; isMesh := mesh; castShadow := true; receiveShadow := true;
                 rotation := rotation pallet_rack;
                 userData := {| config := config (userData pallet_rack);
                                isCell := cell; isCellContent := false |} |};
  shadow := None
|}.

Definition sun : SceneObject := {|
  object3D := object3D (part "sun" false false);
  shadow := Some {| mapSize := {| Vector2.x := 2048%float; Vector2.y := 2048%float |};
                    map := Some 40 |}
|}.

Definition store : Store :=
  [ (1, part "scene" false false); (2, part "floor" true false);
    (3, part "rack-A01" false false); (4, part "pillarStructure" true false);
    (5, part "cell" true true); (6, sun) ].

Definition scene : SceneGraph :=
  Node 1 [Node 2 []; Node 3 [Node 4 []; Node 5 []]; Node 6 []].

Definition floor : option Ref := Some 2.

Definition lights : Lights :=
  {| mainLight := Some 6; spotLight := None; fillLight := None; rimLight := Some 6 |}.

Definition THREE : ThreeLib string :=
  {| BasicShadowMap := "BasicShadowMap"%string; PCFShadowMap := "PCFShadowMap"%string;
     PCFSoftShadowMap := "PCFSoftShadowMap"%string |}.

Definition world : World string := {|
  objects := store;
  shadowMap := {| enabled := true; type := "PCFShadowMap"%string; needsUpdate := false |};
  disposed := []
|}.

End Demo.

(** ** Notions the properties are stated and proved with *)

(** The number of an index, as [charCodeAt] would produce it. *)
Definition index_number (i : nat) : float :=
  PrimFloat.of_uint63 (Uint63.of_Z (Z.of_nat i)).

(** Whether one of the five characters occurs. *)
Fixpoint has_special (s : string) : bool :=
  match s with
  | EmptyString => false
  | String c rest => in_class pattern_class c || has_special rest
  end.

(** [Subseq l m]: [l] is [m] with some elements left out. *)
Inductive Subseq {A : Type} : list A -> list A -> Prop :=
| Subseq_nil : Subseq [] []
| Subseq_skip x l m : Subseq l m -> Subseq l (x :: m)
| Subseq_take x l m : Subseq l m -> Subseq (x :: l) (x :: m).

Section DebounceNotions.
Import Debounce.
Context {Args : Type}.
Implicit Types (st : State Args).
Local Open Scope N_scope.

(** What every state of a debounced function satisfies: the handle in
    [timeout] has been issued, and the only timer that can be pending is
    the one of that handle. *)
Definition settled st : Prop :=
  (forall h, timeout st = Some h -> h < next_handle st) /\
  match pending st with
  | [] => True
  | [t] => timeout st = Some (handle t)
  | _ => False
  end.

(** The arguments delivered so far, followed by the one still waiting. *)
Definition accepted st : list Args := invoked st ++ map captured (pending st).

End DebounceNotions.

Section ShadowNotions.
Import Shadows.
Context {MapType : Type}.
Implicit Types (s : Store) (w : World MapType) (rs : list Ref).

(** Two objects that differ at most in their shadow flags. *)
Definition same_but_shadows (o o' : Object3D float) : Prop :=
  name o = name o' /\ isMesh o = isMesh o' /\
  rotation o = rotation o' /\ userData o = userData o'.

(** Whether a reference is among those listed. *)
Definition listed (r : Ref) (rs : list Ref) : bool := existsb (Pos.eqb r) rs.

(** Changing the objects of the listed references, each by [f] of its
    reference. *)
Definition modify_all (f : Ref -> SceneObject -> SceneObject) rs s : Store :=
  List.map (fun entry => if listed (fst entry) rs
                         then (fst entry, f (fst entry) (snd entry)) else entry) s.

(** The lights a [lights] record names. *)
Definition optional (l : option Ref) : list Ref :=
  match l with Some r => [r] | None => [] end.

Definition named_lights (lights : Lights) : list Ref :=
  optional (mainLight lights) ++ optional (spotLight lights) ++
  optional (fillLight lights) ++ optional (rimLight lights).

Definition cast (b : bool) (_ : Ref) : SceneObject -> SceneObject :=
  on_object3D (set_castShadow b).

Definition settle (e : bool) (floorMesh : option Ref) (r : Ref) : SceneObject -> SceneObject :=
  on_object3D (fun obj => applyShadowToMesh r obj e floorMesh).

(** The objects after [applyShadowSettings], when it completes. *)
Definition settled_objects (e : bool) (scene : SceneGraph) (lights : Lights)
    (floorMesh : option Ref) s : Store :=
  modify_all (settle e floorMesh) (visited scene)
    (modify_all (cast e) (named_lights lights) s).

(** The footprint of every object, by reference. *)
Definition extents (N : Number float) s : list (Ref * HalfExtents float) :=
  List.map (fun entry => (fst entry, getWorldHalfExtents N (object3D (snd entry)))) s.

(** The state a call ends in, however it ends. *)
Definition reached (c : Completion MapType) : World MapType :=
  match c with Normal w | Throw w => w end.

(** A light after [updateLightShadowMapSize] with [size]. *)
Definition resized (size : float) (o : SceneObject) : Prop :=
  forall sh, shadow o = Some sh ->
    mapSize sh = {| Vector2.x := size; Vector2.y := size |} /\ map sh = None.

(** The four size updates of [updateShadowQuality]. *)
Definition resize_lights (lights : Lights) (size : float) w : World MapType :=
  updateLightShadowMapSize (rimLight lights) size
    (updateLightShadowMapSize (fillLight lights) size
       (updateLightShadowMapSize (spotLight lights) size
          (updateLightShadowMapSize (mainLight lights) size w))).

End ShadowNotions.

(** ** Binary64 on its specification *)

(** Classes of [spec_float], the image of a number under [Prim2SF]. *)
Module SF.
Definition is_nan (x : spec_float) : bool :=
  match x with S754_nan => true | _ => false end.
Definition is_zero (x : spec_float) : bool :=
  match x with S754_zero _ => true | _ => false end.
Definition is_infinity (x : spec_float) : bool :=
  match x with S754_infinity _ => true | _ => false end.
Definition is_finite (x : spec_float) : bool :=
  match x with S754_zero _ | S754_finite _ _ _ => true | _ => false end.
(** Sign bit clear, or NaN: the values [Math.abs] returns. *)
Definition unsigned (x : spec_float) : Prop := SFabs x = x.
End SF.

(** [SFsame] is [same_value_zero] on the specification side. *)
Definition SFsame (x y : spec_float) : bool :=
  SFeqb x y || (SF.is_nan x && SF.is_nan y).

(** ** The real number a binary64 value stands for *)

(** A finite number is its signed mantissa times a power of two; what is
    said through [value] is said of finite numbers only. *)
Definition bpow (e : Z) : R := powerRZ 2 e.

Definition F2R (m e : Z) : R := (IZR m * bpow e)%R.

Definition SF2R (x : spec_float) : R :=
  match x with
  | S754_finite s m e => F2R (cond_Zopp s (Zpos m)) e
  | _ => 0%R
  end.

Definition value (x : float) : R := SF2R (Prim2SF x).

(** The number [x], in units of [scale], lies where the record says: on
    [shr_m], between it and the midpoint, on the midpoint, or above it. *)
Definition located (x scale : R) (mrs : shr_record) : Prop :=
  let m := IZR (shr_m mrs) in
  match shr_r mrs, shr_s mrs with
  | false, false => x = m * scale
  | false, true => m * scale < x < (m + / 2) * scale
  | true, false => x = (m + / 2) * scale
  | true, true => (m + / 2) * scale < x < (m + 1) * scale
  end%R.

Definition sign (s : bool) : R := if s then (-1)%R else 1%R.

(** * Proofs *)

(** The constants of the function body on the specification side. *)
Lemma Prim2SF_zero : Prim2SF zero = S754_zero false.
Proof. reflexivity. Qed.

Lemma Prim2SF_infinity : Prim2SF infinity = S754_infinity false.
Proof. reflexivity. Qed.

Lemma Prim2SF_nan : Prim2SF nan = S754_nan.
Proof. reflexivity. Qed.

Lemma Prim2SF_one : Prim2SF one = S754_finite false 4503599627370496 (-52).
Proof. reflexivity. Qed.

Lemma Prim2SF_two : Prim2SF two = S754_finite false 4503599627370496 (-51).
Proof. reflexivity. Qed.

Lemma SFeqb_refl x : SFeqb x x = negb (SF.is_nan x).
Proof.
  destruct x as [s|s| |s m e]; try (destruct s; reflexivity); try reflexivity.
  unfold SFeqb, SFcompare. rewrite Z.compare_refl, Pos.compare_cont_refl.
  destruct s; reflexivity.
Qed.

Lemma is_nan_spec x : is_nan x = SF.is_nan (Prim2SF x).
Proof. unfold is_nan. rewrite eqb_spec, SFeqb_refl. apply negb_involutive. Qed.

Lemma is_zero_spec x : is_zero x = SF.is_zero (Prim2SF x).
Proof.
  unfold is_zero. rewrite eqb_spec, Prim2SF_zero.
  destruct (Prim2SF x) as [s|s| |s m e]; try (destruct s; reflexivity); reflexivity.
Qed.

Lemma is_infinity_spec x : is_infinity x = SF.is_infinity (Prim2SF x).
Proof.
  unfold is_infinity. rewrite eqb_spec, abs_spec, Prim2SF_infinity.
  destruct (Prim2SF x) as [s|s| |s m e]; reflexivity.
Qed.

Lemma is_finite_spec x : is_finite x = SF.is_finite (Prim2SF x).
Proof.
  unfold is_finite. rewrite is_nan_spec, is_infinity_spec.
  destruct (Prim2SF x); reflexivity.
Qed.

(** *** Sign and class through the operations *)

Lemma binary_round_aux_abs s m e l :
  SFabs (binary_round_aux prec emax s m e l) = binary_round_aux prec emax false m e l.
Proof.
  unfold binary_round_aux.
  destruct (shr_fexp prec emax m e l) as [r1 e1].
  destruct (shr_fexp prec emax _ e1 loc_Exact) as [r2 e2].
  destruct (shr_m r2); try reflexivity.
  destruct (e2 <=? emax - prec)%Z; reflexivity.
Qed.

Lemma binary_round_aux_opp s m e l :
  SFopp (binary_round_aux prec emax s m e l) = binary_round_aux prec emax (negb s) m e l.
Proof.
  unfold binary_round_aux.
  destruct (shr_fexp prec emax m e l) as [r1 e1].
  destruct (shr_fexp prec emax _ e1 loc_Exact) as [r2 e2].
  destruct (shr_m r2); try reflexivity.
  destruct (e2 <=? emax - prec)%Z; reflexivity.
Qed.

Lemma SFabs_mul x y : SFabs (SF64mul x y) = SF64mul (SFabs x) (SFabs y).
Proof.
  destruct x as [sx|sx| |sx mx ex], y as [sy|sy| |sy my ey]; try reflexivity.
  apply binary_round_aux_abs.
Qed.


Lemma SFmul_opp_r x y : SF64mul x (SFopp y) = SFopp (SF64mul x y).
Proof.
  destruct x as [sx|sx| |sx mx ex], y as [sy|sy| |sy my ey];
    try reflexivity; try (destruct sx, sy; reflexivity).
  unfold SF64mul, SFmul. rewrite binary_round_aux_opp. cbn [SFopp].
  now destruct sx, sy.
Qed.

Lemma SFdiv_opp_l x y : SF64div (SFopp x) y = SFopp (SF64div x y).
Proof.
  destruct x as [sx|sx| |sx mx ex], y as [sy|sy| |sy my ey];
    try reflexivity; try (destruct sx, sy; reflexivity).
  unfold SF64div, SFdiv. cbn [SFopp].
  destruct (SFdiv_core_binary prec emax (Zpos mx) ex (Zpos my) ey) as [[mz ez] lz].
  rewrite binary_round_aux_opp. now destruct sx, sy.
Qed.

Lemma SFabs_opp x : SFabs (SFopp x) = SFabs x.
Proof. now destruct x. Qed.

Lemma SFabs_abs x : SFabs (SFabs x) = SFabs x.
Proof. now destruct x. Qed.

Lemma binary_round_aux_unsigned m e l :
  SF.unsigned (binary_round_aux prec emax false m e l).
Proof. unfold SF.unsigned. now rewrite binary_round_aux_abs. Qed.

Lemma SFadd_unsigned x y :
  SF.unsigned x -> SF.unsigned y -> SF.unsigned (SF64add x y).
Proof.
  unfold SF.unsigned.
  destruct x as [sx|sx| |sx mx ex], y as [sy|sy| |sy my ey]; simpl;
    intros Hx Hy; try discriminate; try reflexivity;
    injection Hx as <-; injection Hy as <-; try reflexivity.
  unfold SF64add, SFadd. cbn [cond_Zopp Z.add binary_normalize].
  unfold binary_round.
  destruct (shl_align _ _ _) as [mz ez].
  apply binary_round_aux_unsigned.
Qed.

Lemma unsigned_not_lt_zero x : SF.unsigned x -> SFltb x (S754_zero false) = false.
Proof.
  unfold SF.unsigned.
  destruct x as [sx|sx| |sx mx ex]; simpl; intros Hx; try reflexivity;
    injection Hx as <-; reflexivity.
Qed.

Lemma unsigned_nan_or_nonneg x :
  SF.unsigned x -> SF.is_nan x = true \/ SFleb (S754_zero false) x = true.
Proof.
  unfold SF.unsigned.
  destruct x as [sx|sx| |sx mx ex]; simpl; intros Hx; auto;
    injection Hx as <-; auto.
Qed.

(** Non-finite operands give non-finite results. *)
Lemma SFmul_not_finite_l x y : SF.is_finite x = false -> SF.is_finite (SF64mul x y) = false.
Proof. destruct x as [sx|sx| |sx mx ex], y as [sy|sy| |sy my ey]; simpl; congruence. Qed.

Lemma SFmul_not_finite_r x y : SF.is_finite y = false -> SF.is_finite (SF64mul x y) = false.
Proof. destruct x as [sx|sx| |sx mx ex], y as [sy|sy| |sy my ey]; simpl; congruence. Qed.

Lemma SFadd_not_finite_l x y : SF.is_finite x = false -> SF.is_finite (SF64add x y) = false.
Proof.
  destruct x as [sx|sx| |sx mx ex], y as [sy|sy| |sy my ey]; simpl; try congruence;
  destruct sx, sy; reflexivity.
Qed.

Lemma SFadd_not_finite_r x y : SF.is_finite y = false -> SF.is_finite (SF64add x y) = false.
Proof.
  destruct x as [sx|sx| |sx mx ex], y as [sy|sy| |sy my ey]; simpl; try congruence;
  destruct sx, sy; reflexivity.
Qed.

Lemma SFdiv_not_finite_l x sy my ey :
  SF.is_finite x = false -> SF.is_finite (SF64div x (S754_finite sy my ey)) = false.
Proof. destruct x as [sx|sx| |sx mx ex]; simpl; congruence. Qed.

Lemma SFabs_is_finite x : SF.is_finite (SFabs x) = SF.is_finite x.
Proof. now destruct x. Qed.

Lemma SFabs_is_nan x : SF.is_nan (SFabs x) = SF.is_nan x.
Proof. now destruct x. Qed.

Lemma SFmul_nan_l x y : SF.is_nan x = true -> SF.is_nan (SF64mul x y) = true.
Proof. destruct x; simpl; congruence. Qed.

Lemma SFmul_nan_r x y : SF.is_nan y = true -> SF.is_nan (SF64mul x y) = true.
Proof. destruct x, y; simpl; congruence. Qed.

Lemma SFadd_nan_l x y : SF.is_nan x = true -> SF.is_nan (SF64add x y) = true.
Proof. destruct x; simpl; congruence. Qed.

Lemma SFadd_nan_r x y : SF.is_nan y = true -> SF.is_nan (SF64add x y) = true.
Proof. destruct x, y; simpl; congruence. Qed.

Lemma SFdiv_nan_l x y : SF.is_nan x = true -> SF.is_nan (SF64div x y) = true.
Proof. destruct x; simpl; congruence. Qed.

(** *** Rounding *)

Local Open Scope Z_scope.

Lemma fexp_canonical m e :
  canonical_mantissa prec emax m e = true ->
  fexp prec emax (Zpos (digits2_pos m) + e) = e.
Proof. unfold canonical_mantissa. intros H. now apply Z.eqb_eq. Qed.

Lemma digits2_pos_size p : digits2_pos p = Pos.size p.
Proof. induction p; simpl; congruence. Qed.

Lemma Zdigits2_nonneg m : 0 <= Zdigits2 m.
Proof. destruct m; simpl; lia. Qed.

Lemma Zdigits2_lt_pow2 m : 0 <= m -> m < 2 ^ Zdigits2 m.
Proof.
  destruct m as [|p|p]; intros Hm; simpl Zdigits2; try lia.
  rewrite digits2_pos_size.
  pose proof (Pos.size_gt p) as H. 
  apply Pos2Z.pos_lt_pos in H. now rewrite Pos2Z.inj_pow in H.
Qed.

Lemma Zdigits2_ge_pow2 m : 0 < m -> 2 ^ (Zdigits2 m - 1) <= m.
Proof.
  destruct m as [|p|p]; intros Hm; simpl Zdigits2; try lia.
  rewrite digits2_pos_size.
  pose proof (Pos.size_le p) as H.
  apply Pos2Z.pos_le_pos in H. rewrite Pos2Z.inj_pow in H.
  replace (Zpos (Pos.size p)) with (Z.succ (Zpos (Pos.size p) - 1)) in H by lia.
  rewrite Z.pow_succ_r in H by lia. lia.
Qed.

Lemma Zdigits2_le m k : 0 <= k -> 0 <= m < 2 ^ k -> Zdigits2 m <= k.
Proof.
  intros Hk [Hm Hlt].
  destruct (Z.eq_dec m 0) as [->|Hnz]; [simpl; lia|].
  destruct (Z_le_gt_dec (Zdigits2 m) k) as [|Hgt]; [assumption|exfalso].
  pose proof (Zdigits2_ge_pow2 m ltac:(lia)) as H.
  assert (2 ^ k <= 2 ^ (Zdigits2 m - 1)) by (apply Z.pow_le_mono_r; lia).
  lia.
Qed.

Lemma Zdigits2_ge m k : 0 <= k -> 2 ^ k <= m -> k + 1 <= Zdigits2 m.
Proof.
  intros Hk Hle.
  assert (0 < m) by (pose proof (Z.pow_pos_nonneg 2 k); lia).
  pose proof (Zdigits2_lt_pow2 m ltac:(lia)) as H1.
  pose proof (Zdigits2_nonneg m).
  assert (k < Zdigits2 m); [|lia].
  apply (Z.pow_lt_mono_r_iff 2); lia.
Qed.

Lemma Zdigits2_succ m : 0 <= m -> Zdigits2 (m + 1) <= Zdigits2 m + 1.
Proof.
  intros Hm. pose proof (Zdigits2_nonneg m).
  apply Zdigits2_le; [lia|].
  pose proof (Zdigits2_lt_pow2 m Hm).
  rewrite Z.pow_add_r by lia. lia.
Qed.

(** Right shifts. *)
Lemma iter_pos_nat {A} (f : A -> A) p x :
  SpecFloat.iter_pos f p x = Nat.iter (Pos.to_nat p) f x.
Proof.
  revert x. induction p as [p IH|p IH|]; intros x; simpl SpecFloat.iter_pos.
  - rewrite !IH, Pos2Nat.inj_xI, Nat.iter_succ_r, <- Nat.iter_add.
    f_equal. lia.
  - rewrite !IH, Pos2Nat.inj_xO, <- Nat.iter_add. f_equal. lia.
  - reflexivity.
Qed.

Lemma shr_1_digits r :
  0 <= shr_m r ->
  0 <= shr_m (shr_1 r) /\ Zdigits2 (shr_m (shr_1 r)) = Z.max 0 (Zdigits2 (shr_m r) - 1).
Proof.
  destruct r as [m r s]. simpl shr_m. intros Hm.
  destruct m as [|[p|p|]|p]; cbn [shr_1 shr_m Zdigits2 digits2_pos]; lia.
Qed.

Lemma iter_shr_1_digits n r :
  0 <= shr_m r ->
  0 <= shr_m (Nat.iter n shr_1 r) /\
  Zdigits2 (shr_m (Nat.iter n shr_1 r)) = Z.max 0 (Zdigits2 (shr_m r) - Z.of_nat n).
Proof.
  intros Hm. induction n as [|n [IH1 IH2]].
  - simpl Nat.iter. pose proof (Zdigits2_nonneg (shr_m r)). lia.
  - simpl Nat.iter. destruct (shr_1_digits _ IH1) as [H1 H2].
    split; [assumption|]. rewrite H2, IH2. lia.
Qed.

Lemma shr_m_of_loc m l : shr_m (shr_record_of_loc m l) = m.
Proof. destruct l as [|[]]; reflexivity. Qed.

(** What [shr_fexp] does to a non-negative mantissa: the exponent becomes the
    larger of [e] and the format's exponent, and the mantissa loses the bits
    shifted out. *)
Lemma shr_fexp_digits m e l :
  0 <= m ->
  let '(r, e') := shr_fexp prec emax m e l in
  0 <= shr_m r /\
  e' = Z.max e (fexp prec emax (Zdigits2 m + e)) /\
  Zdigits2 (shr_m r) = Z.max 0 (Zdigits2 m - (e' - e)).
Proof.
  intros Hm. unfold shr_fexp, shr.
  pose proof (Zdigits2_nonneg m).
  destruct (fexp prec emax (Zdigits2 m + e) - e) as [|n|n] eqn:Hn.
  - rewrite shr_m_of_loc. lia.
  - rewrite iter_pos_nat.
    destruct (iter_shr_1_digits (Pos.to_nat n) (shr_record_of_loc m l)) as [H1 H2].
    { now rewrite shr_m_of_loc. }
    rewrite shr_m_of_loc in H2. rewrite H2. lia.
  - rewrite shr_m_of_loc. lia.
Qed.

Lemma round_nearest_even_bounds m l :
  0 <= m -> m <= round_nearest_even m l <= m + 1.
Proof.
  intros Hm. destruct l as [|[]]; simpl; try lia.
  destruct (Z.even m); lia.
Qed.

Lemma Zdigits2_mono a b : 0 <= a <= b -> Zdigits2 a <= Zdigits2 b.
Proof.
  intros [Ha Hab]. pose proof (Zdigits2_nonneg b).
  apply Zdigits2_le; [lia|].
  pose proof (Zdigits2_lt_pow2 b ltac:(lia)). lia.
Qed.

(** Rounding a non-negative mantissa never produces NaN. *)
Lemma binary_round_aux_not_nan s m e l :
  0 <= m -> SF.is_nan (binary_round_aux prec emax s m e l) = false.
Proof.
  intros Hm. unfold binary_round_aux.
  pose proof (shr_fexp_digits m e l Hm) as H1.
  destruct (shr_fexp prec emax m e l) as [r1 e1]. destruct H1 as (H1 & _).
  pose proof (round_nearest_even_bounds (shr_m r1) (loc_of_shr_record r1) H1) as Hr.
  pose proof (shr_fexp_digits (round_nearest_even (shr_m r1) (loc_of_shr_record r1))
                e1 loc_Exact ltac:(lia)) as H2.
  destruct (shr_fexp prec emax _ e1 loc_Exact) as [r2 e2]. destruct H2 as (H2 & _).
  destruct (shr_m r2); [reflexivity| |lia].
  destruct (_ <=? _); reflexivity.
Qed.

(** Rounding stays finite when the value is below 2^1023 and the mantissa
    carries at least the format's precision. *)
Lemma binary_round_aux_finite s m e l :
  0 <= m ->
  e <= fexp prec emax (Zdigits2 m + e) ->
  Zdigits2 m + e <= emax - 1 ->
  SF.is_finite (binary_round_aux prec emax s m e l) = true.
Proof.
  intros Hm He Hd. unfold binary_round_aux.
  pose proof (shr_fexp_digits m e l Hm) as H1.
  destruct (shr_fexp prec emax m e l) as [r1 e1]. destruct H1 as (H1 & He1 & Hd1).
  pose proof (round_nearest_even_bounds (shr_m r1) (loc_of_shr_record r1) H1) as Hr.
  set (m1 := round_nearest_even (shr_m r1) (loc_of_shr_record r1)) in *.
  pose proof (shr_fexp_digits m1 e1 loc_Exact ltac:(lia)) as H2.
  destruct (shr_fexp prec emax m1 e1 loc_Exact) as [r2 e2].
  destruct H2 as (H2 & He2 & _).
  assert (Zdigits2 m1 <= Zdigits2 (shr_m r1) + 1) as Hm1.
  { etransitivity; [apply (Zdigits2_mono m1 (shr_m r1 + 1)); lia|].
    now apply Zdigits2_succ. }
  destruct (shr_m r2); [reflexivity| |lia].
  replace (e2 <=? emax - prec) with true; [reflexivity|].
  symmetry. apply Z.leb_le.
  unfold fexp, SpecFloat.emin, prec, emax in *. lia.
Qed.

(** Halving a finite number gives a finite number. *)
Lemma SFdiv_two_finite x :
  valid_binary x = true -> SF.is_finite x = true ->
  SF.is_finite (SF64div x (Prim2SF two)) = true.
Proof.
  rewrite Prim2SF_two.
  destruct x as [sx|sx| |sx mx ex]; try discriminate; [reflexivity|].
  simpl valid_binary. unfold SpecFloat.bounded. intros Hb _.
  apply andb_true_iff in Hb as [Hc He].
  apply fexp_canonical in Hc. apply Z.leb_le in He.
  set (d1 := Zpos (digits2_pos mx)) in *.
  assert (1 <= d1) as Hd1 by (unfold d1; lia).
  pose proof (Zdigits2_lt_pow2 (Zpos mx) ltac:(lia)) as Hub.
  pose proof (Zdigits2_ge_pow2 (Zpos mx) ltac:(lia)) as Hlb.
  change (Zdigits2 (Zpos mx)) with d1 in Hub, Hlb.
  unfold SF64div, SFdiv, SFdiv_core_binary.
  change (Zdigits2 (Zpos 4503599627370496)) with 53.
  change (Zdigits2 (Zpos mx)) with d1.
  change (Zpos 4503599627370496) with (2 ^ 52).
  set (e' := Z.min (fexp prec emax (d1 + ex - (53 + -51))) (ex - -51)).
  assert (e' <= ex /\ e' <= fexp prec emax (d1 + ex - 2)) as [He'1 He'2].
  { unfold e', fexp, SpecFloat.emin, prec, emax in *. lia. }
  destruct (ex - -51 - e') as [|n|n] eqn:Hs; try lia.
  rewrite Z.shiftl_mul_pow2 by lia.
  destruct (Z.div_eucl (Zpos mx * 2 ^ Zpos n) (2 ^ 52)) as [q r] eqn:Hdiv.
  assert (q = Zpos mx * 2 ^ Zpos n / 2 ^ 52) as Hq.
  { unfold Z.div. now rewrite Hdiv. }
  clear Hdiv.
  assert (0 <= q < 2 ^ (d1 + Zpos n - 52)) as [Hq0 Hq1].
  { subst q. split; [apply Z.div_pos; lia|].
    apply Z.div_lt_upper_bound; [lia|].
    rewrite <- Z.pow_add_r by lia.
    replace (52 + (d1 + Zpos n - 52)) with (d1 + Zpos n) by lia.
    rewrite Z.pow_add_r by lia.
    apply Z.mul_lt_mono_pos_r; lia. }
  assert (d1 + Zpos n - 53 <= Zdigits2 q) as Hq2.
  { destruct (Z_lt_le_dec (d1 + Zpos n - 53) 0) as [Hneg|Hpos].
    - pose proof (Zdigits2_nonneg q). lia.
    - enough (d1 + Zpos n - 53 + 1 <= Zdigits2 q) by lia.
      apply Zdigits2_ge; [assumption|].
      subst q. apply Z.div_le_lower_bound; [lia|].
      rewrite <- Z.pow_add_r by lia.
      replace (52 + (d1 + Zpos n - 53)) with (d1 - 1 + Zpos n) by lia.
      rewrite Z.pow_add_r by lia.
      apply Z.mul_le_mono_nonneg_r; lia. }
  pose proof (Zdigits2_le q (d1 + Zpos n - 52) ltac:(lia) ltac:(lia)) as Hq3.
  apply binary_round_aux_finite; [assumption| |].
  - unfold fexp, SpecFloat.emin, prec, emax in *. lia.
  - unfold fexp, SpecFloat.emin, prec, emax in *. lia.
Qed.

(** Multiplying by 1 is exact. *)
Lemma SFmul_one_l s m e :
  SpecFloat.bounded prec emax m e = true ->
  SF64mul (Prim2SF one) (S754_finite s m e) = S754_finite s m e.
Proof.
  intros Hb. unfold SpecFloat.bounded in Hb. apply andb_true_iff in Hb as [Hc He].
  apply fexp_canonical in Hc.
  rewrite Prim2SF_one. unfold SF64mul, SFmul.
  cbn [xorb Pos.mul].
  unfold binary_round_aux, shr_fexp.
  cbn [Zdigits2 digits2_pos].
  match goal with |- context [Zpos ?d + (-52 + e)] =>
    replace (Zpos d + (-52 + e)) with (Zpos (digits2_pos m) + e) by lia end.
  rewrite Hc.
  replace (e - (-52 + e)) with 52 by lia.
  cbn [shr shr_record_of_loc SpecFloat.iter_pos shr_1 orb shr_m loc_of_shr_record round_nearest_even].
  replace (-52 + e + 52) with e by lia.
  cbn [Zdigits2]. rewrite Hc, Z.sub_diag. cbn [shr shr_m].
  rewrite He. reflexivity.
Qed.

Lemma SFmul_one_l_valid x :
  valid_binary x = true -> SF64mul (Prim2SF one) x = x.
Proof.
  destruct x as [s|s| |s m e]; try reflexivity.
  apply SFmul_one_l.
Qed.

Local Close Scope Z_scope.

(** *** Sums of absolute values *)

Lemma SFmul_finite_not_nan x y :
  SF.is_finite x = true -> SF.is_finite y = true -> SF.is_nan (SF64mul x y) = false.
Proof.
  destruct x as [sx|sx| |sx mx ex], y as [sy|sy| |sy my ey];
    try discriminate; try reflexivity.
  intros _ _. apply binary_round_aux_not_nan. lia.
Qed.

Lemma SFadd_unsigned_not_nan x y :
  SF.unsigned x -> SF.unsigned y ->
  SF.is_nan x = false -> SF.is_nan y = false -> SF.is_nan (SF64add x y) = false.
Proof.
  unfold SF.unsigned.
  destruct x as [sx|sx| |sx mx ex], y as [sy|sy| |sy my ey]; simpl;
    intros Hx Hy Nx Ny; try discriminate; try reflexivity;
    injection Hx as <-; injection Hy as <-; try reflexivity.
  unfold SF64add, SFadd. cbn [cond_Zopp Z.add binary_normalize].
  unfold binary_round.
  destruct (shl_align _ _ _) as [mz ez].
  apply binary_round_aux_not_nan. lia.
Qed.

(** Half of a number that is [>= 0]: sign bit clear, or the negative zero
    that [-0 / 2] is. *)
Lemma SFdiv_two_nonneg x :
  SFleb (S754_zero false) x = true ->
  SF.unsigned (SF64div x (Prim2SF two)) \/ SF64div x (Prim2SF two) = S754_zero true.
Proof.
  rewrite Prim2SF_two.
  destruct x as [[|]|[|]| |[|] mx ex]; try discriminate; intros _.
  - now right.
  - now left.
  - now left.
  - left. unfold SF64div, SFdiv.
    destruct (SFdiv_core_binary _ _ _ _ _ _) as [[mz ez] lz].
    apply binary_round_aux_unsigned.
Qed.

Lemma SFsame_refl x : SFsame x x = true.
Proof. unfold SFsame. rewrite SFeqb_refl. now destruct (SF.is_nan x). Qed.

Lemma same_value_zero_spec x y :
  same_value_zero x y = SFsame (Prim2SF x) (Prim2SF y).
Proof. unfold same_value_zero, SFsame. now rewrite eqb_spec, !is_nan_spec. Qed.

(** [|c * h|] against [|c| * h] for a half extent [h] that is [>= 0]: the
    same number, or [+0] against [-0]. *)
Lemma SFabs_mul_nonneg c h :
  SF.unsigned h \/ h = S754_zero true ->
  SFabs (SF64mul c h) = SF64mul (SFabs c) h \/
  (SFabs (SF64mul c h) = S754_zero false /\ SF64mul (SFabs c) h = S754_zero true).
Proof.
  intros [Hh| ->].
  - left. now rewrite SFabs_mul, Hh.
  - destruct c as [sc|sc| |sc mc ec]; simpl; auto.
Qed.

Lemma SFadd_same a a' b b' :
  SF.unsigned a -> SF.unsigned b ->
  a = a' \/ (a = S754_zero false /\ a' = S754_zero true) ->
  b = b' \/ (b = S754_zero false /\ b' = S754_zero true) ->
  SFsame (SF64add a b) (SF64add a' b') = true.
Proof.
  unfold SF.unsigned.
  intros Ha Hb [<-|[-> ->]] [<-|[-> ->]]; try apply SFsame_refl.
  - destruct a as [[|]|[|]| |[|] ma ea]; try discriminate; apply SFsame_refl.
  - destruct b as [[|]|[|]| |[|] mb eb]; try discriminate; apply SFsame_refl.
  - reflexivity.
Qed.

(** *** The same facts on the engine's numbers *)

Module Float.
Local Open Scope float_scope.

Lemma abs_mul x y : abs (x * y) = abs x * abs y.
Proof. apply Prim2SF_inj. now rewrite abs_spec, !mul_spec, SFabs_mul, !abs_spec. Qed.

Lemma abs_opp x : abs (- x) = abs x.
Proof. apply Prim2SF_inj. now rewrite !abs_spec, opp_spec, SFabs_opp. Qed.


Lemma mul_opp_r x y : x * - y = - (x * y).
Proof. apply Prim2SF_inj. now rewrite !opp_spec, !mul_spec, opp_spec, SFmul_opp_r. Qed.

Lemma div_opp_l x y : - x / y = - (x / y).
Proof. apply Prim2SF_inj. now rewrite !opp_spec, !div_spec, opp_spec, SFdiv_opp_l. Qed.

(** The sign of a half extent does not survive [Math.abs]. *)
Lemma abs_mul_half_opp c x : abs (c * (- x / two)) = abs (c * (x / two)).
Proof. now rewrite div_opp_l, mul_opp_r, abs_opp. Qed.

Lemma unsigned_abs x : SF.unsigned (Prim2SF (abs x)).
Proof. unfold SF.unsigned. now rewrite abs_spec, SFabs_abs. Qed.

Lemma unsigned_sum_abs x y : SF.unsigned (Prim2SF (abs x + abs y)).
Proof. rewrite add_spec. apply SFadd_unsigned; apply unsigned_abs. Qed.

Lemma is_nan_not_finite x : is_nan x = true -> is_finite x = false.
Proof. unfold is_finite. now intros ->. Qed.

Lemma is_zero_finite x : is_zero x = true -> is_finite x = true.
Proof. rewrite is_zero_spec, is_finite_spec. now destruct (Prim2SF x). Qed.

Lemma div_two_finite x : is_finite x = true -> is_finite (x / two) = true.
Proof.
  rewrite !is_finite_spec, div_spec. apply SFdiv_two_finite, Prim2SF_valid.
Qed.

Lemma div_two_not_finite x : is_finite x = false -> is_finite (x / two) = false.
Proof.
  rewrite !is_finite_spec, div_spec, Prim2SF_two. apply SFdiv_not_finite_l.
Qed.

Lemma div_nan x y : is_nan x = true -> is_nan (x / y) = true.
Proof. rewrite !is_nan_spec, div_spec. apply SFdiv_nan_l. Qed.

Lemma abs_sum_not_finite_l a x b y :
  is_finite x = false -> is_finite (abs (a * x) + abs (b * y)) = false.
Proof.
  rewrite !is_finite_spec, add_spec, abs_spec, mul_spec. intros H.
  now apply SFadd_not_finite_l; rewrite SFabs_is_finite; apply SFmul_not_finite_r.
Qed.

Lemma abs_sum_not_finite_r a x b y :
  is_finite y = false -> is_finite (abs (a * x) + abs (b * y)) = false.
Proof.
  rewrite !is_finite_spec, add_spec, (abs_spec (b * y)), (mul_spec b y). intros H.
  now apply SFadd_not_finite_r; rewrite SFabs_is_finite; apply SFmul_not_finite_r.
Qed.

Lemma abs_sum_nan_l a x b y :
  is_nan a = true \/ is_nan x = true -> is_nan (abs (a * x) + abs (b * y)) = true.
Proof.
  rewrite !is_nan_spec, add_spec, abs_spec, mul_spec. intros H.
  apply SFadd_nan_l. rewrite SFabs_is_nan.
  destruct H; [now apply SFmul_nan_l | now apply SFmul_nan_r].
Qed.

Lemma abs_sum_nan_r a x b y :
  is_nan b = true \/ is_nan y = true -> is_nan (abs (a * x) + abs (b * y)) = true.
Proof.
  rewrite !is_nan_spec, add_spec, (abs_spec (b * y)), (mul_spec b y). intros H.
  apply SFadd_nan_r. rewrite SFabs_is_nan.
  destruct H; [now apply SFmul_nan_l | now apply SFmul_nan_r].
Qed.

(** A sum of two absolute values is not below zero. *)
Lemma abs_sum_not_negative x y : (abs x + abs y <? 0) = false.
Proof.
  rewrite ltb_spec. apply unsigned_not_lt_zero, unsigned_sum_abs.
Qed.

Lemma abs_sum_nan_or_nonneg x y :
  is_nan (abs x + abs y) = true \/ (0 <=? abs x + abs y) = true.
Proof.
  rewrite is_nan_spec, leb_spec. apply unsigned_nan_or_nonneg, unsigned_sum_abs.
Qed.

(** With finite factors the sum is a number, hence [>= 0]. *)
Lemma abs_sum_nonneg a x b y :
  is_finite a = true -> is_finite x = true ->
  is_finite b = true -> is_finite y = true ->
  (0 <=? abs (a * x) + abs (b * y)) = true.
Proof.
  rewrite !is_finite_spec. intros Ha Hx Hb Hy.
  destruct (abs_sum_nan_or_nonneg (a * x) (b * y)) as [Hnan|H]; [|assumption].
  rewrite is_nan_spec, add_spec in Hnan.
  rewrite SFadd_unsigned_not_nan in Hnan; try discriminate;
    try apply unsigned_abs;
    rewrite abs_spec, SFabs_is_nan, mul_spec; now apply SFmul_finite_not_nan.
Qed.

(** The source's [|c * h|] terms against the [|c| * h] of the formula. *)
Lemma abs_sum_formula a b x y :
  (0 <=? x) = true -> (0 <=? y) = true ->
  same_value_zero (abs (a * (x / two)) + abs (b * (y / two)))
                  (abs a * (x / two) + abs b * (y / two)) = true.
Proof.
  rewrite !leb_spec. intros Hx Hy.
  apply SFdiv_two_nonneg in Hx, Hy.
  rewrite same_value_zero_spec, !add_spec, !abs_spec, !mul_spec, !abs_spec, !div_spec.
  apply SFadd_same.
  - unfold SF.unsigned. apply SFabs_abs.
  - unfold SF.unsigned. apply SFabs_abs.
  - now apply SFabs_mul_nonneg.
  - now apply SFabs_mul_nonneg.
Qed.

(** Multiplying by 1 changes nothing, and adding the zero that a vanishing
    product leaves changes no absolute value. *)
Lemma mul_one_l x : one * x = x.
Proof. apply Prim2SF_inj. rewrite mul_spec. apply SFmul_one_l_valid, Prim2SF_valid. Qed.

Lemma abs_zero_mul t y : is_zero t = true -> is_finite y = true -> abs (t * y) = 0.
Proof.
  rewrite is_zero_spec, is_finite_spec. intros Ht Hy.
  apply Prim2SF_inj. rewrite abs_spec, mul_spec.
  destruct (Prim2SF t), (Prim2SF y); try discriminate; reflexivity.
Qed.

Lemma abs_add_zero_r x : abs x + 0 = abs x.
Proof.
  apply Prim2SF_inj. rewrite add_spec, abs_spec.
  change (Prim2SF 0) with (S754_zero false).
  now destruct (Prim2SF x).
Qed.

Lemma abs_add_zero_l x : 0 + abs x = abs x.
Proof.
  apply Prim2SF_inj. rewrite add_spec, abs_spec.
  change (Prim2SF 0) with (S754_zero false).
  now destruct (Prim2SF x).
Qed.

(** Half of a finite number that is [>= 0] is its own absolute value. *)
Lemma abs_half_nonneg x :
  is_finite x = true -> (0 <=? x) = true -> (abs (x / two) =? x / two) = true.
Proof.
  intros Hfin Hx. apply div_two_finite in Hfin.
  rewrite leb_spec in Hx. apply SFdiv_two_nonneg in Hx.
  rewrite is_finite_spec in Hfin.
  rewrite eqb_spec, abs_spec. rewrite div_spec in *.
  destruct Hx as [Hx| ->]; [|reflexivity].
  rewrite Hx, SFeqb_refl.
  now destruct (SF64div (Prim2SF x) (Prim2SF two)).
Qed.

End Float.

(** ** getWorldHalfExtents on the engine's numbers *)

Local Open Scope float_scope.

(** The two fields of the result, spelled out. *)
Lemma halfX_eq (M : MathObject) (rack : Object3D float) :
  halfX (getWorldHalfExtents (binary64 M) rack) =
  abs (Math_cos M (rack_angle rack) * (rack_width rack / two)) +
  abs (Math_sin M (rack_angle rack) * (rack_depth rack / two)).
Proof. reflexivity. Qed.

Lemma halfZ_eq (M : MathObject) (rack : Object3D float) :
  halfZ (getWorldHalfExtents (binary64 M) rack) =
  abs (Math_sin M (rack_angle rack) * (rack_width rack / two)) +
  abs (Math_cos M (rack_angle rack) * (rack_depth rack / two)).
Proof. reflexivity. Qed.

(** On a [rack_of] at angle 0 the host's cosine and sine are the prescribed
    1 and 0, for every engine. *)
Ltac at_angle_zero M :=
  cbn [rack_of rack_angle rack_width rack_depth rotation userData config
       width depth Euler.y];
  rewrite (cos_zero M 0), (sin_zero M 0) by reflexivity.

(** The worked example of the design notes: width 4, depth 2, an eighth of a
    turn; both half extents are about 2.121. *)
Example getWorldHalfExtents_eighth_turn :
  let r := getWorldHalfExtents (binary64 TaylorMath)
             (rack_of 0 4 2 0x1.921fb54442d18p-1) in
  (2.12109375 <? halfX r) && (halfX r <? 2.1220703125) &&
  (2.12109375 <? halfZ r) && (halfZ r <? 2.1220703125) = true.
Proof. reflexivity. Qed.

(** With a width and depth of [-0] the source gives [+0] where the formula
    with [|cos θ| * hx] gives [-0]: equal numbers, different zeros. *)
Example getWorldHalfExtents_negative_zero :
  halfX (getWorldHalfExtents (binary64 TaylorMath) (rack_of 0 (-0) (-0) 0.5)) = 0 /\
  abs (Taylor.cos 0.5) * (-0 / 2) + abs (Taylor.sin 0.5) * (-0 / 2) = -0.
Proof. split; reflexivity. Qed.

(** A NaN width, depth or angle makes both fields NaN. *)
Lemma nan_input_nan_extents (M : MathObject) (rack : Object3D float) :
  is_nan (rack_width rack) = true \/
  is_nan (rack_depth rack) = true \/
  is_nan (rack_angle rack) = true ->
  is_nan (halfX (getWorldHalfExtents (binary64 M) rack)) = true /\
  is_nan (halfZ (getWorldHalfExtents (binary64 M) rack)) = true.
Proof.
  rewrite halfX_eq, halfZ_eq. intros [Hw|[Hd|Hθ]].
  - split; apply Float.abs_sum_nan_l; right; now apply Float.div_nan.
  - split; apply Float.abs_sum_nan_r; right; now apply Float.div_nan.
  - apply Float.is_nan_not_finite in Hθ.
    rewrite (cos_not_finite M _ Hθ), (sin_not_finite M _ Hθ).
    split; apply Float.abs_sum_nan_l; now left.
Qed.

(** C1: for a width and a depth that are [>= 0] (finite or not) and any
    angle, [halfX] is [|cos θ| * (w/2) + |sin θ| * (d/2)] and [halfZ] is
    [|sin θ| * (w/2) + |cos θ| * (d/2)], computed with the engine's
    operations and compared as numbers. *)
Theorem getWorldHalfExtents_formula (M : MathObject) (rack : Object3D float) :
  let w := rack_width rack in
  let d := rack_depth rack in
  let θ := rack_angle rack in
  (0 <=? w) = true -> (0 <=? d) = true ->
  same_value_zero (halfX (getWorldHalfExtents (binary64 M) rack))
                  (abs (Math_cos M θ) * (w / 2) + abs (Math_sin M θ) * (d / 2)) = true /\
  same_value_zero (halfZ (getWorldHalfExtents (binary64 M) rack))
                  (abs (Math_sin M θ) * (w / 2) + abs (Math_cos M θ) * (d / 2)) = true.
Proof.
  intros w d θ Hw Hd. rewrite halfX_eq, halfZ_eq.
  split; now apply Float.abs_sum_formula.
Qed.

Lemma getWorldHalfExtents_formula_witness :
  let rack := rack_of 0 4 2 0.5 in
  same_value_zero (halfX (getWorldHalfExtents (binary64 TaylorMath) rack))
                  (abs (Taylor.cos 0.5) * (4 / 2) + abs (Taylor.sin 0.5) * (2 / 2)) = true /\
  same_value_zero (halfZ (getWorldHalfExtents (binary64 TaylorMath) rack))
                  (abs (Taylor.sin 0.5) * (4 / 2) + abs (Taylor.cos 0.5) * (2 / 2)) = true.
Proof.
  apply (getWorldHalfExtents_formula TaylorMath (rack_of 0 4 2 0.5)); reflexivity.
Defined.

(** C2, as stated, fails: a negative width is not propagated as a negative
    extent.  At width -4, depth 2, angle 0 the result is [{2, 1}], and no
    input at all, on any engine, gives a negative field. *)
Lemma negative_width_gives_no_negative_extent :
  getWorldHalfExtents (binary64 TaylorMath) (rack_of 0 (-4) 2 0)
    = {| halfX := 2; halfZ := 1 |} /\
  ((exists (M : MathObject) (rack : Object3D float),
      ((rack_width rack <? 0) = true \/ (rack_depth rack <? 0) = true) /\
      ((halfX (getWorldHalfExtents (binary64 M) rack) <? 0) = true \/
       (halfZ (getWorldHalfExtents (binary64 M) rack) <? 0) = true)) -> False).
Proof.
  split; [reflexivity|].
  intros (M & rack & _ & [H|H]).
  - rewrite halfX_eq, Float.abs_sum_not_negative in H. discriminate.
  - rewrite halfZ_eq, Float.abs_sum_not_negative in H. discriminate.
Qed.

(** C2, amended: the function returns a record for every rack; a NaN width,
    depth or angle makes both fields NaN; a negative width or depth is
    accepted as well, but its sign is dropped: negating the width or the
    depth leaves the result as it is, and neither field is ever negative. *)
Theorem getWorldHalfExtents_malformed (M : MathObject) (rack : Object3D float) :
  let r := getWorldHalfExtents (binary64 M) rack in
  (exists hX hZ, r = {| halfX := hX; halfZ := hZ |}) /\
  (is_nan (rack_width rack) = true \/
   is_nan (rack_depth rack) = true \/
   is_nan (rack_angle rack) = true ->
   is_nan (halfX r) = true /\ is_nan (halfZ r) = true) /\
  (forall w d θ,
     getWorldHalfExtents (binary64 M) (rack_of 0 (- w) d θ) =
     getWorldHalfExtents (binary64 M) (rack_of 0 w d θ) /\
     getWorldHalfExtents (binary64 M) (rack_of 0 w (- d) θ) =
     getWorldHalfExtents (binary64 M) (rack_of 0 w d θ)) /\
  (halfX r <? 0) = false /\
  (halfZ r <? 0) = false.
Proof.
  intros r. subst r. split; [|split; [|split; [|split]]].
  - now eexists _, _.
  - apply nan_input_nan_extents.
  - intros w d θ. unfold getWorldHalfExtents. cbn.
    now rewrite !Float.abs_mul_half_opp.
  - rewrite halfX_eq. apply Float.abs_sum_not_negative.
  - rewrite halfZ_eq. apply Float.abs_sum_not_negative.
Qed.

Lemma getWorldHalfExtents_malformed_witness :
  is_nan (rack_width (rack_of 0 nan 2 0.5)) = true /\
  is_nan (halfX (getWorldHalfExtents (binary64 TaylorMath) (rack_of 0 nan 2 0.5))) = true /\
  is_nan (halfZ (getWorldHalfExtents (binary64 TaylorMath) (rack_of 0 nan 2 0.5))) = true.
Proof.
  split; [reflexivity|].
  apply (getWorldHalfExtents_malformed TaylorMath (rack_of 0 nan 2 0.5)).
  left. reflexivity.
Defined.

(** C3, as stated, fails: with width 1, infinite depth and angle 0 no input
    is NaN, yet on every engine [halfX] is NaN (it contains [0 * Infinity]). *)
Lemma infinite_depth_gives_nan :
  exists rack : Object3D float,
    is_nan (rack_width rack) = false /\
    is_nan (rack_depth rack) = false /\
    is_nan (rack_angle rack) = false /\
    forall M : MathObject,
      is_nan (halfX (getWorldHalfExtents (binary64 M) rack)) = true /\
      (0 <=? halfX (getWorldHalfExtents (binary64 M) rack)) = false.
Proof.
  exists (rack_of 0 1 infinity 0).
  repeat split; try reflexivity; rewrite halfX_eq; now at_angle_zero M.
Qed.

(** C3, amended: for every width, depth and angle each field is NaN or
    [>= 0], never negative; a NaN input makes both NaN; and with a finite
    width and depth and finite values of [Math.cos] and [Math.sin] both
    fields are [>= 0]. *)
Theorem getWorldHalfExtents_nonneg (M : MathObject) (rack : Object3D float) :
  let r := getWorldHalfExtents (binary64 M) rack in
  (is_nan (halfX r) = true \/ (0 <=? halfX r) = true) /\
  (is_nan (halfZ r) = true \/ (0 <=? halfZ r) = true) /\
  (is_nan (rack_width rack) = true \/
   is_nan (rack_depth rack) = true \/
   is_nan (rack_angle rack) = true ->
   is_nan (halfX r) = true /\ is_nan (halfZ r) = true) /\
  (is_finite (rack_width rack) = true -> is_finite (rack_depth rack) = true ->
   is_finite (Math_cos M (rack_angle rack)) = true ->
   is_finite (Math_sin M (rack_angle rack)) = true ->
   (0 <=? halfX r) = true /\ (0 <=? halfZ r) = true).
Proof.
  intros r. subst r. rewrite halfX_eq, halfZ_eq.
  split; [|split; [|split]].
  - apply Float.abs_sum_nan_or_nonneg.
  - apply Float.abs_sum_nan_or_nonneg.
  - rewrite <- halfX_eq, <- halfZ_eq. apply nan_input_nan_extents.
  - intros Hw Hd Hc Hs.
    apply Float.div_two_finite in Hw, Hd.
    split; now apply Float.abs_sum_nonneg.
Qed.

Lemma getWorldHalfExtents_nonneg_witness :
  (let r := getWorldHalfExtents (binary64 TaylorMath) (rack_of 0 4 2 0.5) in
   (0 <=? halfX r) = true /\ (0 <=? halfZ r) = true) /\
  (let r := getWorldHalfExtents (binary64 TaylorMath) (rack_of 0 4 nan 0.5) in
   is_nan (halfX r) = true /\ is_nan (halfZ r) = true).
Proof.
  split.
  - apply (getWorldHalfExtents_nonneg TaylorMath (rack_of 0 4 2 0.5)); reflexivity.
  - apply (getWorldHalfExtents_nonneg TaylorMath (rack_of 0 4 nan 0.5)).
    right; left; reflexivity.
Defined.

(** At an angle of zero the fields are the absolute values of the halves,
    whatever the signs of a finite width and depth. *)
Lemma getWorldHalfExtents_zero_angle (M : MathObject) (rack : Object3D float) :
  is_zero (rack_angle rack) = true ->
  is_finite (rack_width rack) = true -> is_finite (rack_depth rack) = true ->
  getWorldHalfExtents (binary64 M) rack =
  {| halfX := abs (rack_width rack / 2); halfZ := abs (rack_depth rack / 2) |}.
Proof.
  intros Hθ Hw Hd. apply Float.div_two_finite in Hw, Hd.
  unfold getWorldHalfExtents. fold (rack_width rack) (rack_depth rack) (rack_angle rack).
  cbn [binary64 num_two num_div num_mul num_add num_abs num_cos num_sin].
  rewrite (cos_zero M _ Hθ), (sin_zero M _ Hθ), !Float.mul_one_l.
  rewrite !Float.abs_zero_mul by assumption.
  now rewrite Float.abs_add_zero_r, Float.abs_add_zero_l.
Qed.

(** C4, as stated, fails for an infinite width: with width Infinity,
    depth 2 and angle 0, on every engine [halfZ] is NaN, not 1. *)
Lemma infinite_width_at_zero_angle :
  exists rack : Object3D float,
    (0 <=? rack_width rack) = true /\
    (0 <=? rack_depth rack) = true /\
    rack_angle rack = 0 /\
    forall M : MathObject,
      (halfZ (getWorldHalfExtents (binary64 M) rack) =? rack_depth rack / 2) = false /\
      is_nan (halfZ (getWorldHalfExtents (binary64 M) rack)) = true.
Proof.
  exists (rack_of 0 infinity 2 0).
  repeat split; try reflexivity; rewrite halfZ_eq; now at_angle_zero M.
Qed.

(** C4, amended: for a finite width and depth that are [>= 0] and an angle
    of zero, [halfX] is [w/2] and [halfZ] is [d/2] (compared with [===]). *)
Theorem getWorldHalfExtents_at_zero (M : MathObject) (rack : Object3D float) :
  let w := rack_width rack in
  let d := rack_depth rack in
  is_zero (rack_angle rack) = true ->
  is_finite w = true -> is_finite d = true ->
  (0 <=? w) = true -> (0 <=? d) = true ->
  (halfX (getWorldHalfExtents (binary64 M) rack) =? w / 2) = true /\
  (halfZ (getWorldHalfExtents (binary64 M) rack) =? d / 2) = true.
Proof.
  intros w d Hθ Hw Hd Hw0 Hd0.
  rewrite (getWorldHalfExtents_zero_angle M rack Hθ Hw Hd). cbn [halfX halfZ].
  split; now apply Float.abs_half_nonneg.
Qed.

Lemma getWorldHalfExtents_at_zero_witness :
  (halfX (getWorldHalfExtents (binary64 TaylorMath) (rack_of 0 4 2 0)) =? 4 / 2) = true /\
  (halfZ (getWorldHalfExtents (binary64 TaylorMath) (rack_of 0 4 2 0)) =? 2 / 2) = true.
Proof.
  apply (getWorldHalfExtents_at_zero TaylorMath (rack_of 0 4 2 0)); reflexivity.
Defined.

(** C8: the function returns a record for every rack, and when the width,
    the depth or the angle is NaN or infinite, both fields are NaN or
    infinite. *)
Theorem getWorldHalfExtents_not_finite (M : MathObject) (rack : Object3D float) :
  is_finite (rack_width rack) = false \/
  is_finite (rack_depth rack) = false \/
  is_finite (rack_angle rack) = false ->
  exists hX hZ,
    getWorldHalfExtents (binary64 M) rack = {| halfX := hX; halfZ := hZ |} /\
    is_finite hX = false /\ is_finite hZ = false.
Proof.
  intros H. eexists _, _. split; [reflexivity|].
  fold (rack_width rack) (rack_depth rack) (rack_angle rack).
  cbn [binary64 num_two num_div num_mul num_add num_abs num_cos num_sin].
  destruct H as [Hw|[Hd|Hθ]].
  - apply Float.div_two_not_finite in Hw.
    split; now apply Float.abs_sum_not_finite_l.
  - apply Float.div_two_not_finite in Hd.
    split; now apply Float.abs_sum_not_finite_r.
  - rewrite (cos_not_finite M _ Hθ), (sin_not_finite M _ Hθ).
    split; apply Float.is_nan_not_finite, Float.abs_sum_nan_l; now left.
Qed.

Lemma getWorldHalfExtents_not_finite_witness :
  exists hX hZ,
    getWorldHalfExtents (binary64 TaylorMath) (rack_of 0 infinity 2 0.5)
      = {| halfX := hX; halfZ := hZ |} /\
    is_finite hX = false /\ is_finite hZ = false.
Proof.
  apply (getWorldHalfExtents_not_finite TaylorMath (rack_of 0 infinity 2 0.5)).
  left. reflexivity.
Defined.

Local Close Scope float_scope.

(** ** getWorldHalfExtents on any numbers *)

(** C9: whatever the numbers and their operations, two racks with the same
    width, depth and vertical rotation give equal records; every other
    field of the rack is ignored. *)
Theorem getWorldHalfExtents_three_inputs {num : Type} (N : Number num)
    (rack1 rack2 : Object3D num) :
  rack_width rack1 = rack_width rack2 ->
  rack_depth rack1 = rack_depth rack2 ->
  rack_angle rack1 = rack_angle rack2 ->
  getWorldHalfExtents N rack1 = getWorldHalfExtents N rack2.
Proof.
  unfold rack_width, rack_depth, rack_angle, getWorldHalfExtents.
  intros -> -> ->. reflexivity.
Qed.

Lemma getWorldHalfExtents_three_inputs_witness :
  name pallet_rack <> name tilted_rack /\
  getWorldHalfExtents (binary64 TaylorMath) pallet_rack =
  getWorldHalfExtents (binary64 TaylorMath) tilted_rack.
Proof.
  split; [discriminate|].
  apply (getWorldHalfExtents_three_inputs (binary64 TaylorMath) pallet_rack tilted_rack);
    reflexivity.
Defined.

(** ** Binary64 numbers as real numbers *)

Section Bpow.
Local Open Scope R_scope.

Lemma bpow_pos e : 0 < bpow e.
Proof. apply powerRZ_lt. lra. Qed.

Lemma bpow_add a b : bpow (a + b) = bpow a * bpow b.
Proof. apply powerRZ_add. lra. Qed.

Lemma bpow_0 : bpow 0 = 1.
Proof. reflexivity. Qed.

Lemma bpow_1 : bpow 1 = 2.
Proof. apply (powerRZ_1 2). Qed.

Lemma bpow_succ e : bpow (e + 1) = 2 * bpow e.
Proof. rewrite bpow_add, bpow_1. lra. Qed.

Lemma bpow_pred e : bpow (e - 1) = bpow e / 2.
Proof.
  replace e with ((e - 1) + 1)%Z at 2 by lia. rewrite bpow_succ. lra.
Qed.

Lemma bpow_le a b : (a <= b)%Z -> bpow a <= bpow b.
Proof.
  intros H. replace b with (a + (b - a))%Z by lia.
  rewrite bpow_add.
  assert (1 <= bpow (b - a)).
  { assert (0 <= b - a)%Z as Hn by lia. revert Hn.
    generalize (b - a)%Z. intros n Hn.
    pattern n. apply natlike_ind; [rewrite bpow_0; lra| |assumption].
    intros k Hk IH. unfold Z.succ. rewrite bpow_succ. lra. }
  pose proof (bpow_pos a). nra.
Qed.

Lemma bpow_IZR k : (0 <= k)%Z -> bpow k = IZR (2 ^ k).
Proof.
  intros Hk. pattern k. apply natlike_ind; [reflexivity| |assumption].
  intros n Hn IH. unfold Z.succ. rewrite bpow_succ, IH, Z.pow_add_r by lia.
  rewrite mult_IZR. change (2 ^ 1)%Z with 2%Z. lra.
Qed.

End Bpow.

Section Shifts.
Local Open Scope R_scope.

Lemma IZR_xI p : IZR (Zpos p~1) = 2 * IZR (Zpos p) + 1.
Proof. rewrite Pos2Z.inj_xI, plus_IZR, mult_IZR. reflexivity. Qed.

Lemma IZR_xO p : IZR (Zpos p~0) = 2 * IZR (Zpos p).
Proof. rewrite Pos2Z.inj_xO, mult_IZR. reflexivity. Qed.

(** One shift to the right doubles the unit and keeps the place. *)
Lemma shr_1_located x scale mrs :
  0 < scale -> (0 <= shr_m mrs)%Z ->
  located x scale mrs -> located x (2 * scale) (shr_1 mrs).
Proof.
  destruct mrs as [m r s]. cbn [shr_m]. intros Hs Hm.
  unfold located.
  destruct m as [|[p|p|]|p]; [| | | |exfalso; lia]; cbn [shr_1 shr_m shr_r shr_s];
    try rewrite (IZR_xI p); try rewrite (IZR_xO p);
    try set (P := IZR (Zpos p));
    destruct r, s; cbn [orb]; intros H; nra.
Qed.

Lemma iter_shr_1_located n x scale mrs :
  0 < scale -> (0 <= shr_m mrs)%Z -> located x scale mrs ->
  located x (bpow (Z.of_nat n) * scale) (Nat.iter n shr_1 mrs).
Proof.
  intros Hs Hm H. induction n as [|n IH].
  - cbn [Z.of_nat Nat.iter]. rewrite bpow_0, Rmult_1_l. exact H.
  - rewrite Nat2Z.inj_succ. unfold Z.succ. rewrite bpow_succ, Rmult_assoc.
    cbn [Nat.iter]. apply shr_1_located; [| |exact IH].
    + pose proof (bpow_pos (Z.of_nat n)). nra.
    + now apply iter_shr_1_digits.
Qed.

(** [shr_fexp] keeps the place while it moves to the format's exponent. *)
Lemma shr_fexp_located m e l x :
  (0 <= m)%Z -> located x (bpow e) (shr_record_of_loc m l) ->
  located x (bpow (snd (shr_fexp prec emax m e l))) (fst (shr_fexp prec emax m e l)).
Proof.
  intros Hm H. unfold shr_fexp, shr.
  destruct (fexp prec emax (Zdigits2 m + e) - e)%Z as [|n|n]; cbn [fst snd]; try exact H.
  rewrite iter_pos_nat, bpow_add, Rmult_comm, <- positive_nat_Z.
  apply iter_shr_1_located; [apply bpow_pos | now rewrite shr_m_of_loc | exact H].
Qed.

(** Rounding to nearest moves a located number by at most half a unit, and
    not at all when it sits on the mantissa. *)
Lemma round_nearest_even_located x scale mrs :
  0 < scale -> located x scale mrs ->
  Rabs (IZR (round_nearest_even (shr_m mrs) (loc_of_shr_record mrs)) * scale - x)
    <= scale / 2.
Proof.
  destruct mrs as [m r s]. unfold located. cbn [shr_m shr_r shr_s loc_of_shr_record].
  intros Hs H. apply Rabs_le.
  destruct r, s; cbn [round_nearest_even];
    try destruct (Z.even m); rewrite ?plus_IZR; lra.
Qed.

Lemma located_exact x scale m :
  located x scale (shr_record_of_loc m loc_Exact) <-> x = IZR m * scale.
Proof. reflexivity. Qed.

End Shifts.

Section Rounding.
Local Open Scope R_scope.

Lemma F2R_cond_Zopp s m e : F2R (cond_Zopp s m) e = sign s * F2R m e.
Proof. unfold F2R, sign. destruct s; cbn [cond_Zopp]; rewrite ?opp_IZR; lra. Qed.

Lemma located_lower x scale m l :
  0 < scale -> located x scale (shr_record_of_loc m l) -> IZR m * scale <= x.
Proof.
  unfold located. destruct l as [|[]]; cbn [shr_record_of_loc shr_m shr_r shr_s];
    intros Hs H; nra.
Qed.

Lemma IZR_ge_bpow m : (0 < m)%Z -> bpow (Zdigits2 m - 1) <= IZR m.
Proof.
  intros Hm. pose proof (Zdigits2_ge_pow2 m Hm) as H.
  assert (0 <= Zdigits2 m - 1)%Z.
  { destruct m as [|p|p]; [lia | cbn [Zdigits2]; lia | lia]. }
  rewrite bpow_IZR by assumption. now apply IZR_le.
Qed.

(** The first rounding step: the mantissa that [binary_round_aux] keeps,
    at the format's exponent, is within half a unit of the located number. *)
Lemma first_round m e l x :
  (0 <= m)%Z ->
  located x (bpow e) (shr_record_of_loc m l) ->
  l = loc_Exact \/ (e <= fexp prec emax (Zdigits2 m + e))%Z ->
  let r1 := fst (shr_fexp prec emax m e l) in
  let e1 := snd (shr_fexp prec emax m e l) in
  let m1 := round_nearest_even (shr_m r1) (loc_of_shr_record r1) in
  (0 <= m1 <= 2 ^ 53)%Z /\
  e1 = Z.max e (fexp prec emax (Zdigits2 m + e)) /\
  Rabs (IZR m1 * bpow e1 - x) <= bpow e1 / 2 /\
  Rabs (IZR m1 * bpow e1 - x) <= bpow (-53) * x + bpow (-1075).
Proof.
  intros Hm Hx Hl r1 e1 m1.
  pose proof (shr_fexp_digits m e l Hm) as Hd.
  pose proof (shr_fexp_located m e l x Hm Hx) as Hloc.
  fold r1 e1 in Hloc.
  destruct (shr_fexp prec emax m e l) as [r1' e1'] eqn:Hsh.
  cbn [fst snd] in r1, e1. subst r1 e1. destruct Hd as (Hr1 & He1 & Hd1).
  pose proof (round_nearest_even_bounds (shr_m r1') (loc_of_shr_record r1') Hr1) as Hb.
  fold m1 in Hb.
  pose proof (round_nearest_even_located x (bpow e1') r1' (bpow_pos e1') Hloc) as Herr.
  fold m1 in Herr.
  pose proof (located_lower x (bpow e) m l (bpow_pos e) Hx) as Hlow.
  pose proof (bpow_pos e) as Hpe. pose proof (bpow_pos (-53)) as Hp53.
  pose proof (bpow_pos (-1075)) as Hpeta.
  assert (0 <= x) as Hx0.
  { apply IZR_le in Hm. nra. }
  pose proof (Zdigits2_nonneg m) as Hdm.
  assert (Zdigits2 (shr_m r1') <= 53)%Z as Hd53.
  { unfold fexp, SpecFloat.emin, prec, emax in *. lia. }
  assert (shr_m r1' < 2 ^ 53)%Z as Hlt.
  { pose proof (Zdigits2_lt_pow2 (shr_m r1') Hr1) as H.
    assert (2 ^ Zdigits2 (shr_m r1') <= 2 ^ 53)%Z
      by (apply Z.pow_le_mono_r; [lia|assumption]).
    lia. }
  split; [lia|]. split; [lia|]. split; [exact Herr|].
  destruct (Z_lt_le_dec (fexp prec emax (Zdigits2 m + e)) e1') as [Hgt|Hle].
  - (* no shift, and the number sits on the mantissa *)
    assert (e1' = e) as -> by lia.
    destruct Hl as [->|Hl]; [|lia].
    assert (r1' = shr_record_of_loc m loc_Exact) as ->.
    { unfold shr_fexp, shr in Hsh.
      destruct (fexp prec emax (Zdigits2 m + e) - e)%Z eqn:Hk; try lia; congruence. }
    unfold m1. cbn [shr_record_of_loc shr_m loc_of_shr_record round_nearest_even].
    apply located_exact in Hx. rewrite <- Hx, Rminus_diag, Rabs_R0. nra.
  - assert (e1' = fexp prec emax (Zdigits2 m + e)) as He1' by lia.
    eapply Rle_trans; [exact Herr|].
    unfold fexp, SpecFloat.emin, prec, emax in He1'.
    destruct (Z_le_gt_dec (Zdigits2 m + e - 53) (3 - 1024 - 53)) as [Hsub|Hnorm].
    + assert (e1' = -1074)%Z as -> by lia.
      change (-1075)%Z with (-1074 - 1)%Z. rewrite bpow_pred. nra.
    + assert (e1' = Zdigits2 m + e - 53)%Z as -> by lia.
      assert (0 < m)%Z as Hmpos.
      { destruct (Z.eq_dec m 0) as [->|]; [cbn in *; lia|lia]. }
      pose proof (IZR_ge_bpow m Hmpos) as Hge.
      replace (Zdigits2 m + e - 53)%Z with ((-53 + (Zdigits2 m - 1 + e)) + 1)%Z by lia.
      rewrite bpow_succ, !bpow_add.
      pose proof (bpow_pos (Zdigits2 m - 1)).
      assert (bpow (Zdigits2 m - 1) * bpow e <= x) by nra.
      nra.
Qed.

(** The second step only renormalises: a carry into bit 53 is shifted out
    exactly. *)
Lemma second_round m1 e1 :
  (0 <= m1 <= 2 ^ 53)%Z -> (-1074 <= e1)%Z ->
  let r2 := fst (shr_fexp prec emax m1 e1 loc_Exact) in
  let e2 := snd (shr_fexp prec emax m1 e1 loc_Exact) in
  (0 <= shr_m r2)%Z /\ IZR (shr_m r2) * bpow e2 = IZR m1 * bpow e1 /\
  e2 = Z.max e1 (fexp prec emax (Zdigits2 m1 + e1)).
Proof.
  intros [Hm0 Hm1] He1 r2 e2. subst r2 e2.
  enough ((0 <= shr_m (fst (shr_fexp prec emax m1 e1 loc_Exact)))%Z /\
          IZR (shr_m (fst (shr_fexp prec emax m1 e1 loc_Exact)))
          * bpow (snd (shr_fexp prec emax m1 e1 loc_Exact)) = IZR m1 * bpow e1) as [H1 H2].
  { repeat split; try assumption.
    pose proof (shr_fexp_digits m1 e1 loc_Exact Hm0) as H.
    destruct (shr_fexp prec emax m1 e1 loc_Exact). now destruct H as (_ & -> & _). }
  assert (Zdigits2 m1 <= 54)%Z as Hd by (apply Zdigits2_le; lia).
  unfold shr_fexp, shr.
  destruct (fexp prec emax (Zdigits2 m1 + e1) - e1)%Z as [|n|n] eqn:Hn;
    cbn [fst snd shr_record_of_loc shr_m]; try (split; [lia|reflexivity]).
  assert (Zdigits2 m1 = 54%Z /\ n = 1%positive) as [Hd54 ->].
  { unfold fexp, SpecFloat.emin, prec, emax in Hn. lia. }
  assert (m1 = 2 ^ 53)%Z as ->.
  { assert (0 < m1)%Z by (destruct m1 as [|p|p]; [discriminate Hd54 | lia | lia]).
    pose proof (Zdigits2_ge_pow2 m1 ltac:(lia)) as H'. rewrite Hd54 in H'.
    change (54 - 1)%Z with 53%Z in H'. lia. }
  cbn. split; [lia|]. rewrite bpow_succ. lra.
Qed.

End Rounding.

Section RoundingValue.
Local Open Scope R_scope.

Lemma Rabs_le_between a b : Rabs a <= b -> - b <= a <= b.
Proof. unfold Rabs. destruct (Rcase_abs a); lra. Qed.

(** What [binary_round_aux] returns, when it is not an infinity, is within
    half a unit in the last place of the located number: a relative error
    of [2^-53] at most, or [2^-1075] in the subnormal range. *)
Lemma binary_round_aux_value s m e l x :
  (0 <= m)%Z ->
  located x (bpow e) (shr_record_of_loc m l) ->
  l = loc_Exact \/ (e <= fexp prec emax (Zdigits2 m + e))%Z ->
  SF.is_infinity (binary_round_aux prec emax s m e l) = false ->
  Rabs (SF2R (binary_round_aux prec emax s m e l) - sign s * x)
    <= bpow (-53) * x + bpow (-1075).
Proof.
  intros Hm Hx Hl.
  destruct (first_round m e l x Hm Hx Hl) as (Hm1 & He1 & _ & Herr).
  unfold binary_round_aux.
  destruct (shr_fexp prec emax m e l) as [r1 e1]. cbn [fst snd] in Hm1, He1, Herr.
  set (m1 := round_nearest_even (shr_m r1) (loc_of_shr_record r1)) in *.
  assert (-1074 <= e1)%Z as He1'.
  { unfold fexp, SpecFloat.emin, prec, emax in He1. lia. }
  destruct (second_round m1 e1 Hm1 He1') as (Hr2 & Hval & _).
  destruct (shr_fexp prec emax m1 e1 loc_Exact) as [r2 e2]. cbn [fst snd] in Hr2, Hval.
  rewrite <- Hval in Herr. apply Rabs_le_between in Herr.
  destruct (shr_m r2) as [|p|p]; [ | |lia].
  - intros _. cbn [SF2R]. apply Rabs_le.
    unfold sign. destruct s; lra.
  - destruct (e2 <=? emax - prec)%Z; [|discriminate].
    intros _. cbn [SF2R]. rewrite F2R_cond_Zopp. unfold F2R.
    apply Rabs_le. unfold sign. destruct s; lra.
Qed.

End RoundingValue.

Section Overflow.
Local Open Scope R_scope.

Lemma bpow_lt_inv a b : bpow a < bpow b -> (a < b)%Z.
Proof.
  intros H. destruct (Z_lt_le_dec a b) as [|Hle]; [assumption|].
  apply bpow_le in Hle. lra.
Qed.

(** Rounding does not overflow below the midpoint between the largest
    number and [2^1024]. *)
Lemma binary_round_aux_no_overflow s m e l x :
  (0 <= m)%Z ->
  located x (bpow e) (shr_record_of_loc m l) ->
  (e <= fexp prec emax (Zdigits2 m + e))%Z ->
  x < bpow 1024 - bpow 970 ->
  SF.is_finite (binary_round_aux prec emax s m e l) = true.
Proof.
  intros Hm Hx He Hlt.
  destruct (first_round m e l x Hm Hx (or_intror He)) as (Hm1 & He1 & Herr & _).
  pose proof (located_lower x (bpow e) m l (bpow_pos e) Hx) as Hlow.
  unfold binary_round_aux.
  destruct (shr_fexp prec emax m e l) as [r1 e1]. cbn [fst snd] in Hm1, He1, Herr.
  set (m1 := round_nearest_even (shr_m r1) (loc_of_shr_record r1)) in *.
  pose proof (bpow_pos 970) as H970. pose proof (bpow_pos e) as Hpe.
  assert (Zdigits2 m + e <= 1024)%Z as Hd.
  { destruct (Z.eq_dec m 0) as [->|Hnz].
    - cbn [Zdigits2] in *. unfold fexp, SpecFloat.emin, prec, emax in He. lia.
    - pose proof (IZR_ge_bpow m ltac:(lia)) as Hge.
      assert (bpow (Zdigits2 m - 1 + e) < bpow 1024) as Hb.
      { rewrite bpow_add. nra. }
      apply bpow_lt_inv in Hb. lia. }
  assert (-1074 <= e1 <= 971)%Z as He1'.
  { unfold fexp, SpecFloat.emin, prec, emax in He, He1. lia. }
  destruct (second_round m1 e1 Hm1 ltac:(lia)) as (Hr2 & _ & He2).
  destruct (shr_fexp prec emax m1 e1 loc_Exact) as [r2 e2]. cbn [fst snd] in Hr2, He2.
  destruct (shr_m r2) as [|p|p]; [reflexivity| |lia].
  replace (e2 <=? emax - prec)%Z with true; [reflexivity|].
  symmetry. apply Z.leb_le. change (emax - prec)%Z with 971%Z.
  assert (Zdigits2 m1 <= 54)%Z as Hd1 by (apply Zdigits2_le; lia).
  destruct (Z.eq_dec e1 971) as [E|E].
  - assert (m1 < 2 ^ 53)%Z as Hm1'.
    { apply lt_IZR. rewrite <- bpow_IZR by lia.
      apply Rabs_le_between in Herr. rewrite E in Herr.
      change 971%Z with (970 + 1)%Z in Herr. rewrite bpow_succ in Herr.
      change 1024%Z with (53 + (970 + 1))%Z in Hlt.
      rewrite bpow_add, bpow_succ in Hlt.
      pose proof (bpow_pos 53). nra. }
    assert (Zdigits2 m1 <= 53)%Z by (apply Zdigits2_le; lia).
    unfold fexp, SpecFloat.emin, prec, emax in He2. lia.
  - unfold fexp, SpecFloat.emin, prec, emax in He2. lia.
Qed.

End Overflow.

Section Operations.
Local Open Scope R_scope.

Lemma F2R_pos m e : 0 < F2R (Zpos m) e.
Proof.
  unfold F2R. pose proof (bpow_pos e).
  assert (0 < IZR (Zpos m)) by (apply IZR_lt; lia). nra.
Qed.

Lemma SF2R_abs x : SF2R (SFabs x) = Rabs (SF2R x).
Proof.
  destruct x as [s|s| |s m e]; cbn [SFabs SF2R]; rewrite ?Rabs_R0; try reflexivity.
  rewrite (F2R_cond_Zopp s). cbn [cond_Zopp].
  pose proof (F2R_pos m e). unfold sign.
  destruct s; unfold Rabs; destruct (Rcase_abs _); lra.
Qed.

Lemma SF2R_unsigned x : SF.unsigned x -> 0 <= SF2R x.
Proof. unfold SF.unsigned. intros <-. rewrite SF2R_abs. apply Rabs_pos. Qed.

Lemma sign_xorb a b : sign (xorb a b) = sign a * sign b.
Proof. unfold sign. destruct a, b; cbn [xorb]; lra. Qed.

(** A finite product is the rounded product. *)
Lemma SFmul_value x y :
  SF.is_finite (SF64mul x y) = true ->
  Rabs (SF2R (SF64mul x y) - SF2R x * SF2R y)
    <= bpow (-53) * Rabs (SF2R x * SF2R y) + bpow (-1075).
Proof.
  pose proof (bpow_pos (-1075)) as Heta.
  destruct x as [sx|sx| |sx mx ex], y as [sy|sy| |sy my ey];
    cbn [SF64mul SFmul SF2R]; try discriminate;
    try (intros _; rewrite ?Rmult_0_l, ?Rmult_0_r, Rminus_diag, Rabs_R0; lra).
  intros Hfin.
  assert (F2R (cond_Zopp sx (Zpos mx)) ex * F2R (cond_Zopp sy (Zpos my)) ey
          = sign (xorb sx sy) * F2R (Zpos (mx * my)) (ex + ey)) as ->.
  { rewrite !F2R_cond_Zopp, sign_xorb. unfold F2R.
    rewrite Pos2Z.inj_mul, mult_IZR, bpow_add. ring. }
  pose proof (F2R_pos (mx * my) (ex + ey)) as Hpos.
  replace (Rabs (sign (xorb sx sy) * F2R (Zpos (mx * my)) (ex + ey)))
    with (F2R (Zpos (mx * my)) (ex + ey)).
  2:{ unfold sign. destruct (xorb sx sy); unfold Rabs; destruct (Rcase_abs _); lra. }
  apply binary_round_aux_value; [lia|reflexivity|now left|].
  unfold SF64mul, SFmul in Hfin.
  destruct (binary_round_aux prec emax _ _ _ _); try discriminate; reflexivity.
Qed.

Lemma shl_align_value m e e' :
  F2R (Zpos (fst (shl_align m e e'))) (snd (shl_align m e e')) = F2R (Zpos m) e.
Proof.
  unfold shl_align. destruct (e' - e)%Z as [|d|d] eqn:Hd; cbn [fst snd]; try reflexivity.
  change (Pos.iter xO m d) with (shift_pos d m).
  rewrite shift_pos_correct. change (Z.pow_pos 2 d) with (2 ^ Zpos d)%Z.
  unfold F2R. rewrite mult_IZR, <- bpow_IZR by lia.
  replace e with (Zpos d + e')%Z by lia. rewrite bpow_add. ring.
Qed.

(** A finite sum of two numbers without sign is the rounded sum. *)
Lemma SFadd_value x y :
  SF.unsigned x -> SF.unsigned y ->
  SF.is_finite (SF64add x y) = true ->
  Rabs (SF2R (SF64add x y) - (SF2R x + SF2R y))
    <= bpow (-53) * (SF2R x + SF2R y) + bpow (-1075).
Proof.
  pose proof (bpow_pos (-1075)) as Heta. pose proof (bpow_pos (-53)) as Hu.
  intros Hx Hy.
  pose proof (SF2R_unsigned x Hx) as Hx0. pose proof (SF2R_unsigned y Hy) as Hy0.
  unfold SF.unsigned in Hx, Hy.
  destruct x as [sx|sx| |sx mx ex], y as [sy|sy| |sy my ey];
    try discriminate; injection Hx as <-; injection Hy as <-;
    cbn [SF64add SFadd SF2R] in *;
    try (intros _; rewrite ?Rplus_0_l, ?Rplus_0_r, Rminus_diag, Rabs_R0; nra).
  unfold SF64add, SFadd. cbn [cond_Zopp Z.add binary_normalize].
  pose proof (shl_align_value mx ex (Z.min ex ey)) as Hax.
  pose proof (shl_align_value my ey (Z.min ex ey)) as Hay.
  assert (snd (shl_align mx ex (Z.min ex ey)) = Z.min ex ey) as Hsx.
  { unfold shl_align. destruct (Z.min ex ey - ex)%Z eqn:E; cbn [snd]; lia. }
  assert (snd (shl_align my ey (Z.min ex ey)) = Z.min ex ey) as Hsy.
  { unfold shl_align. destruct (Z.min ex ey - ey)%Z eqn:E; cbn [snd]; lia. }
  rewrite Hsx in Hax. rewrite Hsy in Hay.
  set (a := fst (shl_align mx ex (Z.min ex ey))) in *.
  set (b := fst (shl_align my ey (Z.min ex ey))) in *.
  unfold binary_round.
  pose proof (shl_align_value (a + b) (Z.min ex ey)
                (fexp prec emax (Zpos (digits2_pos (a + b)) + Z.min ex ey))) as Hab.
  destruct (shl_align (a + b) (Z.min ex ey) _) as [mz ez]. cbn [fst snd] in Hab.
  assert (F2R (Zpos mx) ex + F2R (Zpos my) ey = F2R (Zpos mz) ez) as ->.
  { rewrite Hab, <- Hax, <- Hay. unfold F2R.
    rewrite Pos2Z.inj_add, plus_IZR. ring. }
  intros Hfin.
  replace (F2R (Zpos mz) ez) with (sign false * F2R (Zpos mz) ez) at 1
    by (unfold sign; lra).
  apply binary_round_aux_value; [lia|reflexivity|now left|].
  destruct (binary_round_aux prec emax _ _ _ _); try discriminate; reflexivity.
Qed.

End Operations.

Section Halving.
Local Open Scope R_scope.

(** The place of a quotient with remainder. *)
Lemma new_location_located nb r q scale :
  (0 < nb)%Z -> (0 <= r < nb)%Z -> 0 < scale ->
  located ((IZR q + IZR r / IZR nb) * scale) scale
    (shr_record_of_loc q (new_location nb r)).
Proof.
  intros Hnb [Hr0 Hr1] Hs.
  assert (0 < IZR nb) as Hnb' by (apply IZR_lt; lia).
  assert (IZR r / IZR nb * IZR nb = IZR r) as Hrho by (field; lra).
  generalize dependent (IZR r / IZR nb). intros rho Hrho.
  assert (0 <= IZR r) as Hr0' by (apply IZR_le; lia).
  unfold new_location.
  destruct (Z.even nb) eqn:Even; unfold new_location_even, new_location_odd;
    (destruct (Z.eqb_spec r 0) as [->|Hnz];
     [ assert (rho = 0) as -> by nra;
       unfold located; cbn [shr_record_of_loc shr_m shr_r shr_s]; lra
     | assert (0 < IZR r) by (apply IZR_lt; lia) ]).
  - destruct (Z.compare_spec (2 * r) nb) as [E|E|E];
      [apply (f_equal IZR) in E | apply IZR_lt in E | apply IZR_lt in E];
      rewrite mult_IZR in E;
      [assert (rho = / 2) as -> by nra
      |assert (0 < rho < / 2) by (split; nra)
      |assert (/ 2 < rho < 1) by (apply IZR_lt in Hr1; split; nra)];
      unfold located; cbn [shr_record_of_loc shr_m shr_r shr_s]; nra.
  - assert (2 * r <> nb)%Z as Hodd.
    { intros <-. rewrite Z.even_mul in Even. discriminate. }
    destruct (Z.compare_spec (2 * r + 1) nb) as [E|E|E];
      [assert (2 * r < nb)%Z as E' by lia
      |assert (2 * r < nb)%Z as E' by lia
      |assert (nb < 2 * r)%Z as E' by lia];
      apply IZR_lt in E'; rewrite mult_IZR in E';
      [assert (0 < rho < / 2) by (split; nra)
      |assert (0 < rho < / 2) by (split; nra)
      |assert (/ 2 < rho < 1) by (apply IZR_lt in Hr1; split; nra)];
      unfold located; cbn [shr_record_of_loc shr_m shr_r shr_s]; nra.
Qed.

(** Half of a finite number, as the division computes it, is half of it up
    to rounding. *)
Lemma SFdiv_two_value x :
  valid_binary x = true -> SF.is_finite x = true ->
  Rabs (SF2R (SF64div x (Prim2SF two)) - SF2R x / 2)
    <= bpow (-53) * Rabs (SF2R x / 2) + bpow (-1075).
Proof.
  intros Hv Hf. pose proof (SFdiv_two_finite x Hv Hf) as Hfin.
  pose proof (bpow_pos (-1075)) as Heta.
  rewrite Prim2SF_two in *.
  destruct x as [sx|sx| |sx mx ex]; try discriminate.
  { cbn [SF64div SFdiv SF2R]. replace (0 - 0 / 2) with 0 by lra.
    rewrite Rabs_R0. replace (0 / 2) with 0 by lra. rewrite Rabs_R0. lra. }
  simpl valid_binary in Hv. unfold SpecFloat.bounded in Hv.
  apply andb_true_iff in Hv as [Hc He].
  apply fexp_canonical in Hc. apply Z.leb_le in He.
  set (d1 := Zpos (digits2_pos mx)) in *.
  assert (1 <= d1)%Z as Hd1 by (unfold d1; lia).
  pose proof (Zdigits2_lt_pow2 (Zpos mx) ltac:(lia)) as Hub.
  pose proof (Zdigits2_ge_pow2 (Zpos mx) ltac:(lia)) as Hlb.
  change (Zdigits2 (Zpos mx)) with d1 in Hub, Hlb.
  unfold SF64div, SFdiv, SFdiv_core_binary in *.
  change (Zdigits2 (Zpos 4503599627370496)) with 53%Z in *.
  change (Zdigits2 (Zpos mx)) with d1 in *.
  change (Zpos 4503599627370496) with (2 ^ 52)%Z in *.
  set (e' := Z.min (fexp prec emax (d1 + ex - (53 + -51))) (ex - -51)) in *.
  assert (e' <= ex /\ e' <= fexp prec emax (d1 + ex - 2))%Z as [He'1 He'2].
  { unfold e', fexp, SpecFloat.emin, prec, emax in *. lia. }
  destruct (ex - -51 - e')%Z as [|n|n] eqn:Hs; try lia.
  rewrite Z.shiftl_mul_pow2 in * by lia.
  pose proof (Z.div_eucl_eq (Zpos mx * 2 ^ Zpos n) (2 ^ 52) ltac:(lia)) as Heq.
  pose proof (Z.mod_pos_bound (Zpos mx * 2 ^ Zpos n) (2 ^ 52) ltac:(lia)) as Hrem.
  unfold Z.modulo in Hrem.
  destruct (Z.div_eucl (Zpos mx * 2 ^ Zpos n) (2 ^ 52)) as [q r] eqn:Hdiv.
  assert (q = Zpos mx * 2 ^ Zpos n / 2 ^ 52)%Z as Hq.
  { unfold Z.div. now rewrite Hdiv. }
  assert (0 <= q < 2 ^ (d1 + Zpos n - 52))%Z as [Hq0 Hq1].
  { subst q. split; [apply Z.div_pos; lia|].
    apply Z.div_lt_upper_bound; [lia|].
    rewrite <- Z.pow_add_r by lia.
    replace (52 + (d1 + Zpos n - 52))%Z with (d1 + Zpos n)%Z by lia.
    rewrite Z.pow_add_r by lia.
    apply Z.mul_lt_mono_pos_r; lia. }
  assert (d1 + Zpos n - 53 <= Zdigits2 q)%Z as Hq2.
  { destruct (Z_lt_le_dec (d1 + Zpos n - 53) 0) as [Hneg|Hpos].
    - pose proof (Zdigits2_nonneg q). lia.
    - enough (d1 + Zpos n - 53 + 1 <= Zdigits2 q)%Z by lia.
      apply Zdigits2_ge; [assumption|].
      subst q. apply Z.div_le_lower_bound; [lia|].
      rewrite <- Z.pow_add_r by lia.
      replace (52 + (d1 + Zpos n - 53))%Z with (d1 - 1 + Zpos n)%Z by lia.
      rewrite Z.pow_add_r by lia.
      apply Z.mul_le_mono_nonneg_r; lia. }
  cbn [SF2R]. rewrite (F2R_cond_Zopp sx). rewrite xorb_false_r in *.
  pose proof (F2R_pos mx ex) as Hpos.
  assert (F2R (Zpos mx) ex / 2
          = (IZR q + IZR r / IZR (2 ^ 52)) * bpow e') as Hval.
  { unfold F2R. apply (f_equal IZR) in Heq.
    rewrite plus_IZR, !mult_IZR in Heq.
    rewrite <- !bpow_IZR in * by lia.
    assert (bpow ex * bpow 51 = bpow e' * bpow (Zpos n)) as F1.
    { rewrite <- !bpow_add. f_equal. lia. }
    assert (bpow 52 = 2 * bpow 51) as F2 by apply (bpow_succ 51).
    pose proof (bpow_pos 51) as H51. pose proof (bpow_pos 52) as H52.
    apply Rmult_eq_reg_r with (bpow 52); [|lra].
    replace ((IZR q + IZR r / bpow 52) * bpow e' * bpow 52)
      with ((bpow 52 * IZR q + IZR r) * bpow e') by (field; lra).
    rewrite <- Heq.
    replace (IZR (Zpos mx) * bpow ex / 2 * bpow 52)
      with (IZR (Zpos mx) * (bpow ex * bpow 51)) by (rewrite F2; field).
    rewrite F1. ring. }
  replace (Rabs (sign sx * F2R (Zpos mx) ex / 2)) with (F2R (Zpos mx) ex / 2)
    by (unfold sign; destruct sx; unfold Rabs; destruct (Rcase_abs _); lra).
  replace (sign sx * F2R (Zpos mx) ex / 2) with (sign sx * (F2R (Zpos mx) ex / 2))
    by lra.
  rewrite Hval.
  apply binary_round_aux_value.
  - assumption.
  - apply new_location_located; [lia|lia|apply bpow_pos].
  - right. unfold fexp, SpecFloat.emin, prec, emax in *. lia.
  - destruct (binary_round_aux prec emax sx q e' _); try discriminate; reflexivity.
Qed.

End Halving.

Section Extent.
Local Open Scope R_scope.

Lemma value_abs x : value (abs x) = Rabs (value x).
Proof. unfold value. rewrite abs_spec. apply SF2R_abs. Qed.

Lemma value_mul x y :
  is_finite (x * y) = true ->
  Rabs (value (x * y) - value x * value y)
    <= bpow (-53) * Rabs (value x * value y) + bpow (-1075).
Proof. rewrite is_finite_spec. unfold value. rewrite mul_spec. apply SFmul_value. Qed.

Lemma value_add_abs x y :
  is_finite (abs x + abs y) = true ->
  Rabs (value (abs x + abs y) - (Rabs (value x) + Rabs (value y)))
    <= bpow (-53) * (Rabs (value x) + Rabs (value y)) + bpow (-1075).
Proof.
  rewrite is_finite_spec, <- !value_abs. unfold value. rewrite add_spec.
  apply SFadd_value; apply Float.unsigned_abs.
Qed.

(** A finite sum of absolute values has finite terms. *)
Lemma abs_sum_finite_inv x y :
  is_finite (abs x + abs y) = true -> is_finite x = true /\ is_finite y = true.
Proof.
  rewrite !is_finite_spec, add_spec, !abs_spec. intros H.
  destruct (SF.is_finite (Prim2SF x)) eqn:Hx.
  - split; [reflexivity|].
    destruct (SF.is_finite (Prim2SF y)) eqn:Hy; [reflexivity|].
    rewrite SFadd_not_finite_r in H; [discriminate|now rewrite SFabs_is_finite].
  - rewrite SFadd_not_finite_l in H; [discriminate|now rewrite SFabs_is_finite].
Qed.

Lemma bpow_m51 : bpow (-51) = 4 * bpow (-53).
Proof. change (-51)%Z with (-53 + 1 + 1)%Z. rewrite !bpow_succ. lra. Qed.

Lemma bpow_m1073 : bpow (-1073) = 4 * bpow (-1075).
Proof. change (-1073)%Z with (-1075 + 1 + 1)%Z. rewrite !bpow_succ. lra. Qed.

Lemma bpow_m53_le : bpow (-53) <= / 4.
Proof.
  assert (bpow (-53) <= bpow (-2)) by (apply bpow_le; lia).
  assert (bpow (-2 + 1 + 1) = 4 * bpow (-2)) by (rewrite !bpow_succ; lra).
  change (-2 + 1 + 1)%Z with 0%Z in *. rewrite bpow_0 in *. lra.
Qed.

(** The sum of the two absolute products, as the engine computes it, is the
    sum on the real numbers up to a relative error of [2^-51] and an
    absolute error of [2^-1073]. *)
Lemma abs_sum_value a x b y :
  is_finite (abs (a * x) + abs (b * y)) = true ->
  Rabs (value (abs (a * x) + abs (b * y))
        - (Rabs (value a * value x) + Rabs (value b * value y)))
    <= bpow (-51) * (Rabs (value a * value x) + Rabs (value b * value y))
       + bpow (-1073).
Proof.
  intros Hfin.
  destruct (abs_sum_finite_inv _ _ Hfin) as [Hp Hq].
  pose proof (value_mul a x Hp) as H1. pose proof (value_mul b y Hq) as H2.
  pose proof (value_add_abs _ _ Hfin) as H3.
  pose proof (Rabs_triang_inv2 (value (a * x)) (value a * value x)) as T1.
  pose proof (Rabs_triang_inv2 (value (b * y)) (value b * value y)) as T2.
  rewrite bpow_m51, bpow_m1073.
  pose proof bpow_m53_le as Hu. pose proof (bpow_pos (-53)) as Hu0.
  pose proof (bpow_pos (-1075)) as He0.
  set (u := bpow (-53)) in *. set (eta := bpow (-1075)) in *.
  set (r := value (abs (a * x) + abs (b * y))) in *.
  pose proof (Rabs_pos (value a * value x)) as HP.
  pose proof (Rabs_pos (value b * value y)) as HQ.
  set (P := Rabs (value a * value x)) in *.
  set (Q := Rabs (value b * value y)) in *.
  pose proof (Rabs_pos (value (a * x))) as Hp0.
  pose proof (Rabs_pos (value (b * y))) as Hq0.
  set (p := Rabs (value (a * x))) in *.
  set (q := Rabs (value (b * y))) in *.
  assert (Rabs (p - P) <= u * P + eta) as E1 by lra.
  assert (Rabs (q - Q) <= u * Q + eta) as E2 by lra.
  apply Rabs_le_between in E1, E2, H3. apply Rabs_le.
  assert (u * eta <= eta / 4) by nra.
  assert (0 <= u * P) as HuP by nra. assert (0 <= u * Q) as HuQ by nra.
  assert (u * (u * P) <= u * P / 4).
  { generalize dependent (u * P). intros uP **. nra. }
  assert (u * (u * Q) <= u * Q / 4).
  { generalize dependent (u * Q). intros uQ **. nra. }
  assert (u * p <= u * P + u * (u * P) + u * eta) by nra.
  assert (u * q <= u * Q + u * (u * Q) + u * eta) by nra.
  lra.
Qed.

End Extent.

Section Order.
Local Open Scope R_scope.

Lemma bounded_canonical m e :
  SpecFloat.bounded prec emax m e = true ->
  (Zdigits2 (Zpos m) <= 53 /\ -1074 <= e /\ (Zdigits2 (Zpos m) = 53 \/ e = -1074))%Z.
Proof.
  unfold SpecFloat.bounded. intros H. apply andb_true_iff in H as [Hc _].
  apply fexp_canonical in Hc.
  change (Zdigits2 (Zpos m)) with (Zpos (digits2_pos m)).
  unfold fexp, SpecFloat.emin, prec, emax in Hc. lia.
Qed.

Lemma IZR_lt_bpow m : (0 <= m)%Z -> IZR m < bpow (Zdigits2 m).
Proof.
  intros Hm. rewrite bpow_IZR by apply Zdigits2_nonneg.
  apply IZR_lt. now apply Zdigits2_lt_pow2.
Qed.

(** Equal numbers stand for the same real number. *)
Lemma SFeqb_value x y : SFeqb x y = true -> SF2R x = SF2R y.
Proof.
  unfold SFeqb.
  destruct x as [sx|sx| |sx mx ex], y as [sy|sy| |sy my ey]; cbn [SFcompare SF2R];
    try reflexivity; try discriminate;
    try (destruct sx; discriminate); try (destruct sy; discriminate).
  destruct sx, sy; try discriminate;
    destruct (Z.compare_spec ex ey) as [->| |]; try discriminate;
    fold (Pos.compare mx my); destruct (Pos.compare_spec mx my) as [->| |];
    try discriminate; reflexivity.
Qed.

(** [<=] on numbers without sign is [<=] on the real numbers. *)
Lemma SFleb_value x y :
  valid_binary x = true -> valid_binary y = true ->
  SF.unsigned x -> SF.is_finite y = true ->
  SFleb x y = true -> SF2R x <= SF2R y.
Proof.
  unfold SF.unsigned, SFleb.
  destruct x as [sx|sx| |sx mx ex], y as [sy|sy| |sy my ey];
    cbn [valid_binary SFabs SFcompare SF2R SF.is_finite];
    intros Vx Vy Ux Fy H; try discriminate; try lra.
  - destruct sy; [discriminate|]. cbn [cond_Zopp]. pose proof (F2R_pos my ey). lra.
  - injection Ux as <-. discriminate.
  - injection Ux as <-. discriminate.
  - injection Ux as <-. cbn [cond_Zopp].
    destruct sy; [discriminate|]. cbn [cond_Zopp].
    destruct (bounded_canonical mx ex Vx) as (Hdx & Hex & _).
    destruct (bounded_canonical my ey Vy) as (Hdy & Hey & Hny).
    unfold F2R.
    pose proof (bpow_pos ex). pose proof (bpow_pos ey).
    destruct (Z.compare_spec ex ey) as [->|Hlt|Hgt]; try discriminate.
    + fold (Pos.compare mx my) in H.
      destruct (Pos.compare_spec mx my) as [->|Hm|Hm]; try discriminate; [lra|].
      assert (IZR (Zpos mx) <= IZR (Zpos my)) by (apply IZR_le; lia). nra.
    + destruct Hny as [Hny|Hny]; [|lia].
      pose proof (IZR_lt_bpow (Zpos mx) ltac:(lia)) as Hux.
      pose proof (IZR_ge_bpow (Zpos my) ltac:(lia)) as Hly.
      rewrite Hny in Hly. change (53 - 1)%Z with 52%Z in Hly.
      assert (bpow (Zdigits2 (Zpos mx)) <= bpow 53) by now apply bpow_le.
      assert (bpow (53 + ex) <= bpow (52 + ey)) as Hb by (apply bpow_le; lia).
      rewrite !bpow_add in Hb.
      pose proof (bpow_pos 52). pose proof (bpow_pos 53).
      assert (IZR (Zpos mx) * bpow ex <= bpow 53 * bpow ex) by nra.
      assert (bpow 52 * bpow ey <= IZR (Zpos my) * bpow ey) by nra.
      lra.
Qed.

Lemma value_one : value 1 = 1.
Proof.
  unfold value. change (Prim2SF 1) with (S754_finite false 4503599627370496 (-52)).
  cbn [SF2R cond_Zopp]. unfold F2R.
  change 4503599627370496%Z with (2 ^ 52)%Z. rewrite <- bpow_IZR by lia.
  rewrite <- bpow_add. reflexivity.
Qed.

Lemma value_eqb x y : (x =? y)%float = true -> value x = value y.
Proof. rewrite eqb_spec. apply SFeqb_value. Qed.

Lemma value_leb x y :
  is_finite y = true -> (abs x <=? y)%float = true -> Rabs (value x) <= value y.
Proof.
  rewrite is_finite_spec, leb_spec, <- value_abs. intros Fy H.
  apply SFleb_value; try apply Prim2SF_valid; try assumption.
  apply Float.unsigned_abs.
Qed.

Lemma value_half_nonneg w :
  is_finite w = true -> (0 <=? w)%float = true -> 0 <= value (w / two).
Proof.
  intros Hf Hw. rewrite <- (value_eqb _ _ (Float.abs_half_nonneg w Hf Hw)), value_abs.
  apply Rabs_pos.
Qed.

End Order.

Section Magnitude.
Local Open Scope R_scope.

(** A finite number is at most the largest one. *)
Lemma SF2R_below x :
  valid_binary x = true -> Rabs (SF2R x) <= bpow 1024 - bpow 971.
Proof.
  assert (bpow 1024 = bpow 53 * bpow 971) as E by (rewrite <- bpow_add; reflexivity).
  pose proof (bpow_pos 971) as H971. pose proof (bpow_pos 53) as H53.
  assert (1 <= bpow 53) as H53' by (rewrite <- bpow_0; apply bpow_le; lia).
  destruct x as [s|s| |s m e]; cbn [SF2R valid_binary]; intros Hv;
    rewrite ?Rabs_R0; try nra.
  destruct (bounded_canonical m e Hv) as (Hd & He & _).
  unfold SpecFloat.bounded in Hv. apply andb_true_iff in Hv as [_ Hle].
  apply Z.leb_le in Hle. change (emax - prec)%Z with 971%Z in Hle.
  rewrite F2R_cond_Zopp. pose proof (F2R_pos m e) as Hpos.
  replace (Rabs (sign s * F2R (Zpos m) e)) with (F2R (Zpos m) e)
    by (unfold sign; destruct s; unfold Rabs; destruct (Rcase_abs _); lra).
  unfold F2R in *.
  assert (IZR (Zpos m) <= bpow 53 - 1) as Hm.
  { rewrite bpow_IZR by lia. rewrite <- minus_IZR. apply IZR_le.
    pose proof (Zdigits2_lt_pow2 (Zpos m) ltac:(lia)) as H.
    assert (2 ^ Zdigits2 (Zpos m) <= 2 ^ 53)%Z by (apply Z.pow_le_mono_r; lia).
    lia. }
  pose proof (bpow_le e 971 Hle) as Hb. pose proof (bpow_pos e).
  assert (0 < IZR (Zpos m)) by (apply IZR_lt; lia).
  rewrite E. nra.
Qed.

Lemma Zdigits2_mul a b :
  (0 < a)%Z -> (0 < b)%Z -> (Zdigits2 a + Zdigits2 b - 1 <= Zdigits2 (a * b))%Z.
Proof.
  intros Ha Hb.
  pose proof (Zdigits2_ge_pow2 a Ha) as Ha'. pose proof (Zdigits2_ge_pow2 b Hb) as Hb'.
  assert (1 <= Zdigits2 a)%Z by (destruct a; cbn [Zdigits2] in *; lia).
  assert (1 <= Zdigits2 b)%Z by (destruct b; cbn [Zdigits2] in *; lia).
  enough (Zdigits2 a - 1 + (Zdigits2 b - 1) + 1 <= Zdigits2 (a * b))%Z by lia.
  apply Zdigits2_ge; [lia|].
  rewrite Z.pow_add_r by lia.
  apply Z.mul_le_mono_nonneg; try lia; apply Z.pow_nonneg; lia.
Qed.

(** A product that stays below the largest number is finite. *)
Lemma SFmul_no_overflow x y :
  valid_binary x = true -> valid_binary y = true ->
  SF.is_finite x = true -> SF.is_finite y = true ->
  Rabs (SF2R x * SF2R y) < bpow 1024 - bpow 970 ->
  SF.is_finite (SF64mul x y) = true.
Proof.
  destruct x as [sx|sx| |sx mx ex], y as [sy|sy| |sy my ey];
    cbn [valid_binary SF.is_finite SF64mul SFmul SF2R];
    intros Vx Vy Fx Fy H; try discriminate; try reflexivity.
  unfold SF64mul, SFmul.
  destruct (bounded_canonical mx ex Vx) as (Hdx & Hex & Hnx).
  destruct (bounded_canonical my ey Vy) as (Hdy & Hey & Hny).
  pose proof (Zdigits2_mul (Zpos mx) (Zpos my) ltac:(lia) ltac:(lia)) as Hd.
  assert (1 <= Zdigits2 (Zpos mx) /\ 1 <= Zdigits2 (Zpos my))%Z as [? ?]
    by (cbn [Zdigits2]; lia).
  apply binary_round_aux_no_overflow
    with (x := F2R (Zpos (mx * my)) (ex + ey)); [lia|reflexivity| |].
  - rewrite Pos2Z.inj_mul. unfold fexp, SpecFloat.emin, prec, emax. lia.
  - rewrite !F2R_cond_Zopp in H.
    replace (sign sx * F2R (Zpos mx) ex * (sign sy * F2R (Zpos my) ey))
      with (sign (xorb sx sy) * F2R (Zpos (mx * my)) (ex + ey)) in H.
    2:{ rewrite sign_xorb. unfold F2R.
        rewrite Pos2Z.inj_mul, mult_IZR, bpow_add. ring. }
    pose proof (F2R_pos (mx * my) (ex + ey)).
    replace (Rabs (sign (xorb sx sy) * F2R (Zpos (mx * my)) (ex + ey)))
      with (F2R (Zpos (mx * my)) (ex + ey)) in H
      by (unfold sign; destruct (xorb sx sy); unfold Rabs; destruct (Rcase_abs _); lra).
    exact H.
Qed.

(** After alignment to the format's exponent the mantissa is wide enough. *)
Lemma shl_align_fexp_canonical m e :
  let mz := fst (shl_align m e (fexp prec emax (Zpos (digits2_pos m) + e))) in
  let ez := snd (shl_align m e (fexp prec emax (Zpos (digits2_pos m) + e))) in
  (ez <= fexp prec emax (Zdigits2 (Zpos mz) + ez))%Z.
Proof.
  unfold shl_align.
  destruct (fexp prec emax (Zpos (digits2_pos m) + e) - e)%Z as [|d|d] eqn:Hd;
    cbn [fst snd Zdigits2]; try lia.
  change (Pos.iter xO m d) with (shift_pos d m).
  assert (Zdigits2 (Zpos (shift_pos d m)) = Zdigits2 (Zpos m) + Zpos d)%Z as E.
  { rewrite shift_pos_correct. change (Z.pow_pos 2 d) with (2 ^ Zpos d)%Z.
    pose proof (Zdigits2_ge_pow2 (Zpos m) ltac:(lia)) as Hl.
    pose proof (Zdigits2_lt_pow2 (Zpos m) ltac:(lia)) as Hu.
    assert (1 <= Zdigits2 (Zpos m))%Z by (cbn [Zdigits2]; lia).
    apply Z.le_antisymm.
    - apply Zdigits2_le; [lia|]. split; [lia|].
      rewrite Z.pow_add_r by lia. nia.
    - enough (Zdigits2 (Zpos m) - 1 + Zpos d + 1 <= Zdigits2 (2 ^ Zpos d * Zpos m))%Z by lia.
      apply Zdigits2_ge; [lia|]. rewrite Z.pow_add_r by lia. nia. }
  change (Zdigits2 (Zpos (shift_pos d m))) with (Zpos (digits2_pos (shift_pos d m))) in E.
  rewrite E. change (Zdigits2 (Zpos m)) with (Zpos (digits2_pos m)).
  replace (Zpos (digits2_pos m) + Zpos d + fexp prec emax (Zpos (digits2_pos m) + e))%Z
    with (Zpos (digits2_pos m) + e)%Z by lia.
  lia.
Qed.

(** A sum of two numbers without sign that stays below the largest number
    is finite. *)
Lemma SFadd_no_overflow x y :
  SF.unsigned x -> SF.unsigned y ->
  SF.is_finite x = true -> SF.is_finite y = true ->
  SF2R x + SF2R y < bpow 1024 - bpow 970 ->
  SF.is_finite (SF64add x y) = true.
Proof.
  unfold SF.unsigned.
  destruct x as [sx|sx| |sx mx ex], y as [sy|sy| |sy my ey];
    cbn [SFabs SF.is_finite SF2R]; intros Ux Uy Fx Fy H;
    try discriminate; injection Ux as <-; injection Uy as <-; try reflexivity.
  unfold SF64add, SFadd. cbn [cond_Zopp Z.add binary_normalize].
  pose proof (shl_align_value mx ex (Z.min ex ey)) as Hax.
  pose proof (shl_align_value my ey (Z.min ex ey)) as Hay.
  assert (snd (shl_align mx ex (Z.min ex ey)) = Z.min ex ey) as Hsx.
  { unfold shl_align. destruct (Z.min ex ey - ex)%Z eqn:E; cbn [snd]; lia. }
  assert (snd (shl_align my ey (Z.min ex ey)) = Z.min ex ey) as Hsy.
  { unfold shl_align. destruct (Z.min ex ey - ey)%Z eqn:E; cbn [snd]; lia. }
  rewrite Hsx in Hax. rewrite Hsy in Hay.
  set (a := fst (shl_align mx ex (Z.min ex ey))) in *.
  set (b := fst (shl_align my ey (Z.min ex ey))) in *.
  unfold binary_round.
  pose proof (shl_align_value (a + b) (Z.min ex ey)
                (fexp prec emax (Zpos (digits2_pos (a + b)) + Z.min ex ey))) as Hab.
  pose proof (shl_align_fexp_canonical (a + b) (Z.min ex ey)) as Hcan.
  cbn zeta in Hcan.
  destruct (shl_align (a + b) (Z.min ex ey) _) as [mz ez]. cbn [fst snd] in Hab, Hcan.
  apply binary_round_aux_no_overflow with (x := F2R (Zpos mz) ez);
    [lia|reflexivity|exact Hcan|].
  cbn [cond_Zopp] in H. rewrite Hab. 
  replace (F2R (Zpos (a + b)) (Z.min ex ey))
    with (F2R (Zpos a) (Z.min ex ey) + F2R (Zpos b) (Z.min ex ey))
    by (unfold F2R; rewrite Pos2Z.inj_add, plus_IZR; ring).
  rewrite Hax, Hay. exact H.
Qed.

End Magnitude.

Section NoOverflow.
Local Open Scope R_scope.

Lemma value_half x :
  is_finite x = true ->
  Rabs (value (x / two) - value x / 2)
    <= bpow (-53) * Rabs (value x / 2) + bpow (-1075).
Proof.
  rewrite is_finite_spec. unfold value. rewrite div_spec.
  apply SFdiv_two_value, Prim2SF_valid.
Qed.

Lemma bpow_m53_le16 : bpow (-53) <= / 16.
Proof.
  assert (bpow (-53) <= bpow (-4)) by (apply bpow_le; lia).
  assert (bpow (-4 + 1 + 1 + 1 + 1) = 16 * bpow (-4)) by (rewrite !bpow_succ; lra).
  change (-4 + 1 + 1 + 1 + 1)%Z with 0%Z in *. rewrite bpow_0 in *. lra.
Qed.

Lemma bpow_970 : bpow 970 = bpow (-53) * bpow 1023.
Proof. rewrite <- bpow_add. reflexivity. Qed.

Lemma bpow_971 : bpow 971 = 2 * bpow 970.
Proof. apply (bpow_succ 970). Qed.

Lemma bpow_1024 : bpow 1024 = 2 * bpow 1023.
Proof. apply (bpow_succ 1023). Qed.

Lemma bpow_m1075_le : bpow (-1075) <= bpow (-53) * bpow (-53) * bpow 1023.
Proof. rewrite <- !bpow_add. apply bpow_le. lia. Qed.

(** Half of a finite number is at most [2^1023] in magnitude. *)
Lemma value_half_le x : is_finite x = true -> Rabs (value (x / two)) <= bpow 1023.
Proof.
  intros Hf. pose proof (value_half x Hf) as H.
  pose proof (SF2R_below (Prim2SF x) (Prim2SF_valid x)) as Hb. fold (value x) in Hb.
  rewrite bpow_1024, bpow_971, bpow_970 in Hb.
  pose proof bpow_m1075_le as He. pose proof (bpow_pos (-1075)) as He0.
  pose proof bpow_m53_le16 as Hu. pose proof (bpow_pos (-53)) as Hu0.
  pose proof (bpow_pos 1023) as HB.
  set (u := bpow (-53)) in *. set (eta := bpow (-1075)) in *. set (B := bpow 1023) in *.
  assert (Rabs (value x / 2) <= (1 - u) * B) as Hh.
  { unfold Rdiv. rewrite Rabs_mult, (Rabs_pos_eq (/ 2)) by lra. lra. }
  pose proof (Rabs_pos (value x / 2)) as Hh0.
  set (h := Rabs (value x / 2)) in *.
  pose proof (Rabs_triang_inv (value (x / two)) (value x / 2)) as T. fold h in T.
  assert (u * h <= u * ((1 - u) * B)) by nra.
  assert (0 <= u * u * B) by nra.
  nra.
Qed.

(** The sum of two absolute products is finite when the products, on the
    real numbers, sum to at most [3/2 * 2^1023]. *)
Lemma abs_sum_no_overflow a x b y :
  is_finite a = true -> is_finite x = true ->
  is_finite b = true -> is_finite y = true ->
  Rabs (value a * value x) + Rabs (value b * value y) <= 3 / 2 * bpow 1023 ->
  is_finite (abs (a * x) + abs (b * y)) = true.
Proof.
  intros Fa Fx Fb Fy H.
  pose proof bpow_m1075_le as He. pose proof (bpow_pos (-1075)) as He0.
  pose proof bpow_m53_le16 as Hu. pose proof (bpow_pos (-53)) as Hu0.
  pose proof (bpow_pos 1023) as HB.
  pose proof (Rabs_pos (value a * value x)) as HP.
  pose proof (Rabs_pos (value b * value y)) as HQ.
  assert (bpow (-53) * bpow (-53) * bpow 1023 <= bpow 1023 / 256) as He'.
  { assert (0 <= bpow (-53) * bpow 1023) by nra.
    assert (bpow (-53) * (bpow (-53) * bpow 1023) <= / 16 * (bpow (-53) * bpow 1023)) by nra.
    nra. }
  assert (is_finite (a * x) = true) as Fp.
  { rewrite is_finite_spec in *. rewrite mul_spec.
    apply SFmul_no_overflow; try apply Prim2SF_valid; try assumption.
    fold (value a) (value x). rewrite bpow_1024, bpow_970. nra. }
  assert (is_finite (b * y) = true) as Fq.
  { rewrite is_finite_spec in *. rewrite mul_spec.
    apply SFmul_no_overflow; try apply Prim2SF_valid; try assumption.
    fold (value b) (value y). rewrite bpow_1024, bpow_970. nra. }
  pose proof (value_mul a x Fp) as Vp. pose proof (value_mul b y Fq) as Vq.
  pose proof (Rabs_triang_inv (value (a * x)) (value a * value x)) as Tp.
  pose proof (Rabs_triang_inv (value (b * y)) (value b * value y)) as Tq.
  rewrite is_finite_spec, add_spec.
  apply SFadd_no_overflow; try apply Float.unsigned_abs.
  - rewrite abs_spec, SFabs_is_finite, <- is_finite_spec. exact Fp.
  - rewrite abs_spec, SFabs_is_finite, <- is_finite_spec. exact Fq.
  - fold (value (abs (a * x))) (value (abs (b * y))). rewrite !value_abs.
    rewrite bpow_1024, bpow_970.
    set (u := bpow (-53)) in *. set (eta := bpow (-1075)) in *. set (B := bpow 1023) in *.
    set (P := Rabs (value a * value x)) in *. set (Q := Rabs (value b * value y)) in *.
    assert (u * P <= P / 16) by nra. assert (u * Q <= Q / 16) by nra.
    nra.
Qed.

End NoOverflow.

(** ** getWorldHalfExtents up to rounding *)

Section Tolerance.
Local Open Scope R_scope.

Lemma bpow_m50 : bpow (-50) = 8 * bpow (-53).
Proof. change (-50)%Z with (-53 + 1 + 1 + 1)%Z. rewrite !bpow_succ. lra. Qed.

Lemma bpow_m1072 : bpow (-1072) = 8 * bpow (-1075).
Proof. change (-1072)%Z with (-1075 + 1 + 1 + 1)%Z. rewrite !bpow_succ. lra. Qed.



(** With a first factor of at most [2^-53] and a second of 1, the sum is
    the second term up to rounding. *)
Lemma abs_sum_quarter c x y :
  is_finite (abs (c * x) + abs (1 * y)) = true ->
  Rabs (value c) <= bpow (-53) -> 0 <= value x -> 0 <= value y ->
  Rabs (value (abs (c * x) + abs (1 * y)) - value y)
    <= bpow (-51) * (value x + value y) + bpow (-1073).
Proof.
  intros Hf Hc Hx Hy.
  pose proof (abs_sum_value c x 1 y Hf) as H.
  rewrite value_one, Rmult_1_l, Rabs_mult, (Rabs_pos_eq (value x)),
    (Rabs_pos_eq (value y)) in H by assumption.
  rewrite bpow_m51, bpow_m1073 in *.
  pose proof bpow_m53_le as Hu'. pose proof (bpow_pos (-53)) as Hu.
  pose proof (bpow_pos (-1075)) as He.
  set (u := bpow (-53)) in *. set (eta := bpow (-1075)) in *.
  pose proof (Rabs_pos (value c)). set (C := Rabs (value c)) in *.
  apply Rabs_le_between in H. apply Rabs_le.
  assert (C * value x <= u * value x) by nra.
  assert (0 <= C * value x) by nra.
  assert (u * (C * value x) <= u * value x / 4).
  { generalize dependent (C * value x). intros cx **. nra. }
  lra.
Qed.

Lemma abs_sum_quarter' c x y :
  is_finite (abs (1 * x) + abs (c * y)) = true ->
  Rabs (value c) <= bpow (-53) -> 0 <= value x -> 0 <= value y ->
  Rabs (value (abs (1 * x) + abs (c * y)) - value x)
    <= bpow (-51) * (value x + value y) + bpow (-1073).
Proof.
  intros Hf Hc Hx Hy.
  pose proof (abs_sum_value 1 x c y Hf) as H.
  rewrite value_one, Rmult_1_l, Rabs_mult, (Rabs_pos_eq (value x)),
    (Rabs_pos_eq (value y)) in H by assumption.
  rewrite bpow_m51, bpow_m1073 in *.
  pose proof bpow_m53_le as Hu'. pose proof (bpow_pos (-53)) as Hu.
  pose proof (bpow_pos (-1075)) as He.
  set (u := bpow (-53)) in *. set (eta := bpow (-1075)) in *.
  pose proof (Rabs_pos (value c)). set (C := Rabs (value c)) in *.
  apply Rabs_le_between in H. apply Rabs_le.
  assert (C * value y <= u * value y) by nra.
  assert (0 <= C * value y) by nra.
  assert (u * (C * value y) <= u * value y / 4).
  { generalize dependent (C * value y). intros cy **. nra. }
  lra.
Qed.

(** What is at most a finite number in magnitude is finite. *)
Lemma leb_abs_finite x y :
  is_finite y = true -> (abs x <=? y)%float = true -> is_finite x = true.
Proof.
  rewrite !is_finite_spec, leb_spec, abs_spec. unfold SFleb.
  destruct (Prim2SF x) as [sx|sx| |sx mx ex], (Prim2SF y) as [sy|sy| |sy my ey];
    cbn [SFabs SFcompare SF.is_finite]; try reflexivity; try discriminate.
Qed.

Lemma value_m53 : value 0x1p-53 = bpow (-53).
Proof.
  unfold value.
  change (Prim2SF 0x1p-53) with (S754_finite false 4503599627370496 (-105)).
  cbn [SF2R cond_Zopp]. unfold F2R.
  change 4503599627370496%Z with (2 ^ 52)%Z. rewrite <- bpow_IZR by lia.
  rewrite <- bpow_add. reflexivity.
Qed.

End Tolerance.


Lemma bpow_neg k : (0 <= k)%Z -> bpow (- k) = (/ IZR (2 ^ k))%R.
Proof.
  intros Hk. rewrite <- bpow_IZR by assumption.
  pose proof (bpow_pos k) as Hp. pose proof (bpow_add (- k) k) as H.
  replace (- k + k)%Z with 0%Z in H by lia. rewrite bpow_0 in H.
  apply Rmult_eq_reg_r with (bpow k); [|lra].
  rewrite <- H. field. lra.
Qed.

(** The value of a number given in digits, as a fraction. *)
Ltac value_of x :=
  let s := eval vm_compute in (Prim2SF x) in
  let E := fresh "E" in
  assert (Prim2SF x = s) as E by (vm_compute; reflexivity);
  change (value x) with (SF2R (Prim2SF x)); rewrite E; clear E;
  cbn [SF2R cond_Zopp Z.opp]; unfold F2R.

Ltac fractions :=
  repeat match goal with
         | |- context [bpow (Zneg ?p)] =>
             let q := eval vm_compute in (2 ^ Zpos p)%Z in
             change (bpow (Zneg p)) with (bpow (- Zpos p));
             rewrite (bpow_neg (Zpos p)) by lia;
             change (2 ^ Zpos p)%Z with q
         | |- context [bpow (Zpos ?p)] =>
             let q := eval vm_compute in (2 ^ Zpos p)%Z in
             rewrite (bpow_IZR (Zpos p)) by lia;
             change (2 ^ Zpos p)%Z with q
         end.

Ltac compare_values :=
  repeat match goal with |- context [value ?x] => value_of x end;
  fractions; unfold Rabs; repeat destruct (Rcase_abs _); lra.

(** C5, as stated, fails: an infinite width is a width [>= 0], and at
    [Math.PI / 2] it leaves [halfX] NaN or infinite on every host, where
    [d/2] is 1.  A finite
    width does the same to a lesser degree: what the cosine of [Math.PI / 2]
    is short of 0 is multiplied by [w/2], so that [halfX] is near [d/2] only
    on the scale of [w/2 + d/2]: at width 1e20 and depth 1 it is above
    3000. *)
Lemma infinite_width_at_quarter_turn :
  (exists rack : Object3D float,
     (0 <=? rack_width rack)%float = true /\
     (0 <=? rack_depth rack)%float = true /\
     rack_angle rack = (Math_PI / 2)%float /\
     (rack_depth rack / 2 =? 1)%float = true /\
     forall M : MathObject,
       is_finite (halfX (getWorldHalfExtents (binary64 M) rack)) = false) /\
  (3000 <? halfX (getWorldHalfExtents (binary64 PreciseMath)
                    (rack_of 0 1e20 1 (Math_PI / 2))))%float = true.
Proof.
  split; [|vm_compute; reflexivity].
  exists (rack_of 0 infinity 2 (Math_PI / 2))%float.
  repeat split; try reflexivity.
  intros M. rewrite halfX_eq. apply Float.abs_sum_not_finite_l.
  now apply Float.div_two_not_finite.
Qed.

(** C5, amended: for a finite width and depth that are [>= 0], at an angle
    where the host returns 1 for the sine and at most [2^-53] in magnitude
    for the cosine, as engines do at [Math.PI / 2], the half extents are
    finite and swapped up to rounding: [halfX] is [d/2] and [halfZ] is
    [w/2] within [2^-51 (w/2 + d/2) + 2^-1073]. *)
Theorem getWorldHalfExtents_quarter_turn (M : MathObject) (w d θ : float) :
  is_finite w = true -> is_finite d = true ->
  (0 <=? w)%float = true -> (0 <=? d)%float = true ->
  Math_sin M θ = 1%float ->
  (abs (Math_cos M θ) <=? 0x1p-53)%float = true ->
  let r := getWorldHalfExtents (binary64 M) (rack_of 0%float w d θ) in
  is_finite (halfX r) = true /\ is_finite (halfZ r) = true /\
  (Rabs (value (halfX r) - value (d / 2))
     <= bpow (-51) * (value (w / 2) + value (d / 2)) + bpow (-1073) /\
   Rabs (value (halfZ r) - value (w / 2))
     <= bpow (-51) * (value (w / 2) + value (d / 2)) + bpow (-1073))%R.
Proof.
  intros Fw Fd Hw Hd Hsin Hcos r. subst r.
  rewrite halfX_eq, halfZ_eq.
  cbn [rack_of rack_angle rack_width rack_depth rotation userData config
       width depth Euler.y].
  rewrite Hsin.
  pose proof (leb_abs_finite (Math_cos M θ) 0x1p-53 eq_refl Hcos) as Fc.
  apply value_leb in Hcos; [|reflexivity]. rewrite value_m53 in Hcos.
  pose proof (value_half_nonneg w Fw Hw) as Hx.
  pose proof (value_half_nonneg d Fd Hd) as Hz.
  pose proof (value_half_le w Fw) as Bx. pose proof (value_half_le d Fd) as Bz.
  apply Float.div_two_finite in Fw, Fd.
  assert (is_finite (abs (Math_cos M θ * (w / two)) + abs (1 * (d / two))) = true
          /\ is_finite (abs (1 * (w / two)) + abs (Math_cos M θ * (d / two))) = true)
    as [FX FZ].
  { pose proof bpow_m53_le16 as Hu. pose proof (bpow_pos (-53)) as Hu0.
    pose proof (bpow_pos 1023) as HB.
    pose proof (Rabs_pos (value (Math_cos M θ))) as Hc0.
    pose proof (Rabs_pos (value (w / two))). pose proof (Rabs_pos (value (d / two))).
    split; apply abs_sum_no_overflow; try assumption; try reflexivity;
      rewrite value_one, Rmult_1_l, Rabs_mult; nra. }
  split; [exact FX|]. split; [exact FZ|].
  split; [now apply abs_sum_quarter | now apply abs_sum_quarter'].
Qed.

Lemma getWorldHalfExtents_quarter_turn_witness :
  is_finite (halfX (getWorldHalfExtents (binary64 PreciseMath)
                      (rack_of 0 4 2 (Math_PI / 2))%float)) = true /\
  is_finite (halfZ (getWorldHalfExtents (binary64 PreciseMath)
                      (rack_of 0 4 2 (Math_PI / 2))%float)) = true /\
  (Rabs (value (halfX (getWorldHalfExtents (binary64 PreciseMath)
                         (rack_of 0 4 2 (Math_PI / 2))%float)) - value (2 / 2))
     <= bpow (-51) * (value (4 / 2) + value (2 / 2)) + bpow (-1073) /\
   Rabs (value (halfZ (getWorldHalfExtents (binary64 PreciseMath)
                         (rack_of 0 4 2 (Math_PI / 2))%float)) - value (4 / 2))
     <= bpow (-51) * (value (4 / 2) + value (2 / 2)) + bpow (-1073))%R.
Proof.
  apply (getWorldHalfExtents_quarter_turn PreciseMath 4 2 (Math_PI / 2));
    vm_compute; reflexivity.
Defined.







(** ** sanitizeInput *)

Local Open Scope string_scope.

(** On one character the callback under the pattern is the documented
    entity table. *)
Lemma replace_one_char (c : ascii) :
  (if in_class pattern_class c then replacer (String c EmptyString)
   else String c EmptyString) = html_entity c.
Proof. destruct c as [[] [] [] [] [] [] [] []]; reflexivity. Qed.

Lemma replace_class_html_escape (s : string) :
  replace_class pattern_class replacer s = html_escape s.
Proof.
  induction s as [|c rest IH]; [reflexivity|].
  cbn [replace_class html_escape]. now rewrite replace_one_char, IH.
Qed.

Lemma occurs_app (c : ascii) (s t : string) :
  occurs c (s ++ t) = occurs c s || occurs c t.
Proof.
  induction s as [|a s IH]; [reflexivity|].
  cbn [append occurs]. now rewrite IH, orb_assoc.
Qed.

Lemma html_entity_clean (a c : ascii) :
  In c markup_chars -> occurs c (html_entity a) = false.
Proof.
  intros [<-|[<-|[<-|[<-|[]]]]];
    destruct a as [[] [] [] [] [] [] [] []]; reflexivity.
Qed.

Lemma html_escape_clean (s : string) (c : ascii) :
  In c markup_chars -> occurs c (html_escape s) = false.
Proof.
  intros Hc. induction s as [|a rest IH]; [reflexivity|].
  cbn [html_escape]. now rewrite occurs_app, IH, html_entity_clean.
Qed.

(** C10: [sanitizeInput] returns the empty string for anything that is not
    a string; for a string it returns the string with each of the five
    characters replaced by its entity, and in that result none of the
    characters less-than, greater-than, double quote and single quote
    occurs. *)
Theorem sanitizeInput_escapes (str : JSValue) :
  match str with
  | JSString s =>
      sanitizeInput str = html_escape s /\
      occurs "<" (sanitizeInput str) = false /\
      occurs ">" (sanitizeInput str) = false /\
      occurs double_quote (sanitizeInput str) = false /\
      occurs "'" (sanitizeInput str) = false
  | _ => sanitizeInput str = EmptyString
  end.
Proof.
  destruct str as [| | b | n | i | s | description | [|]]; try reflexivity.
  unfold sanitizeInput. cbn [typeof string_data String.eqb Ascii.eqb Bool.eqb negb].
  rewrite replace_class_html_escape.
  split; [reflexivity|].
  repeat split; apply html_escape_clean; cbn; tauto.
Qed.

Example sanitizeInput_script :
  sanitizeInput (JSString "<a href='x'>R&D</a>") =
  "&lt;a href=&#39;x&#39;&gt;R&amp;D&lt;/a&gt;".
Proof. reflexivity. Qed.

Example sanitizeInput_number : sanitizeInput (JSNumber 42%float) = EmptyString.
Proof. reflexivity. Qed.

Local Close Scope string_scope.

(** * Further properties *)

(** ** columnLetterToIndex *)

(** X1: a string that starts with the i-th letter of the alphabet, in
    upper or in lower case and followed by anything, has index i. *)
Theorem columnLetterToIndex_letters (i : nat) (rest : string) :
  i < 26 ->
  columnLetterToIndex (String (ascii_of_nat (65 + i)) rest) = index_number i /\
  columnLetterToIndex (String (ascii_of_nat (97 + i)) rest) = index_number i.
Proof.
  intros Hi.
  do 26 (destruct i as [|i]; [split; reflexivity|]).
  lia.
Qed.

Lemma columnLetterToIndex_letters_witness :
  columnLetterToIndex "C12" = 2%float /\ columnLetterToIndex "c12" = 2%float.
Proof. apply (columnLetterToIndex_letters 2 "12"); lia. Defined.

Lemma columnLetterToIndex_cons (c : ascii) (rest : string) :
  columnLetterToIndex (String c rest) =
  (PrimFloat.of_uint63 (Uint63.of_Z (Z.of_nat (nat_of_ascii (toUpperCase_char c)))) - 65)%float.
Proof. reflexivity. Qed.

(** X2: the result is NaN for the empty string and for no other string. *)
Theorem columnLetterToIndex_nan (letter : string) :
  is_nan (columnLetterToIndex letter) = true <-> letter = EmptyString.
Proof.
  destruct letter as [|c rest]; [split; reflexivity|].
  rewrite columnLetterToIndex_cons.
  split; [|discriminate].
  destruct c as [[] [] [] [] [] [] [] []]; discriminate.
Qed.

Lemma columnLetterToIndex_nan_witness :
  is_nan (columnLetterToIndex EmptyString) = true.
Proof. now apply (proj2 (columnLetterToIndex_nan EmptyString)). Defined.

(** X3: nothing is validated: for an ASCII first character the result lies
    in 0..25 exactly when that character is a letter; a digit, say, gives a
    negative index. *)
Theorem columnLetterToIndex_range (c : ascii) (rest : string) :
  is_ascii c = true ->
  ((0 <=? columnLetterToIndex (String c rest))%float &&
   (columnLetterToIndex (String c rest) <=? 25)%float) = is_letter c.
Proof.
  rewrite columnLetterToIndex_cons.
  destruct c as [[] [] [] [] [] [] [] []]; intros H; try discriminate H; reflexivity.
Qed.

Lemma columnLetterToIndex_range_witness :
  ((0 <=? columnLetterToIndex "7")%float && (columnLetterToIndex "7" <=? 25)%float) = false.
Proof. apply (columnLetterToIndex_range "7" EmptyString). reflexivity. Defined.

(** ** validateRackConfig *)

Module ValueFacts.
Import Value.
Local Open Scope string_scope.

Lemma and_then_truthy (v : t) (x : option t) :
  ToBoolean v = true -> Some v &&& x = x.
Proof. intros H. cbn [and_then]. now rewrite H. Qed.

Lemma and_then_false (x : option t) : Some (Boolean false) &&& x = Some (Boolean false).
Proof. reflexivity. Qed.

Lemma and_then_true (x : option t) : Some (Boolean true) &&& x = x.
Proof. reflexivity. Qed.

Lemma and_then_throw (x : option t) : @None t &&& x = None.
Proof. reflexivity. Qed.

(** The chain of [&&] is the checks one after the other. *)
Lemma validateRackConfig_truthy v :
  ToBoolean v = true ->
  validateRackConfig v = option_map Boolean (all_checks v checks).
Proof.
  intros Hv. unfold validateRackConfig. rewrite (and_then_truthy v _ Hv).
  unfold checks. cbn [all_checks].
  repeat match goal with
         | |- context [Get v ?k] =>
             destruct (Get v k) as [?|]; cbn [typeof_is];
             [ match goal with
               | |- context [String.eqb (typeof ?x) ?tag] =>
                   destruct (String.eqb (typeof x) tag)
               end | ];
             rewrite ?and_then_true, ?and_then_false, ?and_then_throw;
             try reflexivity
         end.
Qed.

Lemma validateRackConfig_falsy v :
  ToBoolean v = false -> validateRackConfig v = Some v.
Proof.
  intros Hv. unfold validateRackConfig.
  assert (forall x : unit -> option t, and_then (Some v) x = Some v) as Hstop
    by (intros x; cbn [and_then]; now rewrite Hv).
  now rewrite !Hstop.
Qed.

Lemma typeof_string v : typeof v = "string" -> exists s, v = String s.
Proof.
  destruct v as [| | b | n | i | s | d | [|] p]; try discriminate.
  intros _. now exists s.
Qed.

Lemma typeof_number v : typeof v = "number" -> exists n, v = Number n.
Proof.
  destruct v as [| | b | n | i | s | d | [|] p]; try discriminate.
  intros _. now exists n.
Qed.

(** When no check throws, the checks give a boolean. *)
Lemma all_checks_total v todo :
  (forall key tag, In (key, tag) todo -> Get v key <> None) ->
  exists b, all_checks v todo = Some b.
Proof.
  induction todo as [|[key tag] rest IH]; intros H; cbn [all_checks].
  - now exists true.
  - destruct (Get v key) as [x|] eqn:E.
    + destruct (String.eqb (typeof x) tag); [|now exists false].
      apply IH. intros k t' Hin. apply (H k t'). now right.
    + exfalso. apply (H key tag); [now left | assumption].
Qed.

(** When the checks throw, a read has thrown, and every check before it
    has passed. *)
Lemma all_checks_throw v todo :
  all_checks v todo = None ->
  exists before key tag after,
    todo = (before ++ (key, tag) :: after)%list /\
    Get v key = None /\
    all_checks v before = Some true.
Proof.
  induction todo as [|[key tag] rest IH]; cbn [all_checks]; [discriminate|].
  destruct (Get v key) as [x|] eqn:E.
  - destruct (String.eqb (typeof x) tag) eqn:T; [|discriminate].
    intros H. destruct (IH H) as (before & k & t' & after & -> & Hk & Hb).
    exists ((key, tag) :: before), k, t', after. repeat split; try assumption.
    cbn [all_checks]. now rewrite E, T.
  - intros _. now exists [], key, tag, rest.
Qed.

End ValueFacts.

(** X4: the function throws only when one of its six reads throws, as a
    getter can, and then every check before that read has passed.  A falsy
    argument ([undefined], [null], [0], the empty string, ...) is returned as
    it is, without a read; any other argument whose reads do not throw gives
    a boolean. *)
Theorem validateRackConfig_result (config : Value.t) :
  match validateRackConfig config with
  | Some r =>
      if Value.ToBoolean config then exists b, r = Value.Boolean b else r = config
  | None =>
      Value.ToBoolean config = true /\
      exists before key tag after,
        Value.checks = (before ++ (key, tag) :: after)%list /\
        Value.Get config key = None /\
        Value.all_checks config before = Some true
  end.
Proof.
  destruct (Value.ToBoolean config) eqn:Hc.
  - rewrite (ValueFacts.validateRackConfig_truthy _ Hc).
    destruct (Value.all_checks config Value.checks) as [b|] eqn:E; cbn [option_map].
    + now exists b.
    + split; [reflexivity|]. now apply ValueFacts.all_checks_throw.
  - now rewrite (ValueFacts.validateRackConfig_falsy _ Hc).
Qed.

(** A getter that throws is not reached behind a check that fails, and is
    reached behind checks that pass. *)
Example validateRackConfig_getter :
  validateRackConfig
    (Value.Object false [("rackId", Value.Data (Value.Number 7));
                         ("width", Value.Accessor None)]%string%float)
    = Some (Value.Boolean false) /\
  validateRackConfig
    (Value.Object false [("rackId", Value.Data (Value.String "A01"));
                         ("width", Value.Accessor None)]%string)
    = None.
Proof. split; reflexivity. Qed.

(** X5: the result is [true] exactly when [rackId] reads as a string and
    [width], [depth], [height], [levels] and [cells] read as numbers; other
    properties and the values themselves play no part. *)
Theorem validateRackConfig_true (config : Value.t) :
  validateRackConfig config = Some (Value.Boolean true) <->
  exists id w d h l c,
    Value.Get config "rackId" = Some (Value.String id) /\
    Value.Get config "width" = Some (Value.Number w) /\
    Value.Get config "depth" = Some (Value.Number d) /\
    Value.Get config "height" = Some (Value.Number h) /\
    Value.Get config "levels" = Some (Value.Number l) /\
    Value.Get config "cells" = Some (Value.Number c).
Proof.
  split.
  - intros H. destruct (Value.ToBoolean config) eqn:Hc.
    + rewrite (ValueFacts.validateRackConfig_truthy _ Hc) in H.
      unfold Value.checks in H. cbn [Value.all_checks] in H.
      repeat match type of H with
             | context [Value.Get config ?k] =>
                 destruct (Value.Get config k) as [?|]; [|discriminate H];
                 match type of H with
                 | context [String.eqb (Value.typeof ?x) ?tag] =>
                     destruct (String.eqb (Value.typeof x) tag) eqn:?;
                     [|discriminate H]
                 end
             end.
      repeat match goal with
             | E : String.eqb _ _ = true |- _ => apply String.eqb_eq in E
             end.
      repeat match goal with
             | E : Value.typeof _ = "string"%string |- _ =>
                 apply ValueFacts.typeof_string in E as [? ->]
             | E : Value.typeof _ = "number"%string |- _ =>
                 apply ValueFacts.typeof_number in E as [? ->]
             end.
      now eexists _, _, _, _, _, _.
    + rewrite (ValueFacts.validateRackConfig_falsy _ Hc) in H.
      injection H as ->. discriminate Hc.
  - intros (id & w & d & h & l & c & H1 & H2 & H3 & H4 & H5 & H6).
    assert (Value.ToBoolean config = true) as Hc.
    { destruct config; try reflexivity; discriminate H1. }
    rewrite (ValueFacts.validateRackConfig_truthy _ Hc).
    unfold Value.checks. cbn [Value.all_checks].
    now rewrite H1, H2, H3, H4, H5, H6.
Qed.

Lemma validateRackConfig_true_witness :
  validateRackConfig
    (Value.Object false
       [("cells", Value.Data (Value.Number 6)); ("levels", Value.Data (Value.Number 4));
        ("height", Value.Accessor (Some (Value.Number 3)));
        ("depth", Value.Data (Value.Number 2));
        ("width", Value.Data (Value.Number 4));
        ("rackId", Value.Data (Value.String "A01"));
        ("note", Value.Data Value.Null)]%string%float)
  = Some (Value.Boolean true).
Proof.
  apply (proj2 (validateRackConfig_true _)).
  now eexists _, _, _, _, _, _.
Defined.

(** X6: the check looks at types only.  The object of any typed
    configuration passes, so a rack whose width is NaN is accepted and then
    gives NaN for both half extents. *)
Theorem validateRackConfig_accepts_nan (M : MathObject) (rack : Object3D float) :
  is_nan (rack_width rack) = true ->
  validateRackConfig (config_object (config (userData rack))) = Some (Value.Boolean true) /\
  is_nan (halfX (getWorldHalfExtents (binary64 M) rack)) = true /\
  is_nan (halfZ (getWorldHalfExtents (binary64 M) rack)) = true.
Proof.
  intros Hw. split; [reflexivity|].
  apply nan_input_nan_extents. now left.
Qed.

Lemma validateRackConfig_accepts_nan_witness :
  validateRackConfig (config_object (config (userData (rack_of 0 nan 2 0.5)%float)))
    = Some (Value.Boolean true) /\
  is_nan (halfX (getWorldHalfExtents (binary64 TaylorMath) (rack_of 0 nan 2 0.5)%float)) = true /\
  is_nan (halfZ (getWorldHalfExtents (binary64 TaylorMath) (rack_of 0 nan 2 0.5)%float)) = true.
Proof.
  apply (validateRackConfig_accepts_nan TaylorMath (rack_of 0 nan 2 0.5)%float).
  reflexivity.
Defined.

(** ** sanitizeInput, continued *)

Local Open Scope string_scope.

Lemma sanitizeInput_string (s : string) :
  sanitizeInput (JSString s) = html_escape s.
Proof. unfold sanitizeInput. cbn. apply replace_class_html_escape. Qed.

Lemma html_unescape_entity (a : ascii) (x : string) :
  html_unescape (html_entity a ++ x) = String a (html_unescape x).
Proof. destruct a as [[] [] [] [] [] [] [] []]; reflexivity. Qed.

Lemma html_unescape_escape (s : string) : html_unescape (html_escape s) = s.
Proof.
  induction s as [|a rest IH]; [reflexivity|].
  cbn [html_escape]. now rewrite html_unescape_entity, IH.
Qed.

(** X7: escaping loses nothing: two strings with the same result are the
    same string. *)
Theorem sanitizeInput_injective (s t : string) :
  sanitizeInput (JSString s) = sanitizeInput (JSString t) -> s = t.
Proof.
  rewrite !sanitizeInput_string. intros H.
  rewrite <- (html_unescape_escape s), <- (html_unescape_escape t).
  now rewrite H.
Qed.

Lemma sanitizeInput_injective_witness :
  sanitizeInput (JSString "a<b") = "a&lt;b" /\ "a<b" = "a<b".
Proof.
  split; [reflexivity|].
  apply (sanitizeInput_injective "a<b" "a<b"). reflexivity.
Defined.

Lemma append_assoc' (s t u : string) : (s ++ t) ++ u = s ++ (t ++ u).
Proof. induction s as [|a s IH]; cbn; [reflexivity | now rewrite IH]. Qed.

Lemma html_escape_app (s t : string) :
  html_escape (s ++ t) = html_escape s ++ html_escape t.
Proof.
  induction s as [|a s IH]; [reflexivity|].
  cbn [append html_escape]. now rewrite IH, append_assoc'.
Qed.

(** X8: escaping the pieces and joining them is escaping the joined
    string. *)
Theorem sanitizeInput_append (s t : string) :
  sanitizeInput (JSString (s ++ t)) =
  sanitizeInput (JSString s) ++ sanitizeInput (JSString t).
Proof. rewrite !sanitizeInput_string. apply html_escape_app. Qed.

Lemma has_special_occurs (s : string) :
  has_special s = false <-> forall c, In c pattern_class -> occurs c s = false.
Proof.
  induction s as [|a rest IH]; cbn [has_special occurs].
  - split; reflexivity.
  - rewrite orb_false_iff, IH. split.
    + intros [Ha Hrest] c Hc. rewrite (Hrest c Hc), orb_false_r.
      destruct (Ascii.eqb_spec c a) as [->|]; [|reflexivity].
      revert Ha Hc. clear. unfold in_class, pattern_class.
      intros Ha [<-|[<-|[<-|[<-|[<-|[]]]]]]; discriminate Ha.
    + intros H. split.
      * unfold in_class. apply not_true_is_false. intros E.
        apply existsb_exists in E as (c & Hc & E).
        apply Ascii.eqb_eq in E. subst c.
        specialize (H a Hc). now rewrite Ascii.eqb_refl in H.
      * intros c Hc. specialize (H c Hc). now apply orb_false_iff in H.
Qed.

Lemma html_entity_plain (a : ascii) :
  in_class pattern_class a = false -> html_entity a = String a EmptyString.
Proof. destruct a as [[] [] [] [] [] [] [] []]; intros H; try discriminate H; reflexivity. Qed.

Lemma html_escape_plain (s : string) : has_special s = false -> html_escape s = s.
Proof.
  induction s as [|a rest IH]; [reflexivity|].
  cbn [has_special html_escape]. intros H. apply orb_false_iff in H as [Ha Hrest].
  now rewrite (html_entity_plain a Ha), IH.
Qed.

Lemma length_app (s t : string) : String.length (s ++ t) = String.length s + String.length t.
Proof. induction s as [|a s IH]; cbn; [reflexivity | now rewrite IH]. Qed.

Lemma html_entity_length (a : ascii) :
  (if in_class pattern_class a then 4 <=? String.length (html_entity a)
   else String.length (html_entity a) =? 1)%nat = true.
Proof. destruct a as [[] [] [] [] [] [] [] []]; reflexivity. Qed.

Lemma html_escape_length (s : string) :
  String.length s <= String.length (html_escape s) /\
  (has_special s = true -> String.length s < String.length (html_escape s)).
Proof.
  induction s as [|a rest [IH1 IH2]]; [split; [reflexivity | discriminate]|].
  cbn [has_special html_escape String.length].
  rewrite length_app. pose proof (html_entity_length a) as Ha.
  destruct (in_class pattern_class a); cbn [orb].
  - apply Nat.leb_le in Ha. split; [lia | intros _; lia].
  - apply Nat.eqb_eq in Ha. split; [lia | intros H; specialize (IH2 H); lia].
Qed.

Lemma has_special_app (s t : string) :
  has_special (s ++ t) = has_special s || has_special t.
Proof.
  induction s as [|a s IH]; [reflexivity|].
  cbn [append has_special]. now rewrite IH, orb_assoc.
Qed.

Lemma has_special_entity (a : ascii) :
  has_special (html_entity a) = in_class pattern_class a.
Proof. destruct a as [[] [] [] [] [] [] [] []]; reflexivity. Qed.

Lemma has_special_escape (s : string) : has_special (html_escape s) = has_special s.
Proof.
  induction s as [|a rest IH]; [reflexivity|].
  cbn [html_escape has_special]. now rewrite has_special_app, has_special_entity, IH.
Qed.

Lemma html_escape_fixed (s : string) : html_escape s = s <-> has_special s = false.
Proof.
  split; [|apply html_escape_plain].
  intros H. destruct (has_special s) eqn:Hs; [|reflexivity].
  destruct (html_escape_length s) as [_ Hlt]. specialize (Hlt Hs).
  rewrite H in Hlt. lia.
Qed.

(** X9: escaping is not idempotent.  Escaping a result again gives the same
    string only when the original contains none of the five characters;
    otherwise the ampersands of the entities are escaped once more. *)
Theorem sanitizeInput_twice (s : string) :
  sanitizeInput (JSString (sanitizeInput (JSString s))) = sanitizeInput (JSString s) <->
  forall c, In c pattern_class -> occurs c s = false.
Proof.
  rewrite !sanitizeInput_string, html_escape_fixed, has_special_escape.
  apply has_special_occurs.
Qed.

Lemma sanitizeInput_twice_witness :
  sanitizeInput (JSString (sanitizeInput (JSString "rack A"))) =
  sanitizeInput (JSString "rack A").
Proof.
  apply (proj2 (sanitizeInput_twice "rack A")).
  intros c [<-|[<-|[<-|[<-|[<-|[]]]]]]; reflexivity.
Defined.

Example sanitizeInput_twice_ampersand :
  sanitizeInput (JSString (sanitizeInput (JSString "R&D"))) = "R&amp;amp;D".
Proof. reflexivity. Qed.

Local Close Scope string_scope.

(** ** getWorldHalfExtents, continued *)

(** X29: the fields the engine returns are the formula on the real numbers,
    taken at what the host returns for the cosine and the sine, up to a
    relative error of [2^-51] and an absolute error of [2^-1073]. *)
Theorem getWorldHalfExtents_formula_error (M : MathObject) (rack : Object3D float) :
  let r := getWorldHalfExtents (binary64 M) rack in
  let c := Rabs (value (Math_cos M (rack_angle rack))) in
  let s := Rabs (value (Math_sin M (rack_angle rack))) in
  let hx := Rabs (value (rack_width rack / 2)) in
  let hz := Rabs (value (rack_depth rack / 2)) in
  is_finite (halfX r) = true -> is_finite (halfZ r) = true ->
  (Rabs (value (halfX r) - (c * hx + s * hz))
     <= bpow (-51) * (c * hx + s * hz) + bpow (-1073) /\
   Rabs (value (halfZ r) - (s * hx + c * hz))
     <= bpow (-51) * (s * hx + c * hz) + bpow (-1073))%R.
Proof.
  intros r c s hx hz. subst r c s hx hz. rewrite halfX_eq, halfZ_eq.
  intros FX FZ. rewrite <- !Rabs_mult.
  split; now apply abs_sum_value.
Qed.

Lemma getWorldHalfExtents_formula_error_witness :
  (Rabs (value (halfX (getWorldHalfExtents (binary64 PreciseMath) pallet_rack))
         - (Rabs (value (Math_cos PreciseMath 0.5)) * Rabs (value (4 / 2))
            + Rabs (value (Math_sin PreciseMath 0.5)) * Rabs (value (2 / 2))))
     <= bpow (-51) * (Rabs (value (Math_cos PreciseMath 0.5)) * Rabs (value (4 / 2))
                      + Rabs (value (Math_sin PreciseMath 0.5)) * Rabs (value (2 / 2)))
        + bpow (-1073) /\
   Rabs (value (halfZ (getWorldHalfExtents (binary64 PreciseMath) pallet_rack))
         - (Rabs (value (Math_sin PreciseMath 0.5)) * Rabs (value (4 / 2))
            + Rabs (value (Math_cos PreciseMath 0.5)) * Rabs (value (2 / 2))))
     <= bpow (-51) * (Rabs (value (Math_sin PreciseMath 0.5)) * Rabs (value (4 / 2))
                      + Rabs (value (Math_cos PreciseMath 0.5)) * Rabs (value (2 / 2)))
        + bpow (-1073))%R.
Proof.
  apply (getWorldHalfExtents_formula_error PreciseMath pallet_rack);
    vm_compute; reflexivity.
Defined.

Section Covering.
Local Open Scope R_scope.

(** A computed sum of absolute products, inflated by [2^-50], covers every
    combination of smaller factors. *)
Lemma abs_sum_covers a x b y (p q : R) :
  is_finite (abs (a * x) + abs (b * y)) = true ->
  Rabs p <= Rabs (value x) -> Rabs q <= Rabs (value y) ->
  Rabs (p * value a + q * value b)
    <= (1 + bpow (-50)) * value (abs (a * x) + abs (b * y)) + bpow (-1072).
Proof.
  intros Hf Hp Hq.
  pose proof (abs_sum_value a x b y Hf) as H.
  rewrite !Rabs_mult in H.
  rewrite bpow_m51, bpow_m1073 in H. rewrite bpow_m50, bpow_m1072.
  pose proof bpow_m53_le16 as Hu. pose proof (bpow_pos (-53)) as Hu0.
  pose proof (bpow_pos (-1075)) as He0.
  set (u := bpow (-53)) in *. set (eta := bpow (-1075)) in *.
  pose proof (Rabs_triang (p * value a) (q * value b)) as T.
  rewrite !Rabs_mult in T.
  pose proof (Rabs_pos p). pose proof (Rabs_pos q).
  pose proof (Rabs_pos (value a)). pose proof (Rabs_pos (value b)).
  pose proof (Rabs_pos (value x)). pose proof (Rabs_pos (value y)).
  set (A := Rabs (value a)) in *. set (B := Rabs (value b)) in *.
  set (X := Rabs (value x)) in *. set (Y := Rabs (value y)) in *.
  set (v := value (abs (a * x) + abs (b * y))) in *.
  apply Rabs_le_between in H.
  assert (Rabs p * A <= A * X) by nra. assert (Rabs q * B <= B * Y) by nra.
  assert (0 <= A * X + B * Y) as HS by nra.
  assert (Rabs (p * value a + q * value b) <= A * X + B * Y) as HT by lra.
  clear T.
  set (S := A * X + B * Y) in *.
  assert (S * (1 - 4 * u) <= v + 4 * eta) by lra.
  assert (u * S <= S / 16) by nra.
  assert (0 <= v + 4 * eta) by nra.
  assert (u * (v + 4 * eta) <= (v + 4 * eta) / 16) by nra.
  assert (S <= (1 + 8 * u) * (v + 4 * eta)).
  { assert (u * (u * S) <= u * S / 16) by nra.
    assert ((1 + 8 * u) * (S * (1 - 4 * u)) <= (1 + 8 * u) * (v + 4 * eta)) by nra.
    nra. }
  assert (u * eta <= eta / 16) by nra.
  lra.
Qed.

End Covering.

(** X10: the half extents cover the rotated footprint.  Every point of the
    footprint, turned by the host's cosine and sine of the angle, lies
    within [halfX] and [halfZ] of the centre, each taken [2^-50] larger. *)
Theorem getWorldHalfExtents_bounding_box (M : MathObject) (w d θ : float) (x z : R) :
  let r := getWorldHalfExtents (binary64 M) (rack_of 0%float w d θ) in
  let c := value (Math_cos M θ) in
  let s := value (Math_sin M θ) in
  is_finite (halfX r) = true -> is_finite (halfZ r) = true ->
  (Rabs x <= Rabs (value (w / 2)))%R -> (Rabs z <= Rabs (value (d / 2)))%R ->
  (Rabs (x * c + z * s) <= (1 + bpow (-50)) * value (halfX r) + bpow (-1072) /\
   Rabs (- x * s + z * c) <= (1 + bpow (-50)) * value (halfZ r) + bpow (-1072))%R.
Proof.
  intros r c s. subst r c s. rewrite halfX_eq, halfZ_eq.
  cbn [rack_of rack_angle rack_width rack_depth rotation userData config
       width depth Euler.y].
  intros FX FZ Hx Hz. split.
  - now apply abs_sum_covers.
  - apply abs_sum_covers; [assumption| |assumption]. now rewrite Rabs_Ropp.
Qed.

Lemma getWorldHalfExtents_bounding_box_witness :
  (Rabs (2 * value (Math_cos PreciseMath 0.5) + 1 * value (Math_sin PreciseMath 0.5))
     <= (1 + bpow (-50))
        * value (halfX (getWorldHalfExtents (binary64 PreciseMath) (rack_of 0 4 2 0.5)%float))
        + bpow (-1072) /\
   Rabs (- 2 * value (Math_sin PreciseMath 0.5) + 1 * value (Math_cos PreciseMath 0.5))
     <= (1 + bpow (-50))
        * value (halfZ (getWorldHalfExtents (binary64 PreciseMath) (rack_of 0 4 2 0.5)%float))
        + bpow (-1072))%R.
Proof.
  apply (getWorldHalfExtents_bounding_box PreciseMath 4 2 0.5 2 1);
    try (vm_compute; reflexivity); compare_values.
Defined.

(** Addition of binary64 numbers is commutative. *)
Lemma SFadd_comm x y : SF64add x y = SF64add y x.
Proof.
  destruct x as [[|]|[|]| |sx mx ex], y as [[|]|[|]| |sy my ey]; try reflexivity.
  unfold SF64add, SFadd. now rewrite Z.min_comm, Z.add_comm.
Qed.

Lemma float_add_comm (x y : float) : (x + y)%float = (y + x)%float.
Proof. apply Prim2SF_inj. rewrite !add_spec. apply SFadd_comm. Qed.

(** X12: on the engine's numbers, exchanging width and depth exchanges
    [halfX] and [halfZ], exactly and for every host. *)
Theorem getWorldHalfExtents_exchange (M : MathObject) (w d θ : float) :
  halfX (getWorldHalfExtents (binary64 M) (rack_of 0%float d w θ)) =
  halfZ (getWorldHalfExtents (binary64 M) (rack_of 0%float w d θ)) /\
  halfZ (getWorldHalfExtents (binary64 M) (rack_of 0%float d w θ)) =
  halfX (getWorldHalfExtents (binary64 M) (rack_of 0%float w d θ)).
Proof.
  rewrite !halfX_eq, !halfZ_eq.
  cbn [rack_of rack_angle rack_width rack_depth rotation userData config
       width depth Euler.y].
  split; apply float_add_comm.
Qed.

(** ** debounce *)

Section DebounceFacts.
Import Debounce.
Context {Args : Type}.
Implicit Types (st : State Args) (e : event Args) (t : Timer Args).
Local Open Scope N_scope.

Lemma settled_initial now h0 : settled (@initial Args now h0).
Proof. split; [discriminate | exact I]. Qed.

(** Clearing [timeout] in a settled state leaves nothing pending. *)
Lemma clear_settled st :
  settled st -> pending (clearTimeout (timeout st) st) = [].
Proof.
  intros [_ Hp]. destruct (timeout st) as [h|] eqn:Ht; cbn [clearTimeout].
  - destruct (pending st) as [|t [|t' rest]]; try easy.
    cbn [pending filter]. injection Hp as <-. now rewrite N.eqb_refl.
  - now destruct (pending st) as [|t [|t' rest]].
Qed.

(** A call leaves exactly its own timer pending. *)
Lemma executedFunction_pending wait args st :
  settled st ->
  let st' := executedFunction wait args st in
  pending st' = [{| handle := next_handle st; due := clock st + delay wait;
                    captured := args |}] /\
  timeout st' = Some (next_handle st) /\
  next_handle st' = N.succ (next_handle st) /\
  clock st' = clock st /\
  invoked st' = invoked st.
Proof.
  intros Hs. pose proof (clear_settled st Hs) as Hc.
  unfold executedFunction, setTimeout, assign_timeout. cbn.
  rewrite Hc. destruct (timeout st); repeat split; reflexivity.
Qed.

Lemma step_settled wait st e st' :
  settled st -> step wait st e = Some st' -> settled st'.
Proof.
  intros Hs. destruct e as [args|ms|h]; cbn [step].
  - intros [= <-].
    destruct (executedFunction_pending wait args st Hs) as (Hp & Ht & Hn & _).
    split.
    + intros h. rewrite Ht, Hn. intros [= <-]. lia.
    + now rewrite Hp, Ht.
  - intros [= <-]. exact Hs.
  - unfold find_timer. destruct Hs as [Hh Hp].
    destruct (pending st) as [|t [|t' rest]] eqn:Hpend; try easy.
    cbn [find]. destruct (handle t =? h) eqn:E; [|discriminate].
    destruct (due t <=? clock st); [|discriminate].
    intros [= <-]. unfold later.
    split.
    + destruct (timeout st); exact Hh.
    + cbn [filter]. rewrite E. cbn [negb].
      destruct (timeout st); exact I.
Qed.

Lemma run_settled wait events : forall st st',
  settled st -> run wait st events = Some st' -> settled st'.
Proof.
  induction events as [|e rest IH]; intros st st' Hs; cbn [run].
  - now intros [= <-].
  - destruct (step wait st e) as [st1|] eqn:E; [|discriminate].
    apply IH. now apply (step_settled wait st e).
Qed.

Lemma run_app wait (ev1 ev2 : list (event Args)) st :
  run wait st (ev1 ++ ev2) =
  match run wait st ev1 with
  | Some st1 => run wait st1 ev2
  | None => None
  end.
Proof.
  revert st. induction ev1 as [|e rest IH]; intros st; cbn [run app]; [reflexivity|].
  destruct (step wait st e); [apply IH | reflexivity].
Qed.

(** While only time passes, nothing but the clock changes. *)
Lemma run_quiet wait (quiet : list (event Args)) : forall st,
  forallb is_elapse quiet = true ->
  exists st',
    run wait st quiet = Some st' /\
    clock st' = clock st + elapsed quiet /\
    next_handle st' = next_handle st /\
    pending st' = pending st /\
    timeout st' = timeout st /\
    invoked st' = invoked st.
Proof.
  induction quiet as [|e rest IH]; intros st Hq.
  - exists st. cbn. rewrite N.add_0_r. now repeat split.
  - destruct e as [args|ms|h]; try discriminate. cbn [forallb is_elapse andb] in Hq.
    cbn [run step elapsed].
    destruct (IH {| clock := clock st + ms; next_handle := next_handle st;
                    pending := pending st; timeout := timeout st;
                    invoked := invoked st |} Hq)
      as (st' & Hr & Hc & Hn & Hp & Ht & Hi).
    exists st'. cbn in *. repeat split; try assumption. lia.
Qed.

End DebounceFacts.

(** X13: a debounced function never has more than one timer pending, and a
    pending timer is always the one whose handle [timeout] holds. *)
Theorem debounce_one_timer {Args : Type} (wait now h0 : N)
    (events : list (Debounce.event Args)) (st : Debounce.State Args) :
  Debounce.run wait (Debounce.initial now h0) events = Some st ->
  (List.length (Debounce.pending st) <= 1)%nat /\
  forall t, In t (Debounce.pending st) ->
            Debounce.timeout st = Some (Debounce.handle t).
Proof.
  intros Hrun.
  destruct (run_settled wait events _ _ (settled_initial now h0) Hrun) as [_ Hp].
  destruct (Debounce.pending st) as [|t [|t' rest]]; try easy.
  - split; [cbn; lia | intros ? []].
  - split; [cbn; lia | intros ? [<-|[]]; exact Hp].
Qed.

Lemma debounce_one_timer_witness :
  let st := {| Debounce.clock := 5; Debounce.next_handle := 3;
               Debounce.pending := [{| Debounce.handle := 2; Debounce.due := 105;
                                       Debounce.captured := "b"%string |}];
               Debounce.timeout := Some 2; Debounce.invoked := [] |}%N in
  (List.length (Debounce.pending st) <= 1)%nat /\
  forall t, In t (Debounce.pending st) ->
            Debounce.timeout st = Some (Debounce.handle t).
Proof.
  apply (debounce_one_timer 100 0 1
           [Debounce.Invoke "a"%string; Debounce.Elapse 5; Debounce.Invoke "b"%string]%N).
  reflexivity.
Defined.

(** X14: for a [wait] the host keeps (at most [2^31 - 1] ms): after a call,
    if only time passes until the host runs the timer, [func] is called
    once, with the arguments of that call, and not before [wait]
    milliseconds have passed since the call; calls that were pending before
    it are dropped, and nothing is left pending. *)
Theorem debounce_delivers_last_call {Args : Type} (wait now h0 h : N) (args : Args)
    (before quiet : list (Debounce.event Args)) (st : Debounce.State Args) :
  (wait <= Debounce.max_delay)%N ->
  forallb Debounce.is_elapse quiet = true ->
  Debounce.run wait (Debounce.initial now h0)
    (before ++ Debounce.Invoke args :: quiet ++ [Debounce.Fire h]) = Some st ->
  exists st0,
    Debounce.run wait (Debounce.initial now h0) before = Some st0 /\
    Debounce.invoked st = Debounce.invoked st0 ++ [args] /\
    Debounce.pending st = [] /\
    (wait <= Debounce.elapsed quiet)%N.
Proof.
  intros Hwait Hq. rewrite run_app.
  assert (Debounce.delay wait = wait) as Hdelay.
  { unfold Debounce.delay. apply N.leb_le in Hwait. now rewrite Hwait. }
  destruct (Debounce.run wait (Debounce.initial now h0) before) as [st0|] eqn:H0;
    [|discriminate].
  pose proof (run_settled wait before _ _ (settled_initial now h0) H0) as Hs.
  cbn [Debounce.run Debounce.step]. rewrite run_app.
  destruct (executedFunction_pending wait args st0 Hs) as (Hp & Ht & Hn & Hc & Hi).
  destruct (run_quiet wait quiet (Debounce.executedFunction wait args st0) Hq)
    as (st1 & -> & Hc1 & Hn1 & Hp1 & Ht1 & Hi1).
  cbn [Debounce.run Debounce.step]. unfold Debounce.find_timer.
  rewrite Hp1, Hp. cbn [find Debounce.handle Debounce.due Debounce.captured].
  destruct (Debounce.next_handle st0 =? h)%N eqn:E; [|discriminate].
  cbn [Debounce.due Debounce.captured]. rewrite Hdelay.
  destruct (Debounce.clock st0 + wait <=? Debounce.clock st1)%N eqn:Hdue;
    cbn [Debounce.run]; [|discriminate].
  intros [= <-]. exists st0. split; [reflexivity|].
  unfold Debounce.later. cbn [filter Debounce.handle]. rewrite E. cbn [negb].
  rewrite Ht1, Ht. cbn. rewrite Hi1, Hi.
  repeat split. apply N.leb_le in Hdue. lia.
Qed.

Lemma debounce_delivers_last_call_witness :
  exists st0,
    Debounce.run 100 (Debounce.initial 0 1) [Debounce.Invoke "a"%string; Debounce.Elapse 40]%N
      = Some st0 /\
    Debounce.invoked
      {| Debounce.clock := 160; Debounce.next_handle := 3; Debounce.pending := [];
         Debounce.timeout := Some 2; Debounce.invoked := ["b"%string] |}%N
      = Debounce.invoked st0 ++ ["b"%string] /\
    (100 <= Debounce.elapsed [@Debounce.Elapse string 70; Debounce.Elapse 50])%N.
Proof.
  destruct (debounce_delivers_last_call 100 0 1 2 "b"%string
              [Debounce.Invoke "a"%string; Debounce.Elapse 40]%N
              [Debounce.Elapse 70; Debounce.Elapse 50]%N
              {| Debounce.clock := 160; Debounce.next_handle := 3; Debounce.pending := [];
                 Debounce.timeout := Some 2; Debounce.invoked := ["b"%string] |}%N
              ltac:(discriminate) eq_refl eq_refl)
    as (st0 & H0 & Hi & _ & Hw).
  exists st0. now repeat split.
Defined.

Section SubseqFacts.
Context {A : Type}.
Implicit Types (l m : list A).

Lemma Subseq_snoc l m x : Subseq l m -> Subseq (l ++ [x]) (m ++ [x]).
Proof.
  induction 1 as [|y l m _ IH|y l m _ IH]; cbn.
  - apply Subseq_take, Subseq_nil.
  - now apply Subseq_skip.
  - now apply Subseq_take.
Qed.

Lemma Subseq_nil_l m : Subseq [] m.
Proof. induction m as [|y m IH]; [apply Subseq_nil | now apply Subseq_skip]. Qed.

Lemma Subseq_prefix l l' m : Subseq (l ++ l') m -> Subseq l m.
Proof.
  revert l. induction m as [|y m IH]; intros l H.
  - inversion H as [E| |]. destruct l; [apply Subseq_nil | discriminate].
  - destruct l as [|x l]; [apply Subseq_nil_l|].
    inversion H as [|? ? ? H'|? ? ? H']; subst.
    + apply Subseq_skip. now apply IH.
    + apply Subseq_take. now apply IH.
Qed.

Lemma Subseq_length l m : Subseq l m -> (List.length l <= List.length m)%nat.
Proof. induction 1; cbn; lia. Qed.

End SubseqFacts.

Section DebounceOrder.
Import Debounce.
Context {Args : Type}.
Implicit Types (st : State Args) (e : event Args).

Lemma step_accepted wait st e st' (past : list Args) :
  settled st -> step wait st e = Some st' ->
  Subseq (accepted st) past ->
  Subseq (accepted st') (past ++ invocations [e]).
Proof.
  intros Hs Hstep Hsub. destruct e as [args|ms|h]; cbn [step invocations] in *.
  - injection Hstep as <-.
    destruct (executedFunction_pending wait args st Hs) as (Hp & _ & _ & _ & Hi).
    unfold accepted. rewrite Hp, Hi. cbn [map captured].
    apply Subseq_snoc. now apply Subseq_prefix in Hsub.
  - injection Hstep as <-. now rewrite app_nil_r.
  - rewrite app_nil_r. unfold find_timer in Hstep. destruct Hs as [_ Hp].
    unfold accepted in *.
    destruct (pending st) as [|t [|t' rest]] eqn:Hpend; try easy.
    cbn [find] in Hstep. destruct (N.eqb (handle t) h) eqn:E; [|discriminate].
    destruct (N.leb (due t) (clock st)); [|discriminate].
    injection Hstep as <-. unfold later. cbn [filter]. rewrite E. cbn [negb].
    destruct (timeout st); cbn; now rewrite app_nil_r.
Qed.

Lemma run_accepted wait events : forall st st' (past : list Args),
  settled st -> run wait st events = Some st' ->
  Subseq (accepted st) past ->
  Subseq (accepted st') (past ++ invocations events).
Proof.
  induction events as [|e rest IH]; intros st st' past Hs; cbn [run].
  - intros [= <-] H. now rewrite app_nil_r.
  - destruct (step wait st e) as [st1|] eqn:E; [|discriminate].
    intros Hrun Hsub.
    replace (past ++ invocations (e :: rest))
      with ((past ++ invocations [e]) ++ invocations rest)
      by (rewrite <- app_assoc; now destruct e).
    apply (IH st1); [now apply (step_settled wait st e) | assumption |].
    now apply (step_accepted wait st e).
Qed.

End DebounceOrder.

(** X15: [func] is only ever called with the arguments of calls that were
    made, in the order of those calls and at most once for each; it is
    never called more often than the debounced function was. *)
Theorem debounce_calls_in_order {Args : Type} (wait now h0 : N)
    (events : list (Debounce.event Args)) (st : Debounce.State Args) :
  Debounce.run wait (Debounce.initial now h0) events = Some st ->
  Subseq (Debounce.invoked st) (Debounce.invocations events) /\
  (List.length (Debounce.invoked st) <= List.length (Debounce.invocations events))%nat.
Proof.
  intros Hrun.
  assert (Subseq (Debounce.invoked st) (Debounce.invocations events)) as H.
  { apply (Subseq_prefix _ (map Debounce.captured (Debounce.pending st))).
    apply (run_accepted wait events _ _ [] (settled_initial now h0) Hrun).
    apply Subseq_nil. }
  split; [exact H | now apply Subseq_length].
Qed.

Lemma debounce_calls_in_order_witness :
  Subseq ["b"%string]
         (Debounce.invocations
            [Debounce.Invoke "a"%string; Debounce.Elapse 40; Debounce.Invoke "b"%string;
             Debounce.Elapse 100; Debounce.Fire 2]%N) /\
  (1 <= 2)%nat.
Proof.
  apply (debounce_calls_in_order 100 0 1
           [Debounce.Invoke "a"%string; Debounce.Elapse 40; Debounce.Invoke "b"%string;
            Debounce.Elapse 100; Debounce.Fire 2]%N
           {| Debounce.clock := 140; Debounce.next_handle := 3; Debounce.pending := [];
              Debounce.timeout := Some 2; Debounce.invoked := ["b"%string] |}%N).
  reflexivity.
Defined.

(** ** Shadows *)

Section ShadowFacts.
Import Shadows.
Local Open Scope string_scope.

Lemma same_but_shadows_refl o : same_but_shadows o o.
Proof. now repeat split. Qed.

Lemma same_but_shadows_sym o o' : same_but_shadows o o' -> same_but_shadows o' o.
Proof. unfold same_but_shadows. intuition congruence. Qed.

Lemma same_but_shadows_trans o1 o2 o3 :
  same_but_shadows o1 o2 -> same_but_shadows o2 o3 -> same_but_shadows o1 o3.
Proof. unfold same_but_shadows. intuition congruence. Qed.

Lemma set_castShadow_same b o : same_but_shadows o (set_castShadow b o).
Proof. now repeat split. Qed.

Lemma applyShadowToMesh_same ref o e floor :
  same_but_shadows o (applyShadowToMesh ref o e floor).
Proof.
  unfold applyShadowToMesh.
  repeat match goal with
         | |- context [if ?b then _ else _] => destruct b
         end; now repeat split.
Qed.

(** On a mesh the result is made of the fields that stay and of flags that
    are assigned afresh. *)
Lemma applyShadowToMesh_mesh ref o o' e floor :
  same_but_shadows o o' -> isMesh o = true ->
  applyShadowToMesh ref o e floor = applyShadowToMesh ref o' e floor.
Proof.
  intros (Hn & Hm & Hr & Hu) Ho. unfold applyShadowToMesh.
  rewrite <- Hm, <- Hn, <- Hu, Ho. cbn [negb].
  unfold set_receiveShadow, set_castShadow. cbn.
  rewrite <- Hn, <- Hm, <- Hr, <- Hu.
  repeat match goal with
         | |- context [if ?b then _ else _] => destruct b
         end; reflexivity.
Qed.

Lemma applyShadowToMesh_not_mesh ref o e floor :
  isMesh o = false -> applyShadowToMesh ref o e floor = o.
Proof. intros H. unfold applyShadowToMesh. now rewrite H. Qed.

End ShadowFacts.

(** X16: the shadow flags a mesh ends up with depend on the last call only:
    applying the setting for [e1] and then for [e2] is applying it for
    [e2]; in particular applying it twice changes nothing. *)
Theorem applyShadowToMesh_last_wins (ref : Shadows.Ref) (obj : Object3D float)
    (e1 e2 : bool) (floorMesh : option Shadows.Ref) :
  Shadows.applyShadowToMesh ref (Shadows.applyShadowToMesh ref obj e1 floorMesh) e2 floorMesh =
  Shadows.applyShadowToMesh ref obj e2 floorMesh.
Proof.
  destruct (isMesh obj) eqn:Hm.
  - symmetry. apply applyShadowToMesh_mesh; [apply applyShadowToMesh_same | assumption].
  - now rewrite !(applyShadowToMesh_not_mesh _ _ _ _ Hm).
Qed.


(** X18: setting the shadows leaves the footprint alone: the half extents
    of the object are the same before and after, on any numbers. *)
Theorem applyShadowToMesh_keeps_extents (N : Number float) (ref : Shadows.Ref)
    (obj : Object3D float) (enabled : bool) (floorMesh : option Shadows.Ref) :
  getWorldHalfExtents N (Shadows.applyShadowToMesh ref obj enabled floorMesh) =
  getWorldHalfExtents N obj.
Proof.
  destruct (applyShadowToMesh_same ref obj enabled floorMesh) as (_ & _ & Hr & Hu).
  unfold getWorldHalfExtents. now rewrite <- Hr, <- Hu.
Qed.

(** X19: for the mesh of a cell (not the floor, not named as a structure)
    the two hover handlers and the scene-wide setting agree, whether shadows
    are on or off: the cell neither casts nor receives. *)
Theorem cell_hover_agrees (ref : Shadows.Ref) (cell : Object3D float)
    (enabled : bool) (floorMesh : option Shadows.Ref) :
  isMesh cell = true ->
  isCell (userData cell) = true ->
  name cell <> "pillarStructure"%string ->
  name cell <> "plateStructure"%string ->
  name cell <> "shelfStructure"%string ->
  floorMesh <> Some ref ->
  Shadows.applyCellHoverShadow cell = Shadows.applyShadowToMesh ref cell enabled floorMesh /\
  Shadows.resetCellHoverShadow cell = Shadows.applyShadowToMesh ref cell enabled floorMesh.
Proof.
  intros Hm Hc H1 H2 H3 Hf. unfold Shadows.applyShadowToMesh.
  rewrite Hm, Hc. cbn [negb].
  apply String.eqb_neq in H1, H2, H3. rewrite H1, H2, H3.
  assert (Shadows.same_object ref floorMesh = false) as ->.
  { destruct floorMesh as [r|]; [|reflexivity]. cbn.
    apply Pos.eqb_neq. congruence. }
  split; reflexivity.
Qed.

Lemma cell_hover_agrees_witness :
  let cell := {| name := "cell-A01-2-3"; isMesh := true; castShadow := true;
                 receiveShadow := true;
                 rotation := {| Euler.x := 0; Euler.y := 0; Euler.z := 0 |};
                 userData := {| config := config (userData pallet_rack);
                                isCell := true; isCellContent := false |} |}%float%string in
  Shadows.applyCellHoverShadow cell = Shadows.applyShadowToMesh 7%positive cell true (Some 1%positive) /\
  Shadows.resetCellHoverShadow cell = Shadows.applyShadowToMesh 7%positive cell true (Some 1%positive).
Proof.
  intros cell. apply (cell_hover_agrees 7%positive cell true (Some 1%positive));
    try reflexivity; discriminate.
Defined.

Section StoreFacts.
Import Shadows.
Context {MapType : Type}.
Implicit Types (s : Store) (w : World MapType) (rs : list Ref).

(** A run of assignments, one reference after the other, changes the
    objects of the references it names, once each when repeating the change
    makes no difference. *)
Lemma fold_modify (f : Ref -> SceneObject -> SceneObject) rs : forall s,
  (forall r o, f r (f r o) = f r o) ->
  fold_left (fun s r => modify r (f r) s) rs s = modify_all f rs s.
Proof.
  induction rs as [|r rs IH]; intros s Hf; cbn [fold_left].
  - unfold modify_all. cbn. symmetry. apply map_id.
  - rewrite IH by assumption. unfold modify_all, modify. rewrite map_map.
    apply map_ext. intros [k o]. cbn [fst snd listed existsb].
    destruct (Pos.eqb_spec k r) as [->|Hk]; cbn [fst snd orb].
    + destruct (listed r rs); [now rewrite Hf | reflexivity].
    + reflexivity.
Qed.

Lemma modify_all_app f rs rs' s :
  (forall r o, f r (f r o) = f r o) ->
  modify_all f rs' (modify_all f rs s) = modify_all f (rs ++ rs') s.
Proof.
  intros Hf. rewrite <- !fold_modify by assumption. now rewrite fold_left_app.
Qed.

Lemma cast_cast b b' r o : cast b r (cast b' r o) = cast b r o.
Proof. reflexivity. Qed.

Lemma settle_settle e e' floorMesh r o :
  settle e floorMesh r (settle e' floorMesh r o) = settle e floorMesh r o.
Proof.
  unfold settle, on_object3D. cbn. f_equal.
  destruct (isMesh (object3D o)) eqn:Hm.
  - symmetry. apply applyShadowToMesh_mesh; [apply applyShadowToMesh_same | assumption].
  - now rewrite !(applyShadowToMesh_not_mesh _ _ _ _ Hm).
Qed.

Lemma light_castShadow_if_objects l b w :
  light_castShadow_if l b w =
  with_objects (modify_all (cast b) (optional l) (objects w)) w.
Proof.
  destruct l as [r|]; cbn [light_castShadow_if optional].
  - unfold light_castShadow. f_equal.
    now rewrite <- (fold_modify (cast b) [r]) by (intros; apply cast_cast).
  - unfold modify_all. cbn. rewrite map_id. now destruct w.
Qed.

Lemma traverse_objects scene e floorMesh w :
  traverse_applyShadow scene e floorMesh w =
  with_objects (modify_all (settle e floorMesh) (visited scene) (objects w)) w.
Proof.
  unfold traverse_applyShadow. f_equal.
  apply (fold_modify (settle e floorMesh)). intros. apply settle_settle.
Qed.

Lemma applyShadowSettings_normal e scene lights floorMesh w main :
  mainLight lights = Some main ->
  applyShadowSettings e scene lights floorMesh w =
  Normal (with_objects (settled_objects e scene lights floorMesh (objects w))
            (set_enabled e w)).
Proof.
  intros Hmain. unfold applyShadowSettings. rewrite Hmain.
  rewrite traverse_objects, !light_castShadow_if_objects.
  change (light_castShadow main e (set_enabled e w))
    with (light_castShadow_if (Some main) e (set_enabled e w)).
  rewrite light_castShadow_if_objects.
  cbn [with_objects objects set_enabled with_shadowMap shadowMap disposed].
  unfold settled_objects, named_lights. rewrite Hmain.
  rewrite !modify_all_app by (intros; apply cast_cast).
  reflexivity.
Qed.

(** One entry under the two passes. *)
Lemma settled_entry e scene lights floorMesh s :
  settled_objects e scene lights floorMesh s =
  List.map (fun entry =>
         let o := if listed (fst entry) (named_lights lights)
                  then cast e (fst entry) (snd entry) else snd entry in
         (fst entry,
          if listed (fst entry) (visited scene)
          then settle e floorMesh (fst entry) o else o)) s.
Proof.
  unfold settled_objects, modify_all. rewrite map_map. apply map_ext.
  intros [k o]. cbn [fst snd].
  destruct (listed k (named_lights lights)); cbn [fst snd];
    destruct (listed k (visited scene)); reflexivity.
Qed.

End StoreFacts.

Section SettingsFacts.
Import Shadows.
Context {MapType : Type}.
Implicit Types (s : Store) (w : World MapType).

Lemma listed_In r rs : listed r rs = true <-> In r rs.
Proof.
  unfold listed. rewrite existsb_exists. split.
  - intros (x & Hx & E). apply Pos.eqb_eq in E. now subst.
  - intros H. exists r. split; [assumption | apply Pos.eqb_refl].
Qed.

Lemma named_lights_In r lights :
  In r (named_lights lights) <->
  In (Some r) [mainLight lights; spotLight lights; fillLight lights; rimLight lights].
Proof.
  unfold named_lights.
  destruct (mainLight lights), (spotLight lights), (fillLight lights), (rimLight lights);
    cbn; intuition (try congruence); repeat match goal with
    | H : Some _ = Some _ |- _ => injection H as H; subst
    end; auto.
Qed.

(** A later pass absorbs an earlier one, entry by entry. *)
Lemma settled_objects_absorb e1 e2 scene lights floorMesh s :
  settled_objects e2 scene lights floorMesh (settled_objects e1 scene lights floorMesh s) =
  settled_objects e2 scene lights floorMesh s.
Proof.
  rewrite !settled_entry, map_map. apply map_ext. intros [k o]. cbn [fst snd].
  f_equal.
  destruct (listed k (named_lights lights)), (listed k (visited scene));
    try reflexivity.
  - unfold cast, settle, on_object3D. cbn [object3D shadow]. f_equal.
    destruct (isMesh (object3D o)) eqn:Hm.
    + symmetry. apply applyShadowToMesh_mesh; [|exact Hm].
      eapply same_but_shadows_trans;
        [apply same_but_shadows_sym, set_castShadow_same|].
      eapply same_but_shadows_trans; [|apply set_castShadow_same].
      eapply same_but_shadows_trans; [|apply applyShadowToMesh_same].
      apply set_castShadow_same.
    + rewrite (applyShadowToMesh_not_mesh k (set_castShadow e1 _) e1 floorMesh Hm).
      now rewrite !applyShadowToMesh_not_mesh by exact Hm.
  - apply settle_settle.
Qed.

Lemma applyShadowToMesh_off_flags ref o floorMesh :
  isMesh o = true ->
  castShadow (applyShadowToMesh ref o false floorMesh) = false /\
  receiveShadow (applyShadowToMesh ref o false floorMesh) = false.
Proof.
  intros Hm. unfold applyShadowToMesh. rewrite Hm. cbn [negb].
  repeat match goal with
         | |- context [if ?b then _ else _] => destruct b
         end; split; reflexivity.
Qed.

Lemma same_but_shadows_extents N o o' :
  same_but_shadows o o' -> getWorldHalfExtents N o = getWorldHalfExtents N o'.
Proof. intros (_ & _ & Hr & Hu). unfold getWorldHalfExtents. now rewrite Hr, Hu. Qed.

Lemma settled_objects_extents N e scene lights floorMesh s :
  extents N (settled_objects e scene lights floorMesh s) = extents N s.
Proof.
  unfold extents. rewrite settled_entry, map_map. apply map_ext.
  intros [k o]. cbn [fst snd]. f_equal. symmetry.
  apply same_but_shadows_extents.
  destruct (listed k (named_lights lights)), (listed k (visited scene));
    unfold cast, settle, on_object3D; cbn [object3D];
    try apply same_but_shadows_refl;
    try apply set_castShadow_same;
    try apply applyShadowToMesh_same.
  eapply same_but_shadows_trans; [apply set_castShadow_same | apply applyShadowToMesh_same].
Qed.

End SettingsFacts.

(** X21: the state after [applyShadowSettings] depends on the last call
    only: switching to [e1] and then to [e2] ends in the state that
    switching to [e2] at once ends in. *)
Theorem applyShadowSettings_last_wins {MapType : Type} (e1 e2 : bool)
    (scene : Shadows.SceneGraph) (lights : Shadows.Lights)
    (floorMesh : option Shadows.Ref) (w : Shadows.World MapType) :
  Shadows.mainLight lights <> None ->
  exists w1,
    Shadows.applyShadowSettings e1 scene lights floorMesh w = Shadows.Normal w1 /\
    Shadows.applyShadowSettings e2 scene lights floorMesh w1 =
    Shadows.applyShadowSettings e2 scene lights floorMesh w.
Proof.
  destruct (Shadows.mainLight lights) as [main|] eqn:Hmain; [intros _|easy].
  eexists. split; [now apply (applyShadowSettings_normal e1 _ _ _ _ main)|].
  rewrite !(applyShadowSettings_normal e2 _ _ _ _ main Hmain).
  cbn [Shadows.objects Shadows.with_objects Shadows.set_enabled Shadows.with_shadowMap
       Shadows.shadowMap Shadows.disposed Shadows.enabled Shadows.type
       Shadows.needsUpdate].
  now rewrite settled_objects_absorb.
Qed.

(** X22: after [applyShadowSettings(false, ...)] the renderer's shadow map
    is off, no mesh of the scene casts or receives a shadow, and none of
    the lights given casts one. *)
Theorem applyShadowSettings_off {MapType : Type}
    (scene : Shadows.SceneGraph) (lights : Shadows.Lights)
    (floorMesh : option Shadows.Ref) (w : Shadows.World MapType) :
  Shadows.mainLight lights <> None ->
  exists w',
    Shadows.applyShadowSettings false scene lights floorMesh w = Shadows.Normal w' /\
    Shadows.enabled (Shadows.shadowMap w') = false /\
    forall ref o, In (ref, o) (Shadows.objects w') ->
      (In ref (Shadows.visited scene) -> isMesh (Shadows.object3D o) = true ->
       castShadow (Shadows.object3D o) = false /\
       receiveShadow (Shadows.object3D o) = false) /\
      (In (Some ref) [Shadows.mainLight lights; Shadows.spotLight lights;
                      Shadows.fillLight lights; Shadows.rimLight lights] ->
       castShadow (Shadows.object3D o) = false).
Proof.
  destruct (Shadows.mainLight lights) as [main|] eqn:Hmain; [intros _|easy].
  eexists. split; [now apply (applyShadowSettings_normal false _ _ _ _ main)|].
  split; [reflexivity|].
  cbn [Shadows.objects Shadows.with_objects]. rewrite settled_entry.
  intros ref o' Hin. apply in_map_iff in Hin as ([k o] & [= <- <-] & _).
  cbn [fst snd]. rewrite <- Hmain, <- named_lights_In, <- !listed_In.
  destruct (listed k (named_lights lights)), (listed k (Shadows.visited scene));
    unfold cast, settle, Shadows.on_object3D; cbn [Shadows.object3D];
    (split; [intros Hv Hm; try discriminate Hv | intros Hl; try discriminate Hl]).
  - apply applyShadowToMesh_off_flags.
    destruct (applyShadowToMesh_same k (Shadows.set_castShadow false (Shadows.object3D o))
                false floorMesh) as (_ & Hmesh & _).
    now rewrite Hmesh.
  - destruct (isMesh (Shadows.object3D o)) eqn:Hm.
    + now apply applyShadowToMesh_off_flags.
    + now rewrite applyShadowToMesh_not_mesh.
  - reflexivity.
  - apply applyShadowToMesh_off_flags.
    destruct (applyShadowToMesh_same k (Shadows.object3D o) false floorMesh)
      as (_ & Hmesh & _).
    now rewrite Hmesh.
Qed.

(** X23: [applyShadowSettings] changes no footprint: whether it completes
    or throws, every object of the store has the half extents it had. *)
Theorem applyShadowSettings_keeps_extents {MapType : Type} (N : Number float)
    (enabled : bool) (scene : Shadows.SceneGraph) (lights : Shadows.Lights)
    (floorMesh : option Shadows.Ref) (w : Shadows.World MapType) :
  extents N (Shadows.objects
               (reached (Shadows.applyShadowSettings enabled scene lights floorMesh w))) =
  extents N (Shadows.objects w).
Proof.
  destruct (Shadows.mainLight lights) as [main|] eqn:Hmain.
  - rewrite (applyShadowSettings_normal enabled _ _ _ _ main Hmain).
    cbn [reached Shadows.objects Shadows.with_objects].
    apply settled_objects_extents.
  - unfold Shadows.applyShadowSettings. now rewrite Hmain.
Qed.

Lemma applyShadowSettings_last_wins_witness :
  exists w1,
    Shadows.applyShadowSettings true Demo.scene Demo.lights Demo.floor Demo.world
      = Shadows.Normal w1 /\
    Shadows.applyShadowSettings false Demo.scene Demo.lights Demo.floor w1 =
    Shadows.applyShadowSettings false Demo.scene Demo.lights Demo.floor Demo.world.
Proof.
  apply (applyShadowSettings_last_wins true false Demo.scene Demo.lights
           Demo.floor Demo.world).
  discriminate.
Defined.

Lemma applyShadowSettings_off_witness :
  exists w',
    Shadows.applyShadowSettings false Demo.scene Demo.lights Demo.floor Demo.world
      = Shadows.Normal w' /\
    Shadows.enabled (Shadows.shadowMap w') = false.
Proof.
  destruct (applyShadowSettings_off Demo.scene Demo.lights Demo.floor Demo.world)
    as (w' & H & He & _); [discriminate|].
  now exists w'.
Defined.

Section QualityFacts.
Import Shadows.
Context {MapType : Type}.
Implicit Types (s : Store) (w : World MapType).

Lemma lookup_modify l l' f s :
  lookup l (modify l' f s) =
  if Pos.eqb l l' then option_map f (lookup l s) else lookup l s.
Proof.
  unfold lookup, modify.
  induction s as [|[k o] s IH]; cbn [List.map find fst snd].
  - now destruct (Pos.eqb l l').
  - destruct (Pos.eqb_spec k l') as [->|Hk]; cbn [fst snd].
    + destruct (Pos.eqb_spec l' l) as [->|Hl].
      * now rewrite Pos.eqb_refl.
      * destruct (Pos.eqb_spec l l') as [E|_]; [congruence|]. apply IH.
    + destruct (Pos.eqb_spec k l) as [->|Hl].
      * destruct (Pos.eqb_spec l l') as [E|_]; [congruence | reflexivity].
      * apply IH.
Qed.



Lemma resize_resized size o : resized size (resize_shadow size o).
Proof.
  unfold resized, resize_shadow. destruct (shadow o) as [sh0|] eqn:E; cbn.
  - now intros sh [= <-].
  - now rewrite E.
Qed.

Lemma updateLightShadowMapSize_shadowMap l size w :
  shadowMap (updateLightShadowMapSize l size w) = shadowMap w.
Proof.
  unfold updateLightShadowMapSize. destruct l as [r|]; [|reflexivity].
  destruct (lookup r (objects w)) as [o|]; [|reflexivity].
  now destruct (shadow o).
Qed.

(** One update makes its light [resized]; any update keeps a light so. *)
Lemma updateLightShadowMapSize_sets l size w o :
  lookup l (objects (updateLightShadowMapSize (Some l) size w)) = Some o ->
  resized size o.
Proof.
  unfold updateLightShadowMapSize.
  destruct (lookup l (objects w)) as [o0|] eqn:Hl; [|congruence].
  destruct (shadow o0) as [sh0|] eqn:Hs.
  - cbn [objects]. rewrite lookup_modify, Pos.eqb_refl, Hl.
    intros [= <-]. apply resize_resized.
  - rewrite Hl. intros [= <-] sh. congruence.
Qed.

Lemma updateLightShadowMapSize_keeps l l' size w :
  (forall o, lookup l (objects w) = Some o -> resized size o) ->
  forall o, lookup l (objects (updateLightShadowMapSize l' size w)) = Some o ->
            resized size o.
Proof.
  intros Hw. unfold updateLightShadowMapSize. destruct l' as [r|]; [|exact Hw].
  destruct (lookup r (objects w)) as [o0|] eqn:Hr; [|exact Hw].
  destruct (shadow o0) as [sh0|] eqn:Hs; [|exact Hw].
  cbn [objects]. intros o. rewrite lookup_modify.
  destruct (Pos.eqb l r); [|apply Hw].
  destruct (lookup l (objects w)) as [o1|]; [|discriminate].
  intros [= <-]. apply resize_resized.
Qed.



End QualityFacts.

(** X24: every quality other than ['low'] and ['high'] is treated as
    ['medium'], whatever its spelling. *)
Theorem getShadowQualitySettings_default {MapType : Type} (quality : string)
    (THREE : Shadows.ThreeLib MapType) :
  quality <> "low"%string -> quality <> "high"%string ->
  Shadows.getShadowQualitySettings quality THREE =
  Shadows.getShadowQualitySettings "medium" THREE.
Proof.
  intros Hl Hh. unfold Shadows.getShadowQualitySettings.
  apply String.eqb_neq in Hl, Hh. rewrite Hl, Hh.
  now destruct (String.eqb quality "medium").
Qed.

Lemma getShadowQualitySettings_default_witness :
  Shadows.getShadowQualitySettings "HIGH" Demo.THREE =
  Shadows.getShadowQualitySettings "medium" Demo.THREE.
Proof. apply (getShadowQualitySettings_default "HIGH" Demo.THREE); discriminate. Defined.


Section UpdateFacts.
Import Shadows.
Context {MapType : Type}.
Implicit Types (s : Store) (w : World MapType).

Lemma resize_lights_shadowMap lights size w :
  shadowMap (resize_lights lights size w) = shadowMap w.
Proof. unfold resize_lights. now rewrite !updateLightShadowMapSize_shadowMap. Qed.

Lemma resize_lights_resized lights size w l o :
  In (Some l) [mainLight lights; spotLight lights; fillLight lights; rimLight lights] ->
  lookup l (objects (resize_lights lights size w)) = Some o ->
  resized size o.
Proof.
  unfold resize_lights. intros [H|[H|[H|[H|[]]]]]; rewrite H; revert o.
  - do 3 apply updateLightShadowMapSize_keeps.
    intros o. apply updateLightShadowMapSize_sets.
  - do 2 apply updateLightShadowMapSize_keeps.
    intros o. apply updateLightShadowMapSize_sets.
  - apply updateLightShadowMapSize_keeps.
    intros o. apply updateLightShadowMapSize_sets.
  - intros o. apply updateLightShadowMapSize_sets.
Qed.

Lemma updateShadowQuality_fst quality lights THREE toggle w :
  let size := quality_mapSize (getShadowQualitySettings quality THREE) in
  let w4 := resize_lights lights size
              (set_type (mapType (getShadowQualitySettings quality THREE)) w) in
  updateShadowQuality quality lights THREE toggle w =
  match toggle with
  | Some true => (set_enabled false w4, true)
  | _ => (set_needsUpdate true w4, false)
  end.
Proof. reflexivity. Qed.

(** The objects after the callback, when it completes. *)
Lemma updateShadowQuality_later_normal scene lights floorMesh w main :
  mainLight lights = Some main ->
  updateShadowQuality_later scene lights floorMesh w =
  Normal (with_objects
            (modify_all (cast true) (named_lights lights)
               (modify_all (settle true floorMesh) (visited scene) (objects w)))
            (set_needsUpdate true (set_enabled true w))).
Proof.
  intros Hmain. unfold updateShadowQuality_later. rewrite Hmain.
  rewrite !light_castShadow_if_objects.
  change (light_castShadow main true ?x) with (light_castShadow_if (Some main) true x).
  rewrite light_castShadow_if_objects, traverse_objects.
  cbn [with_objects objects set_enabled set_needsUpdate with_shadowMap shadowMap disposed].
  unfold named_lights. rewrite Hmain.
  rewrite !modify_all_app by (intros; apply cast_cast).
  reflexivity.
Qed.

End UpdateFacts.

(** X26: after [updateShadowQuality], each light that [lights] names and
    that has a shadow has the square map size of the quality and no shadow
    map left, whether the toggle is checked or not. *)
Theorem updateShadowQuality_resizes {MapType : Type} (quality : string)
    (lights : Shadows.Lights) (THREE : Shadows.ThreeLib MapType)
    (shadowToggle : option bool) (w : Shadows.World MapType)
    (light : Shadows.Ref) (o : Shadows.SceneObject) (sh : Shadows.LightShadow) :
  let size := Shadows.quality_mapSize (Shadows.getShadowQualitySettings quality THREE) in
  In (Some light) [Shadows.mainLight lights; Shadows.spotLight lights;
                   Shadows.fillLight lights; Shadows.rimLight lights] ->
  Shadows.lookup light
    (Shadows.objects (fst (Shadows.updateShadowQuality quality lights THREE shadowToggle w)))
    = Some o ->
  Shadows.shadow o = Some sh ->
  Shadows.mapSize sh = {| Shadows.Vector2.x := size; Shadows.Vector2.y := size |} /\
  Shadows.map sh = None.
Proof.
  intros size Hin Hl Hs. rewrite updateShadowQuality_fst in Hl.
  eapply (resize_lights_resized lights size _ light o Hin); [|exact Hs].
  destruct shadowToggle as [[|]|]; exact Hl.
Qed.

Lemma updateShadowQuality_resizes_witness :
  exists o sh,
    Shadows.lookup 6%positive
      (Shadows.objects (fst (Shadows.updateShadowQuality "high" Demo.lights Demo.THREE
                               (Some true) Demo.world))) = Some o /\
    Shadows.shadow o = Some sh /\
    Shadows.mapSize sh = {| Shadows.Vector2.x := 4096; Shadows.Vector2.y := 4096 |}%float /\
    Shadows.map sh = None.
Proof.
  eexists. eexists.
  split; [reflexivity|]. split; [reflexivity|].
  eapply (updateShadowQuality_resizes "high" Demo.lights Demo.THREE (Some true) Demo.world
            6%positive); [now left | reflexivity | reflexivity].
Defined.

(** X27: a change of quality leaves shadows as the toggle says.  With the
    toggle checked the shadow map is switched off and the callback is
    scheduled, and the callback switches it on again and asks for an
    update; otherwise [enabled] stays as it was and only the update is
    asked for.  Either way the renderer has the map type of the quality. *)
Theorem updateShadowQuality_follows_toggle {MapType : Type} (quality : string)
    (scene : Shadows.SceneGraph) (lights : Shadows.Lights)
    (floorMesh : option Shadows.Ref) (THREE : Shadows.ThreeLib MapType)
    (shadowToggle : option bool) (w : Shadows.World MapType) :
  let now := Shadows.updateShadowQuality quality lights THREE shadowToggle w in
  let after := Shadows.shadowMap
                 (reached (Shadows.updateShadowQuality_later scene lights floorMesh (fst now))) in
  Shadows.type (Shadows.shadowMap (fst now)) =
    Shadows.mapType (Shadows.getShadowQualitySettings quality THREE) /\
  match shadowToggle with
  | Some true =>
      snd now = true /\
      Shadows.enabled (Shadows.shadowMap (fst now)) = false /\
      Shadows.enabled after = true /\
      Shadows.needsUpdate after = true /\
      Shadows.type after = Shadows.mapType (Shadows.getShadowQualitySettings quality THREE)
  | _ =>
      snd now = false /\
      Shadows.enabled (Shadows.shadowMap (fst now)) = Shadows.enabled (Shadows.shadowMap w) /\
      Shadows.needsUpdate (Shadows.shadowMap (fst now)) = true
  end.
Proof.
  intros now after. subst now after. rewrite updateShadowQuality_fst.
  assert (forall w' : Shadows.World MapType, Shadows.shadowMap
            (reached (Shadows.updateShadowQuality_later scene lights floorMesh w')) =
          Shadows.shadowMap (Shadows.set_needsUpdate true (Shadows.set_enabled true w')))
    as Hlater.
  { intros w'. unfold Shadows.updateShadowQuality_later.
    destruct (Shadows.mainLight lights) as [main|]; [|reflexivity].
    cbn [reached]. rewrite !light_castShadow_if_objects. reflexivity. }
  destruct shadowToggle as [[|]|]; cbn [fst snd]; rewrite ?Hlater;
    cbn [Shadows.shadowMap Shadows.set_enabled Shadows.set_needsUpdate
         Shadows.with_shadowMap Shadows.enabled Shadows.type Shadows.needsUpdate];
    rewrite !resize_lights_shadowMap; now repeat split.
Qed.

(** X28: when no light that [lights] names is a mesh, the callback of
    [updateShadowQuality] leaves the objects and the renderer as
    [applyShadowSettings(true, ...)] does and, besides, asks for an
    update. *)
Theorem updateShadowQuality_later_as_settings {MapType : Type}
    (scene : Shadows.SceneGraph) (lights : Shadows.Lights)
    (floorMesh : option Shadows.Ref) (w : Shadows.World MapType) :
  Shadows.mainLight lights <> None ->
  (forall ref o, In (ref, o) (Shadows.objects w) ->
     In (Some ref) [Shadows.mainLight lights; Shadows.spotLight lights;
                    Shadows.fillLight lights; Shadows.rimLight lights] ->
     isMesh (Shadows.object3D o) = false) ->
  exists w1 w2,
    Shadows.updateShadowQuality_later scene lights floorMesh w = Shadows.Normal w1 /\
    Shadows.applyShadowSettings true scene lights floorMesh w = Shadows.Normal w2 /\
    w1 = Shadows.set_needsUpdate true w2.
Proof.
  destruct (Shadows.mainLight lights) as [main|] eqn:Hmain; [intros _|easy].
  intros Hlights. eexists _, _.
  split; [now apply (updateShadowQuality_later_normal _ _ _ _ main)|].
  split; [now apply (applyShadowSettings_normal true _ _ _ _ main)|].
  unfold Shadows.set_needsUpdate, Shadows.set_enabled, Shadows.with_shadowMap,
    Shadows.with_objects. cbn [Shadows.objects Shadows.shadowMap Shadows.disposed
    Shadows.enabled Shadows.type Shadows.needsUpdate].
  f_equal. unfold settled_objects, modify_all. rewrite !map_map.
  apply map_ext_in. intros [k o] Hin. cbn [fst snd].
  destruct (listed k (named_lights lights)) eqn:Hl;
    destruct (listed k (Shadows.visited scene)) eqn:Hv; cbn [fst snd];
    rewrite ?Hl, ?Hv; try reflexivity.
  assert (isMesh (Shadows.object3D o) = false) as Hm.
  { apply (Hlights k o Hin). rewrite <- Hmain. apply named_lights_In.
    now apply listed_In. }
  unfold cast, settle, Shadows.on_object3D. cbn [Shadows.object3D Shadows.shadow].
  now rewrite !applyShadowToMesh_not_mesh by exact Hm.
Qed.

Lemma updateShadowQuality_later_as_settings_witness :
  exists w1 w2,
    Shadows.updateShadowQuality_later Demo.scene Demo.lights Demo.floor Demo.world
      = Shadows.Normal w1 /\
    Shadows.applyShadowSettings true Demo.scene Demo.lights Demo.floor Demo.world
      = Shadows.Normal w2 /\
    w1 = Shadows.set_needsUpdate true w2.
Proof.
  apply (updateShadowQuality_later_as_settings Demo.scene Demo.lights Demo.floor Demo.world).
  - discriminate.
  - intros ref o Hin Hl.
    assert (ref = 6%positive) as ->
      by (destruct Hl as [H|[H|[H|[H|[]]]]]; now inversion H).
    cbn in Hin. destruct Hin as [E|[E|[E|[E|[E|[E|[]]]]]]]; now inversion E.
Defined.
